(** * StreamHub: playlist ingestion, local store and paginated queries

    A shallow embedding of the data pipeline of the StreamHub IPTV client
    (lib/m3uParser.ts, lib/db.ts, hooks/useChannelsFromDB.ts,
    store/useStore.ts, components/ImportModal.tsx and the stream proxy
    route), with the properties its specification states about it.

    Conventions of the embedding.
    - A JavaScript string is a Rocq [string], read as the UTF-8 bytes of
      the text.  Substring search, splitting, prefix tests and the
      character classes used by the source ([\d], [a-z0-9], quote, comma,
      hyphen) are byte-exact under this reading.  [toLowerCase] is modelled
      for ASCII and for the Latin-1 letters (which covers the Portuguese
      keywords of the source); [trim] and [\s] know the ASCII white space.
    - A JavaScript number is [Int z] or [NaN]; fractions do not occur in
      the modelled code.
    - An optional field ([x?: T]) is an [option]; [undefined] is [None].
    - Code that can throw lives in the [Exc] monad. *)

From Stdlib Require Import ZArith Ascii String List Lia Bool.
From stdpp Require Import base option list gmap strings sorting pretty.

#[local] Set Warnings "-register-all,-abstract-large-number,-clear-no-such-hyp".

Local Open Scope string_scope.
Local Open Scope Z_scope.

(** ** Characters and strings as JavaScript uses them *)

Module Js.

Definition code (a : ascii) : N := N_of_ascii a.

Definition in_range (lo hi : N) (a : ascii) : bool :=
  ((lo <=? code a) && (code a <=? hi))%N.

Definition is_digit : ascii -> bool := in_range 48 57.
Definition is_upper : ascii -> bool := in_range 65 90.
Definition is_lower : ascii -> bool := in_range 97 122.

(** [\s], restricted to ASCII: TAB, LF, VT, FF, CR and SPACE. *)
Definition is_space (a : ascii) : bool :=
  in_range 9 13 a || (code a =? 32)%N.

Definition lower_ascii (a : ascii) : ascii :=
  if is_upper a then ascii_of_N (code a + 32) else a.

(** Second byte of the UTF-8 form of U+00C0..U+00DE, U+00D7 excepted. *)
Definition latin1_upper_tail (b : ascii) : bool :=
  in_range 128 158 b && negb (code b =? 151)%N.

Fixpoint lower_bytes (l : list ascii) : list ascii :=
  match l with
  | [] => []
  | a :: t =>
      if (code a =? 195)%N then
        match t with
        | b :: t' =>
            a :: (if latin1_upper_tail b then ascii_of_N (code b + 32) else b)
              :: lower_bytes t'
        | [] => [a]
        end
      else lower_ascii a :: lower_bytes t
  end.

Definition toLowerCase (s : string) : string :=
  string_of_list_ascii (lower_bytes (list_ascii_of_string s)).

Fixpoint drop_space (l : list ascii) : list ascii :=
  match l with
  | a :: t => if is_space a then drop_space t else l
  | [] => []
  end.

Definition trim_bytes (l : list ascii) : list ascii :=
  rev (drop_space (rev (drop_space l))).

Definition trim (s : string) : string :=
  string_of_list_ascii (trim_bytes (list_ascii_of_string s)).

Definition startsWith (s p : string) : bool := String.prefix p s.

Fixpoint includes (s p : string) : bool :=
  String.prefix p s ||
  match s with
  | String _ t => includes t p
  | EmptyString => false
  end.

(** [s.substring(n)] *)
Definition substring_from (n : nat) (s : string) : string :=
  String.substring n (String.length s - n) s.

(** [s.substring(0, n)] *)
Definition substring_to (n : nat) (s : string) : string :=
  String.substring 0 n s.

(** Numbers: integers and NaN. *)
Inductive num := NaN | Int (z : Z).

Definition isNaN (n : num) : bool :=
  match n with NaN => true | Int _ => false end.

(** Truthiness of a number: 0 and NaN are falsy. *)
Definition num_truthy (n : num) : bool :=
  match n with NaN => false | Int z => negb (z =? 0) end.

Definition digit_val (a : ascii) : Z := Z.of_N (code a) - 48.

Fixpoint digits_val (acc : Z) (l : list ascii) : Z :=
  match l with
  | a :: t => if is_digit a then digits_val (10 * acc + digit_val a) t else acc
  | [] => acc
  end.

(** [parseInt(s, 10)]: leading white space, an optional sign, then the
    longest run of decimal digits; NaN when there is no digit. *)
Definition parseInt10 (s : string) : num :=
  let l := drop_space (list_ascii_of_string s) in
  let '(neg, l) :=
    match l with
    | "-"%char :: t => (true, t)
    | "+"%char :: t => (false, t)
    | _ => (false, l)
    end in
  match l with
  | a :: _ =>
      if is_digit a
      then Int (if neg then - digits_val 0 l else digits_val 0 l)
      else NaN
  | [] => NaN
  end.

(** [a || b] on optional strings: [undefined] and the empty string are
    falsy. *)
Definition str_truthy (o : option string) : bool :=
  match o with
  | Some s => negb (String.eqb s EmptyString)
  | None => false
  end.

Definition or_str (a : option string) (b : string) : string :=
  match a with
  | Some s => if String.eqb s EmptyString then b else s
  | None => b
  end.

Definition or_ostr (a b : option string) : option string :=
  if str_truthy a then a else b.

Definition or_onum (a b : option num) : option num :=
  match a with
  | Some n => if num_truthy n then a else b
  | None => b
  end.

(** [a || b] on numbers. *)
Definition or_num (a : option num) (b : num) : num :=
  match a with
  | Some n => if num_truthy n then n else b
  | None => b
  end.

(** SameValueZero on numbers, the equality of [Map] keys. *)
Definition num_eqb (a b : num) : bool :=
  match a, b with
  | NaN, NaN => true
  | Int x, Int y => (x =? y)%Z
  | _, _ => false
  end.

(** The sign of [a - b], as a sort reads it: NaN counts as zero. *)
Definition num_compare (a b : num) : comparison :=
  match a, b with
  | Int x, Int y => (x ?= y)%Z
  | _, _ => Eq
  end.

(** [Array.prototype.sort(cmp)], [cmp] given by its sign.  The sort is
    stable; with a consistent comparator its result is the one of a
    stable insertion sort. *)
Section Sort.
Context {A : Type}.
Variable cmp : A -> A -> comparison.

Fixpoint insert (x : A) (l : list A) : list A :=
  match l with
  | [] => [x]
  | y :: l' =>
      match cmp x y with
      | Gt => y :: insert x l'
      | _ => x :: l
      end
  end.

Definition sort (l : list A) : list A := foldr insert [] l.
End Sort.

End Js.

(** ** Regular expressions

    A backtracking matcher for the fragment of ECMAScript regular
    expressions the source uses: character classes, concatenation,
    alternation, greedy and lazy bounded repetition, capture groups and
    the two anchors.  Priorities are the ECMAScript ones (leftmost start,
    then the first alternative and the greedy or lazy choice).  No pattern
    of the source has a capture group under a quantifier, so captures are
    never reset. *)

Module Re.

Inductive regex :=
| Empty
| Char (p : ascii -> bool)
| Cat (r1 r2 : regex)
| Or (r1 r2 : regex)
| Repeat (greedy : bool) (lo : nat) (hi : option nat) (r : regex)
| Capture (i : nat) (r : regex)
| Bol
| Eol.

Definition caps := list (nat * list ascii).

Definition below (hi : option nat) (n : nat) : bool :=
  match hi with
  | Some h => (n <? h)%nat
  | None => true
  end.

Section Matcher.
Context {R : Type}.

(** The iterations of a quantifier over a body matched by [body]: after
    [cnt] iterations, a greedy quantifier first tries one more and then
    to go on with [k], a lazy one the other way round.  Past the
    minimum, an iteration that consumes nothing is refused. *)
Fixpoint repeat_loop
    (body : list ascii -> caps -> (list ascii -> caps -> option R) -> option R)
    (greedy : bool) (lo : nat) (hi : option nat)
    (k : list ascii -> caps -> option R)
    (fuel cnt : nat) (s : list ascii) (c : caps) : option R :=
  let more (_ : unit) :=
    match fuel with
    | O => None
    | S fuel' =>
        if below hi cnt then
          body s c (fun s' c' =>
            if (length s' <? length s)%nat || (cnt <? lo)%nat
            then repeat_loop body greedy lo hi k fuel' (S cnt) s' c'
            else None)
        else None
    end in
  let stop (_ : unit) := if (lo <=? cnt)%nat then k s c else None in
  if greedy then
    match more tt with Some x => Some x | None => stop tt end
  else
    match stop tt with Some x => Some x | None => more tt end.

(** [rmatch r n s c k]: match [r] at the head of [s], the rest of an
    input of [n] characters, with captures [c]; [k] continues with what
    is left. *)
Fixpoint rmatch (r : regex) (n : nat) (s : list ascii) (c : caps)
    (k : list ascii -> caps -> option R) : option R :=
  match r with
  | Empty => k s c
  | Char p =>
      match s with
      | a :: s' => if p a then k s' c else None
      | [] => None
      end
  | Cat r1 r2 => rmatch r1 n s c (fun s' c' => rmatch r2 n s' c' k)
  | Or r1 r2 =>
      match rmatch r1 n s c k with
      | Some x => Some x
      | None => rmatch r2 n s c k
      end
  | Repeat g lo hi r' =>
      repeat_loop (rmatch r' n) g lo hi k (lo + length s)%nat O s c
  | Capture i r' =>
      rmatch r' n s c (fun s' c' =>
        k s' ((i, take (length s - length s') s) :: c'))
  | Bol => if (length s =? n)%nat then k s c else None
  | Eol => match s with [] => k s c | _ :: _ => None end
  end.
End Matcher.

(** A successful match: where it starts, what it covers, its captures. *)
Record result := mkResult {
  index : nat;
  matched : list ascii;
  captures : caps
}.

Definition match_at (r : regex) (n : nat) (s : list ascii) : option result :=
  rmatch r n s [] (fun s' c =>
    Some (mkResult (n - length s) (take (length s - length s') s) c)).

Fixpoint search (r : regex) (n : nat) (s : list ascii) : option result :=
  match match_at r n s with
  | Some m => Some m
  | None =>
      match s with
      | _ :: t => search r n t
      | [] => None
      end
  end.

(** [RegExp.prototype.exec] without the global flag. *)
Definition exec (r : regex) (s : string) : option result :=
  let l := list_ascii_of_string s in search r (length l) l.

Definition test (r : regex) (s : string) : bool :=
  match exec r s with Some _ => true | None => false end.

(** [m[i]] for [i >= 1]: [undefined] when group [i] took no part. *)
Definition group (m : result) (i : nat) : option string :=
  match find (fun p => (fst p =? i)%nat) (captures m) with
  | Some (_, l) => Some (string_of_list_ascii l)
  | None => None
  end.

(** [s.replace(r, rep)] with the global flag. *)
Fixpoint replace_all_from (fuel : nat) (r : regex) (n : nat)
    (s rep : list ascii) : list ascii :=
  match fuel with
  | O => s
  | S fuel' =>
      let skip :=
        match s with
        | a :: t => a :: replace_all_from fuel' r n t rep
        | [] => []
        end in
      match match_at r n s with
      | Some m =>
          match matched m with
          | [] => rep ++ skip
          | _ :: _ =>
              rep ++ replace_all_from fuel' r n (drop (length (matched m)) s) rep
          end
      | None => skip
      end
  end.

Definition replace_all (r : regex) (rep s : string) : string :=
  let l := list_ascii_of_string s in
  string_of_list_ascii
    (replace_all_from (S (length l)) r (length l) l (list_ascii_of_string rep)).

(** [s.replace(r, rep)] without the global flag: the first match only. *)
Definition replace_first (r : regex) (rep s : string) : string :=
  match exec r s with
  | Some m =>
      let l := list_ascii_of_string s in
      string_of_list_ascii
        (take (index m) l ++ list_ascii_of_string rep
           ++ drop (index m + length (matched m)) l)
  | None => s
  end.

(** Pattern syntax. *)
Definition lit (a : ascii) : regex := Char (fun b => Ascii.eqb b a).
Definition lit_i (a : ascii) : regex :=
  Char (fun b => Ascii.eqb (Js.lower_ascii b) (Js.lower_ascii a)).
Definition digit : regex := Char Js.is_digit.
Definition any_but (a : ascii) : regex := Char (fun b => negb (Ascii.eqb b a)).
(** [.]: anything but a line terminator. *)
Definition dot : regex :=
  Char (fun b => negb (Ascii.eqb b "010") && negb (Ascii.eqb b "013")).
Definition star (r : regex) : regex := Repeat true 0 None r.
Definition plus (r : regex) : regex := Repeat true 1 None r.
Definition plus_lazy (r : regex) : regex := Repeat false 1 None r.
Definition opt (r : regex) : regex := Repeat true 0 (Some 1%nat) r.
Definition times (lo hi : nat) (r : regex) : regex := Repeat true lo (Some hi) r.

Fixpoint cat (l : list regex) : regex :=
  match l with
  | [] => Empty
  | [r] => r
  | r :: t => Cat r (cat t)
  end.

Fixpoint word (s : string) : regex :=
  match s with
  | EmptyString => Empty
  | String a EmptyString => lit a
  | String a t => Cat (lit a) (word t)
  end.

Fixpoint word_i (s : string) : regex :=
  match s with
  | EmptyString => Empty
  | String a EmptyString => lit_i a
  | String a t => Cat (lit_i a) (word_i t)
  end.

End Re.

(** ** Exceptions *)

(** What a [throw] carries: an [Error] object with its [name] and
    [message], or some other value. *)
Inductive thrown :=
| ErrorObj (name message : string)
| OtherThrown.

Definition Error (message : string) : thrown := ErrorObj "Error" message.
Definition TypeError (message : string) : thrown := ErrorObj "TypeError" message.

Inductive Exc (A : Type) :=
| Ok (a : A)
| Throw (e : thrown).
Arguments Ok {A} a.
Arguments Throw {A} e.

Global Instance Exc_ret : MRet Exc := fun A a => Ok a.

Global Instance Exc_bind : MBind Exc := fun A B f m =>
  match m with
  | Ok a => f a
  | Throw e => Throw e
  end.

(** Reading a property of a value that may be [undefined]: [o.p] and
    [o.f()] throw a TypeError on [undefined]. *)
Definition deref {A : Type} (o : option A) : Exc A :=
  match o with
  | Some a => Ok a
  | None => Throw (TypeError "Cannot read properties of undefined")
  end.

(** ** The content model (store/useStore.ts) *)

Inductive ContentType := live | movie | series.

Definition ContentType_eqb (a b : ContentType) : bool :=
  match a, b with
  | live, live | movie, movie | series, series => true
  | _, _ => false
  end.

Module Channel.
Record t := mk {
  id : string;
  name : string;
  url : string;
  originalUrl : option string;
  logo : option string;
  group : option string;
  tvgId : option string;
  tvgName : option string;
  isFavorite : option bool;
  contentType : ContentType;
  year : option string;
  rating : option string;
  duration : option string;
  plot : option string;
  seriesId : option string;
  seriesName : option string;
  seasonNum : option Js.num;
  episodeNum : option Js.num
}.

(** [{ ...c, isFavorite: !c.isFavorite }]: an absent flag counts as
    false. *)
Definition flip_isFavorite (c : t) : t :=
  {| id := id c;
     name := name c;
     url := url c;
     originalUrl := originalUrl c;
     logo := logo c;
     group := group c;
     tvgId := tvgId c;
     tvgName := tvgName c;
     isFavorite := Some (negb (default false (isFavorite c)));
     contentType := contentType c;
     year := year c;
     rating := rating c;
     duration := duration c;
     plot := plot c;
     seriesId := seriesId c;
     seriesName := seriesName c;
     seasonNum := seasonNum c;
     episodeNum := episodeNum c |}.
End Channel.
Abbreviation Channel := Channel.t.

(** ** Content classifier (lib/m3uParser.ts) *)

Definition MOVIE_KEYWORDS : list string :=
  ["filme"; "filmes"; "movie"; "movies"; "vod"; "cinema"; "4k filme";
   "lançamento"; "lancamento"].

Definition SERIES_KEYWORDS : list string :=
  ["série"; "series"; "séries"; "serie"; "temporada"; "episodio";
   "episódio"; "s0"; "e0"; "season"; "episode"].

(** [[\s\-_]] *)
Definition re_sep : Re.regex :=
  Re.Char (fun b => Js.is_space b || Ascii.eqb b "-" || Ascii.eqb b "_").

(** [/s\d{1,2}[\s\-_]?e\d{1,2}/i] *)
Definition re_SxxEyy : Re.regex :=
  Re.cat [Re.lit_i "s"; Re.times 1 2 Re.digit; Re.opt re_sep;
          Re.lit_i "e"; Re.times 1 2 Re.digit].

(** [/\d{1,2}x\d{1,2}/i] *)
Definition re_NxM : Re.regex :=
  Re.cat [Re.times 1 2 Re.digit; Re.lit_i "x"; Re.times 1 2 Re.digit].

(** [/s(\d{1,2})[\s\-_]?e(\d{1,2})/i] *)
Definition re_SxxEyy_groups : Re.regex :=
  Re.cat [Re.lit_i "s"; Re.Capture 1 (Re.times 1 2 Re.digit); Re.opt re_sep;
          Re.lit_i "e"; Re.Capture 2 (Re.times 1 2 Re.digit)].

(** [/(\d{1,2})x(\d{1,2})/i] *)
Definition re_NxM_groups : Re.regex :=
  Re.cat [Re.Capture 1 (Re.times 1 2 Re.digit); Re.lit_i "x";
          Re.Capture 2 (Re.times 1 2 Re.digit)].

(** [/^(.+?)[\s\-_]*(?:s\d{1,2}[\s\-_]?e\d{1,2}|\d{1,2}x\d{1,2})/i] *)
Definition re_seriesName : Re.regex :=
  Re.cat [Re.Bol; Re.Capture 1 (Re.plus_lazy Re.dot); Re.star re_sep;
          Re.Or re_SxxEyy re_NxM].

(** [/[^a-z0-9]+/g] *)
Definition re_non_alnum : Re.regex :=
  Re.plus (Re.Char (fun b => negb (Js.is_lower b || Js.is_digit b))).

(** [/^-+|-+$/g] *)
Definition re_edge_hyphens : Re.regex :=
  Re.Or (Re.Cat Re.Bol (Re.plus (Re.lit "-")))
        (Re.Cat (Re.plus (Re.lit "-")) Re.Eol).

Definition detectContentType (name group url : string) : ContentType :=
  let lowerName := Js.toLowerCase name in
  let lowerGroup := Js.toLowerCase group in
  let lowerUrl := Js.toLowerCase url in
  if Re.test re_SxxEyy name || Re.test re_NxM name then series
  else if existsb (Js.includes lowerGroup) SERIES_KEYWORDS then series
  else if existsb (Js.includes lowerGroup) MOVIE_KEYWORDS then movie
  else if Js.includes lowerUrl "/movie/" || Js.includes lowerUrl "/vod/" then movie
  else if Js.includes lowerUrl "/series/" then series
  else if existsb (Js.includes lowerName) SERIES_KEYWORDS then series
  else if existsb (Js.includes lowerName) MOVIE_KEYWORDS then movie
  else live.

Module SeriesInfo.
Record t := mk {
  seriesId : option string;
  seriesName : option string;
  seasonNum : option Js.num;
  episodeNum : option Js.num
}.
Definition empty : t := mk None None None None.
End SeriesInfo.
Abbreviation SeriesInfo := SeriesInfo.t.

(** [parseInt(m[i], 10)]; an [undefined] group reads as the text
    "undefined", which has no digit. *)
Definition parseInt_group (m : Re.result) (i : nat) : Js.num :=
  match Re.group m i with
  | Some s => Js.parseInt10 s
  | None => Js.NaN
  end.

(** The series id derived from a series name. *)
Definition normalizeSeriesId (seriesName : string) : string :=
  Re.replace_all re_edge_hyphens EmptyString
    (Re.replace_all re_non_alnum "-" (Js.toLowerCase seriesName)).

Definition parseSeriesInfo (name : string) : Exc SeriesInfo :=
  let m :=
    match Re.exec re_SxxEyy_groups name with
    | Some m => Some m
    | None => Re.exec re_NxM_groups name
    end in
  match m with
  | Some m =>
      seriesName ←
        match Re.exec re_seriesName name with
        | Some sm => s ← deref (Re.group sm 1); Ok (Js.trim s)
        | None => Ok name
        end;
      Ok (SeriesInfo.mk (Some (normalizeSeriesId seriesName))
            (Some seriesName)
            (Some (parseInt_group m 1))
            (Some (parseInt_group m 2)))
  | None => Ok SeriesInfo.empty
  end.




(** ** Platform services

    [new URL(s)] and [crypto.randomUUID()] belong to the platform.  The
    parser and the proxy take them as parameters: [newURL s] is [None]
    when the constructor throws, and [uuid n] is the identifier the n-th
    draw returns. *)

Module URL.
Record t := mk {
  protocol : string;   (* with its colon, lower case: "http:" *)
  host : string;
  pathname : string
}.
End URL.
Abbreviation URL := URL.t.

(** ** M3U parser (lib/m3uParser.ts) *)

Module Partial.
(** [Partial<Channel>], with the fields [parseExtInf] fills. *)
Record t := mk {
  name : option string;
  group : option string;
  logo : option string;
  tvgId : option string;
  tvgName : option string;
  seriesId : option string;
  seasonNum : option Js.num;
  episodeNum : option Js.num
}.
Definition set_group (g : string) (c : t) : t :=
  mk (name c) (Some g) (logo c) (tvgId c) (tvgName c)
     (seriesId c) (seasonNum c) (episodeNum c).
End Partial.
Abbreviation PartialChannel := Partial.t.

Definition quote : ascii := "034".

(** The pattern /key=Q(V)Q/i, where Q is the double quote and V any run
    of characters other than Q. *)
Definition re_attr (key : string) : Re.regex :=
  Re.cat [Re.word_i key; Re.lit "="; Re.lit quote;
          Re.Capture 1 (Re.star (Re.any_but quote)); Re.lit quote].

(** [/,([^,]+)$/] *)
Definition re_name : Re.regex :=
  Re.cat [Re.lit ","; Re.Capture 1 (Re.plus (Re.any_but ",")); Re.Eol].

(** [const m = line.match(r); if (m) field = m[1]] *)
Definition attr (key line : string) : option string :=
  match Re.exec (re_attr key) line with
  | Some m => Re.group m 1
  | None => None
  end.

(** [parseInt] of a tag, kept unless it is NaN. *)
Definition attr_num (key line : string) : option Js.num :=
  match Re.exec (re_attr key) line with
  | Some m =>
      let n := parseInt_group m 1 in
      if negb (Js.isNaN n) then Some n else None
  | None => None
  end.

Definition parseExtInf (line : string) : Exc PartialChannel :=
  let tvgId := attr "tvg-id" line in
  let tvgName := attr "tvg-name" line in
  let logo := attr "tvg-logo" line in
  let group := attr "group-title" line in
  let seriesId :=
    match Re.exec (re_attr "tvg-series-id") line with
    | Some m => Re.group m 1
    | None => attr "tvg-serie" line
    end in
  let seasonNum := attr_num "tvg-season" line in
  let episodeNum := attr_num "tvg-episode" line in
  name ←
    match Re.exec re_name line with
    | Some m => s ← deref (Re.group m 1); Ok (Some (Js.trim s))
    | None => Ok None
    end;
  Ok (Partial.mk name group logo tvgId tvgName seriesId seasonNum episodeNum).

Module M3U.
Record result := mkResult {
  channels : list Channel;
  errors : list string
}.

(** The variables of the parsing loop. *)
Record state := mkState {
  st_channels : list Channel;
  st_errors : list string;
  currentChannel : option PartialChannel;
  lineNumber : nat
}.

Definition init : state := mkState [] [] None 0.
Definition finish (st : state) : result :=
  mkResult (st_channels st) (st_errors st).
End M3U.

Definition LF : ascii := "010".
Definition CR : ascii := "013".

(** [content.split(/\r?\n/)] *)
Fixpoint split_lines_go (cur l : list ascii) : list string :=
  let flush := string_of_list_ascii (rev cur) in
  match l with
  | [] => [flush]
  | a :: t =>
      if Ascii.eqb a LF then flush :: split_lines_go [] t
      else if Ascii.eqb a CR then
        match t with
        | b :: t' =>
            if Ascii.eqb b LF then flush :: split_lines_go [] t'
            else split_lines_go (a :: cur) t
        | [] => split_lines_go (a :: cur) t
        end
      else split_lines_go (a :: cur) t
  end.

Definition split_lines (content : string) : list string :=
  split_lines_go [] (list_ascii_of_string content).

Definition extinf_error (lineNumber : nat) : string :=
  "Line " +:+ pretty lineNumber +:+ ": Failed to parse EXTINF".

Section Parser.
Variable newURL : string -> option URL.
Variable uuid : nat -> string.
(** The EXTINF parser the loop calls inside its [try]. *)
Variable extinf : string -> Exc PartialChannel.

Definition isValidUrl (str : string) : bool :=
  match newURL str with
  | Some u =>
      String.eqb (URL.protocol u) "http:"
      || String.eqb (URL.protocol u) "https:"
      || String.eqb (URL.protocol u) "rtmp:"
  | None => false
  end.

(** The item pushed for a pending entry and its URL line. *)
Definition emit (n : nat) (cur : PartialChannel) (trimmed : string)
    : Exc Channel :=
  let name := Js.or_str (Partial.name cur) "Unknown Channel" in
  let group := Js.or_str (Partial.group cur) "Uncategorized" in
  let contentType := detectContentType name group trimmed in
  seriesInfo ←
    (if ContentType_eqb contentType series
     then parseSeriesInfo name else Ok SeriesInfo.empty);
  Ok {| Channel.id := uuid n;
        Channel.name := name;
        Channel.url := trimmed;
        Channel.originalUrl := None;
        Channel.logo := Partial.logo cur;
        Channel.group := Some group;
        Channel.tvgId := Partial.tvgId cur;
        Channel.tvgName := Partial.tvgName cur;
        Channel.isFavorite := None;
        Channel.contentType := contentType;
        Channel.year := None;
        Channel.rating := None;
        Channel.duration := None;
        Channel.plot := None;
        Channel.seriesId :=
          Js.or_ostr (Partial.seriesId cur) (SeriesInfo.seriesId seriesInfo);
        Channel.seriesName := SeriesInfo.seriesName seriesInfo;
        Channel.seasonNum :=
          Js.or_onum (Partial.seasonNum cur) (SeriesInfo.seasonNum seriesInfo);
        Channel.episodeNum :=
          Js.or_onum (Partial.episodeNum cur)
            (SeriesInfo.episodeNum seriesInfo) |}.

(** One turn of [for (const line of lines)]. *)
Definition step (st : M3U.state) (line : string) : Exc M3U.state :=
  let lineNumber := S (M3U.lineNumber st) in
  let channels := M3U.st_channels st in
  let errors := M3U.st_errors st in
  let cur := M3U.currentChannel st in
  let trimmed := Js.trim line in
  if String.eqb trimmed EmptyString || String.eqb trimmed "#EXTM3U" then
    Ok (M3U.mkState channels errors cur lineNumber)
  else if Js.startsWith trimmed "#EXTINF:" then
    match extinf trimmed with
    | Ok c => Ok (M3U.mkState channels errors (Some c) lineNumber)
    | Throw _ =>
        Ok (M3U.mkState channels (errors ++ [extinf_error lineNumber])
              None lineNumber)
    end
  else if Js.startsWith trimmed "#EXTVLCOPT:"
          || Js.startsWith trimmed "#EXTGRP:" then
    match cur with
    | Some c =>
        if Js.startsWith trimmed "#EXTGRP:" then
          Ok (M3U.mkState channels errors
                (Some (Partial.set_group
                         (Js.trim (Js.substring_from 8 trimmed)) c))
                lineNumber)
        else Ok (M3U.mkState channels errors cur lineNumber)
    | None => Ok (M3U.mkState channels errors cur lineNumber)
    end
  else if negb (Js.startsWith trimmed "#") then
    match cur with
    | Some c =>
        if isValidUrl trimmed then
          item ← emit (length channels) c trimmed;
          Ok (M3U.mkState (channels ++ [item]) errors None lineNumber)
        else Ok (M3U.mkState channels errors None lineNumber)
    | None => Ok (M3U.mkState channels errors None lineNumber)
    end
  else Ok (M3U.mkState channels errors cur lineNumber).

Fixpoint run (st : M3U.state) (lines : list string) : Exc M3U.state :=
  match lines with
  | [] => Ok st
  | line :: rest => st' ← step st line; run st' rest
  end.

Definition parseLines (lines : list string) : Exc M3U.result :=
  st ← run M3U.init lines; Ok (M3U.finish st).

Definition parseM3U_with (content : string) : Exc M3U.result :=
  parseLines (split_lines content).
End Parser.

(** [parseM3U] as the repository links it: with [parseExtInf]. *)
Definition parseM3U (newURL : string -> option URL) (uuid : nat -> string)
    (content : string) : Exc M3U.result :=
  parseM3U_with newURL uuid parseExtInf content.

(** ** Stand-ins for the platform, for running the code on examples

    [simpleURL] reads absolute URLs of the form scheme://host/path?query
    and refuses everything else; it does none of the normalisations of
    the real constructor.  [counterId] numbers the identifiers. *)

Module Sample.
(** The scheme, two slashes, the host, the path. *)
Definition re_url : Re.regex :=
  Re.cat [Re.Bol;
          Re.Capture 1
            (Re.Cat (Re.Char (fun b => Js.is_lower (Js.lower_ascii b)))
               (Re.star (Re.Char (fun b =>
                  Js.is_lower (Js.lower_ascii b) || Js.is_digit b
                  || Ascii.eqb b "+" || Ascii.eqb b "." || Ascii.eqb b "-"))));
          Re.word "://";
          Re.Capture 2
            (Re.plus (Re.Char (fun b =>
               negb (Ascii.eqb b "/" || Ascii.eqb b "?" || Ascii.eqb b "#"
                     || Js.is_space b))));
          Re.Capture 3
            (Re.star (Re.Char (fun b =>
               negb (Ascii.eqb b "?" || Ascii.eqb b "#"))))].

Definition simpleURL (s : string) : option URL :=
  match Re.exec re_url s with
  | Some m =>
      match Re.group m 1, Re.group m 2, Re.group m 3 with
      | Some scheme, Some host, Some path =>
          Some (URL.mk (Js.toLowerCase scheme +:+ ":") host
                  (if String.eqb path EmptyString then "/" else path))
      | _, _, _ => None
      end
  | None => None
  end.

Definition counterId (n : nat) : string := "id-" +:+ pretty n.



Definition q : string := String quote EmptyString.

Definition nl : string := String LF EmptyString.

Definition lines (l : list string) : string :=
  fold_right (fun a b => a +:+ nl +:+ b) EmptyString l.

Definition item (id name url group : string) (ct : ContentType) : Channel :=
  {| Channel.id := id; Channel.name := name; Channel.url := url;
     Channel.originalUrl := None; Channel.logo := None;
     Channel.group := Some group; Channel.tvgId := None;
     Channel.tvgName := None; Channel.isFavorite := None;
     Channel.contentType := ct; Channel.year := None;
     Channel.rating := None; Channel.duration := None;
     Channel.plot := None; Channel.seriesId := None;
     Channel.seriesName := None; Channel.seasonNum := None;
     Channel.episodeNum := None |}.
End Sample.



(** ** Playlists (store/useStore.ts) *)

Inductive PlaylistType := m3u | xtream.

Module Playlist.
Record t := mk {
  id : string;
  name : string;
  type : PlaylistType;
  url : option string;
  xtreamUrl : option string;
  xtreamUser : option string;
  xtreamPass : option string;
  channels : list Channel;
  lastUpdated : Z
}.
Definition set_channels (cs : list Channel) (now : Z) (p : t) : t :=
  mk (id p) (name p) (type p) (url p) (xtreamUrl p) (xtreamUser p)
     (xtreamPass p) cs now.
End Playlist.
Abbreviation Playlist := Playlist.t.

(** ** Local store (lib/db.ts)

    The two object stores of the IndexedDB database, each a finite map
    from its primary key.  A function below is the effect of a committed
    transaction; a transaction that aborts leaves the store as it was and
    is not described. *)

Module Meta.
(** [Omit<Playlist, 'channels'> & { channelCount: number }] *)
Record t := mk {
  id : string;
  name : string;
  type : PlaylistType;
  url : option string;
  xtreamUrl : option string;
  xtreamUser : option string;
  xtreamPass : option string;
  lastUpdated : Z;
  channelCount : nat
}.

(** [{ ...playlist, channelCount: n }] *)
Definition set_channelCount (n : nat) (p : t) : t :=
  mk (id p) (name p) (type p) (url p) (xtreamUrl p) (xtreamUser p)
     (xtreamPass p) (lastUpdated p) n.
End Meta.

Module Stored.
(** [Channel & { playlistId: string }] *)
Record t := mk {
  channel : Channel;
  playlistId : string
}.
End Stored.

Definition ContentType_str (t : ContentType) : string :=
  match t with
  | live => "live"
  | movie => "movie"
  | series => "series"
  end.

Module Counts.
(** [{ live: number; movie: number; series: number }] *)
Record t := mk {
  live : nat;
  movie : nat;
  series : nat
}.
End Counts.

Module DB.
Record t := mk {
  playlists : gmap string Meta.t;
  channels : gmap string Stored.t
}.

Definition empty : t := mk ∅ ∅.

Definition key_le {A : Type} (p q : string * A) : Prop := String.le p.1 q.1.

Global Instance key_le_dec {A : Type} : RelDecision (@key_le A).
Proof. intros p q. unfold key_le. apply _. Defined.

(** The records of an object store in the order of their keys, as a
    cursor or [getAll] walks them. *)
Definition entries {A : Type} (m : gmap string A) : list (string * A) :=
  merge_sort key_le (map_to_list m).

(** The index 'by-playlist'. *)
Definition by_playlist (ch : gmap string Stored.t) (pid : string)
    : list (string * Stored.t) :=
  filter (fun kr => Stored.playlistId kr.2 = pid) (entries ch).

(** The index 'by-playlist-type'. *)
Definition by_playlist_type (ch : gmap string Stored.t) (pid ct : string)
    : list (string * Stored.t) :=
  filter (fun kr => Stored.playlistId kr.2 = pid
            ∧ ContentType_str (Channel.contentType (Stored.channel kr.2)) = ct)
    (entries ch).

(** [channelStore.put(record)], the key path being 'id'. *)
Definition put (r : Stored.t) (ch : gmap string Stored.t)
    : gmap string Stored.t :=
  <[Channel.id (Stored.channel r) := r]> ch.

(** The cursor loop: every record the index lists for the playlist is
    deleted, one after the other. *)
Definition delete_playlist_channels (pid : string)
    (ch : gmap string Stored.t) : gmap string Stored.t :=
  foldl (fun m kr => delete kr.1 m) ch (by_playlist ch pid).

Definition BATCH_SIZE : nat := 1000.

Definition put_batch (pid : string) (batch : list Channel)
    (ch : gmap string Stored.t) : gmap string Stored.t :=
  foldl (fun m c => put (Stored.mk c pid) m) ch batch.

(** [for (let i = 0; i < channels.length; i += BATCH_SIZE)] *)
Fixpoint put_batches (fuel i : nat) (pid : string) (cs : list Channel)
    (ch : gmap string Stored.t) : gmap string Stored.t :=
  match fuel with
  | O => ch
  | S fuel' =>
      if (i <? length cs)%nat then
        put_batches fuel' (i + BATCH_SIZE) pid cs
          (put_batch pid (take BATCH_SIZE (drop i cs)) ch)
      else ch
  end.

Definition meta_of (p : Playlist) : Meta.t :=
  Meta.mk (Playlist.id p) (Playlist.name p) (Playlist.type p)
    (Playlist.url p) (Playlist.xtreamUrl p) (Playlist.xtreamUser p)
    (Playlist.xtreamPass p) (Playlist.lastUpdated p)
    (length (Playlist.channels p)).

Definition savePlaylist (playlist : Playlist) (replace : bool) (db : t) : t :=
  let ch :=
    if replace
    then delete_playlist_channels (Playlist.id playlist) (channels db)
    else channels db in
  let cs := Playlist.channels playlist in
  mk (<[Playlist.id playlist := meta_of playlist]> (playlists db))
     (put_batches (length cs) 0 (Playlist.id playlist) cs ch).

Definition getPlaylists (db : t) : list Meta.t := (entries (playlists db)).*2.

Module Query.
Record t := mk {
  playlistId : string;
  searchQuery : option string;
  group : option string;
  isFavorite : option bool;
  contentType : option string;
  offset : option nat;
  limit : option nat
}.
End Query.

(** [a.slice(from, from + count)] *)
Definition slice {A : Type} (from count : nat) (l : list A) : list A :=
  take count (drop from l).

(** The candidates of a query after its filters, before pagination. *)
Definition candidates (db : t) (o : Query.t) : list Channel :=
  let all : list Channel :=
    match Query.contentType o with
    | Some ct =>
        if negb (String.eqb ct EmptyString) && negb (String.eqb ct "all")
        then Stored.channel <$> (by_playlist_type (channels db) (Query.playlistId o) ct).*2
        else Stored.channel <$> (by_playlist (channels db) (Query.playlistId o)).*2
    | None => Stored.channel <$> (by_playlist (channels db) (Query.playlistId o)).*2
    end in
  let all :=
    match Query.group o with
    | Some g =>
        if negb (String.eqb g EmptyString) && negb (String.eqb g "all")
        then filter (fun c => Channel.group c = Some g) all
        else all
    | None => all
    end in
  let all :=
    match Query.isFavorite o with
    | Some b => filter (fun c => Channel.isFavorite c = Some b) all
    | None => all
    end in
  match Query.searchQuery o with
  | Some sq =>
      if negb (String.eqb sq EmptyString) then
        let q := Js.toLowerCase sq in
        filter (fun c => Js.includes (Js.toLowerCase (Channel.name c)) q = true) all
      else all
  | None => all
  end.

Definition getChannels (db : t) (o : Query.t) : list Channel :=
  slice (default 0%nat (Query.offset o)) (default 100%nat (Query.limit o))
    (candidates db o).

(** [saveChannels]: the records are written first; the count of the
    playlist, when the store knows the playlist, is then read back from
    the index. *)
Definition saveChannels (playlistId : string) (cs : list Channel) (db : t)
    : t :=
  let playlist := playlists db !! playlistId in
  let ch := put_batches (length cs) 0 playlistId cs (channels db) in
  match playlist with
  | Some p =>
      let existingChannels := by_playlist ch playlistId in
      mk (<[Meta.id p := Meta.set_channelCount (length existingChannels) p]>
            (playlists db))
         ch
  | None => mk (playlists db) ch
  end.

(** The records [getGroups] and [getChannels] start from. *)
Definition of_type (db : t) (playlistId : string)
    (contentType : option string) : list Channel :=
  match contentType with
  | Some ct =>
      if negb (String.eqb ct EmptyString) && negb (String.eqb ct "all")
      then Stored.channel <$> (by_playlist_type (channels db) playlistId ct).*2
      else Stored.channel <$> (by_playlist (channels db) playlistId).*2
  | None => Stored.channel <$> (by_playlist (channels db) playlistId).*2
  end.

(** [groups.add(g)] on a [Set], kept in insertion order. *)
Definition set_add (g : string) (groups : list string) : list string :=
  if bool_decide (g ∈ groups) then groups else groups ++ [g].

(** [channels.forEach((c) => { if (c.group) groups.add(c.group) })] *)
Definition collect_groups (channels : list Channel) : list string :=
  foldl (fun groups c =>
           match Channel.group c with
           | Some g => if String.eqb g EmptyString then groups
                       else set_add g groups
           | None => groups
           end) [] channels.

(** [getGroups]; the default [sort()] orders strings by their code
    units, which for texts of the Basic Multilingual Plane is the order
    of their UTF-8 bytes. *)
Definition getGroups (db : t) (playlistId : string)
    (contentType : option string) : list string :=
  merge_sort String.le (collect_groups (of_type db playlistId contentType)).

(** [counts[c.contentType]++] *)
Definition count (c : Channel) (counts : Counts.t) : Counts.t :=
  match Channel.contentType c with
  | live =>
      Counts.mk (S (Counts.live counts)) (Counts.movie counts)
        (Counts.series counts)
  | movie =>
      Counts.mk (Counts.live counts) (S (Counts.movie counts))
        (Counts.series counts)
  | series =>
      Counts.mk (Counts.live counts) (Counts.movie counts)
        (S (Counts.series counts))
  end.

Definition getContentCounts (db : t) (playlistId : string) : Counts.t :=
  foldl (fun counts kr => count (Stored.channel kr.2) counts)
    (Counts.mk 0 0 0) (by_playlist (channels db) playlistId).

(** [toggleChannelFavorite]: the store after the call and the value
    returned. *)
Definition toggleChannelFavorite (channelId : string) (db : t) : t * bool :=
  match channels db !! channelId with
  | Some r =>
      let channel :=
        Stored.mk (Channel.flip_isFavorite (Stored.channel r))
          (Stored.playlistId r) in
      (mk (playlists db) (put channel (channels db)),
       default false (Channel.isFavorite (Stored.channel channel)))
  | None => (db, false)
  end.


Definition clearAllData (db : t) : t := mk ∅ ∅.

(** [getChannel]: the record under the key, [undefined] when there is
    none. *)
Definition getChannel (db : t) (channelId : string) : option Channel :=
  Stored.channel <$> channels db !! channelId.
End DB.

(** ** Query and pagination layer (hooks/useChannelsFromDB.ts) *)

Inductive ContentFilter := FilterAll | FilterType (t : ContentType).


(** [/\s*S\d+E\d+.*$/i] *)
Definition re_episode_suffix : Re.regex :=
  Re.cat [Re.star (Re.Char Js.is_space); Re.lit_i "S"; Re.plus Re.digit;
          Re.lit_i "E"; Re.plus Re.digit; Re.star Re.dot; Re.Eol].

Module Hook.

Record params := mkParams {
  p_playlistId : string;
  p_searchQuery : string;
  p_selectedGroup : string;
  p_contentFilter : string
}.

Global Instance params_eq_dec : EqDecision params.
Proof. solve_decision. Defined.

(** What the hook reads from the application store, and its option. *)
Record env := mkEnv {
  activePlaylist : option Playlist;
  searchQuery : string;
  selectedGroup : option string;
  contentFilter : ContentFilter;
  pageSize : nat
}.

(** The React state and the refs of one mounted hook. *)
Record state := mkState {
  channels : list Channel;
  loading : bool;
  hasMore : bool;
  totalCount : nat;
  pageRef : nat;
  latestParamsRef : params;
  loadingRef : bool;
  sortedChannelsRef : list Channel;
  channelsFetchedRef : bool
}.

Definition init : state :=
  mkState [] false true 0 0
    (mkParams EmptyString EmptyString EmptyString EmptyString)
    false [] false.

Definition FETCH_LIMIT : nat := 50000.

Section Collation.
(** [a.localeCompare(b, 'pt-BR', { sensitivity: 'base' })], by its
    sign. *)
Variable localeCompare : string -> string -> comparison.




Definition seriesKey (channel : Channel) : string :=
  Js.or_str (Js.or_ostr (Channel.seriesId channel) (Channel.seriesName channel))
    (Channel.name channel).

Definition representative (channel : Channel) : Channel :=
  let seriesName :=
    Js.or_str (Channel.seriesName channel)
      (Js.trim (Re.replace_first re_episode_suffix EmptyString
                  (Channel.name channel))) in
  {| Channel.id := Channel.id channel;
     Channel.name := seriesName;
     Channel.url := Channel.url channel;
     Channel.originalUrl := Channel.originalUrl channel;
     Channel.logo := Channel.logo channel;
     Channel.group := Channel.group channel;
     Channel.tvgId := Channel.tvgId channel;
     Channel.tvgName := Channel.tvgName channel;
     Channel.isFavorite := Channel.isFavorite channel;
     Channel.contentType := Channel.contentType channel;
     Channel.year := Channel.year channel;
     Channel.rating := Channel.rating channel;
     Channel.duration := Channel.duration channel;
     Channel.plot := Channel.plot channel;
     Channel.seriesId := Some (seriesKey channel);
     Channel.seriesName := Some seriesName;
     Channel.seasonNum := Channel.seasonNum channel;
     Channel.episodeNum := Channel.episodeNum channel |}.





Definition nonempty (s : string) : option string :=
  if String.eqb s EmptyString then None else Some s.

(** The arguments of the one [getChannels] call of [loadMore]. *)
Definition query_of (pl : Playlist) (e : env) : DB.Query.t :=
  let favorites :=
    match selectedGroup e with
    | Some g => String.eqb g "favorites"
    | None => false
    end in
  {| DB.Query.playlistId := Playlist.id pl;
     DB.Query.searchQuery := nonempty (searchQuery e);
     DB.Query.group :=
       if favorites then None
       else match selectedGroup e with
            | Some g => nonempty g
            | None => None
            end;
     DB.Query.isFavorite := if favorites then Some true else None;
     DB.Query.contentType :=
       match contentFilter e with
       | FilterType series => Some "series"
       | FilterAll => None
       | FilterType t => Some (ContentType_str t)
       end;
     DB.Query.limit := Some FETCH_LIMIT;
     DB.Query.offset := Some 0%nat |}.







End Collation.
End Hook.

(** ** Application state (store/useStore.ts) *)

Module App.
Record state := mkState {
  playlists : list Playlist;
  activePlaylistId : option string
}.

Definition playlist_of_meta (p : Meta.t) : Playlist :=
  Playlist.mk (Meta.id p) (Meta.name p) (Meta.type p) (Meta.url p)
    (Meta.xtreamUrl p) (Meta.xtreamUser p) (Meta.xtreamPass p)
    [] (Meta.lastUpdated p).

(** [refreshPlaylists]; [read] is what [getDBPlaylists()] settles to.
    A failed read is logged and changes nothing. *)
Definition refreshPlaylists (read : Exc (list Meta.t)) (st : state) : state :=
  match read with
  | Ok dbPlaylists =>
      let playlists := playlist_of_meta <$> dbPlaylists in
      mkState playlists
        (match playlists with
         | p :: _ => Some (Playlist.id p)
         | [] => None
         end)
  | Throw _ => st
  end.

(** [addPlaylist], with the identifier and the time it draws. *)
Definition addPlaylist (id : string) (now : Z) (playlist : Playlist)
    (st : state) : state :=
  mkState
    (playlists st ++
       [Playlist.mk id (Playlist.name playlist) (Playlist.type playlist)
          (Playlist.url playlist) (Playlist.xtreamUrl playlist)
          (Playlist.xtreamUser playlist) (Playlist.xtreamPass playlist)
          (Playlist.channels playlist) now])
    (if Js.str_truthy (activePlaylistId st) then activePlaylistId st
     else Some id).

Definition updatePlaylistChannels (id : string) (channels : list Channel)
    (now : Z) (st : state) : state :=
  mkState
    ((fun p => if String.eqb (Playlist.id p) id
               then Playlist.set_channels channels now p else p)
       <$> playlists st)
    (activePlaylistId st).

(** [playlists.find(p => p.id === id)] *)
Definition find_playlist (id : string) (st : state) : option Playlist :=
  find (fun p => String.eqb (Playlist.id p) id) (playlists st).

(** [removePlaylist]; the new active id is read from the list as it is
    before the removal. *)
Definition removePlaylist (id : string) (st : state) : state :=
  mkState
    (List.filter (fun p => negb (String.eqb (Playlist.id p) id))
       (playlists st))
    (if bool_decide (activePlaylistId st = Some id) then
       match playlists st with
       | p :: _ =>
           if String.eqb (Playlist.id p) EmptyString then None
           else Some (Playlist.id p)
       | [] => None
       end
     else activePlaylistId st).

Definition setActivePlaylist (id : option string) (st : state) : state :=
  mkState (playlists st) id.

(** [toggleFavorite], on the playlists held in memory. *)
Definition toggleFavorite (playlistId channelId : string) (st : state)
    : state :=
  mkState
    ((fun p =>
        if String.eqb (Playlist.id p) playlistId then
          Playlist.set_channels
            ((fun c => if String.eqb (Channel.id c) channelId
                       then Channel.flip_isFavorite c else c)
               <$> Playlist.channels p)
            (Playlist.lastUpdated p) p
        else p)
       <$> playlists st)
    (activePlaylistId st).
End App.

(** ** Playback history (store/useStore.ts) *)

Module HistoryItem.
Record t := mk {
  channelId : string;
  channelName : string;
  playlistId : string;
  timestamp : Z;
  logo : option string
}.
End HistoryItem.
Abbreviation HistoryItem := HistoryItem.t.

Module Playback.
Record state := mkState {
  currentChannel : option Channel;
  history : list HistoryItem
}.

Definition init : state := mkState None [].

(** [addToHistory(item)], with the time it reads. *)
Definition addToHistory (now : Z) (channelId channelName playlistId : string)
    (logo : option string) (st : state) : state :=
  let filtered :=
    List.filter (fun h => negb (String.eqb (HistoryItem.channelId h) channelId))
      (history st) in
  mkState (currentChannel st)
    (take 50 (HistoryItem.mk channelId channelName playlistId now logo
                :: filtered)).

(** [setCurrentChannel(channel)]; [activePlaylistId] is the one of the
    application store. *)
Definition setCurrentChannel (now : Z) (activePlaylistId : option string)
    (channel : option Channel) (st : state) : state :=
  let st := mkState channel (history st) in
  match channel with
  | Some c =>
      addToHistory now (Channel.id c) (Channel.name c)
        (Js.or_str activePlaylistId EmptyString) (Channel.logo c) st
  | None => st
  end.

Definition clearHistory (st : state) : state := mkState (currentChannel st) [].
End Playback.

(** ** Favorites-preserving merge (components/ImportModal.tsx) *)

Inductive ImportOption := ImportAll | ImportLive | ImportLiveMovies | ImportLiveSeries.

Definition filterChannelsByOption (importOption : ImportOption)
    (channels : list Channel) : list Channel :=
  match importOption with
  | ImportLive =>
      List.filter (fun c => ContentType_eqb (Channel.contentType c) live) channels
  | ImportLiveMovies =>
      List.filter (fun c => ContentType_eqb (Channel.contentType c) live
                            || ContentType_eqb (Channel.contentType c) movie)
        channels
  | ImportLiveSeries =>
      List.filter (fun c => ContentType_eqb (Channel.contentType c) live
                            || ContentType_eqb (Channel.contentType c) series)
        channels
  | ImportAll => channels
  end.

Definition is_favorite (c : Channel) : bool :=
  match Channel.isFavorite c with
  | Some b => b
  | None => false
  end.

(** [new Set(existing.filter(c => c.isFavorite).map(c => c.url))] *)
Definition favoriteChannelIds (existing : list Channel) : gset string :=
  list_to_set (Channel.url <$> List.filter is_favorite existing).

Definition set_isFavorite (b : bool) (c : Channel) : Channel :=
  {| Channel.id := Channel.id c;
     Channel.name := Channel.name c;
     Channel.url := Channel.url c;
     Channel.originalUrl := Channel.originalUrl c;
     Channel.logo := Channel.logo c;
     Channel.group := Channel.group c;
     Channel.tvgId := Channel.tvgId c;
     Channel.tvgName := Channel.tvgName c;
     Channel.isFavorite := Some b;
     Channel.contentType := Channel.contentType c;
     Channel.year := Channel.year c;
     Channel.rating := Channel.rating c;
     Channel.duration := Channel.duration c;
     Channel.plot := Channel.plot c;
     Channel.seriesId := Channel.seriesId c;
     Channel.seriesName := Channel.seriesName c;
     Channel.seasonNum := Channel.seasonNum c;
     Channel.episodeNum := Channel.episodeNum c |}.

(** [filteredChannels.map(channel => ({ ...channel,
      isFavorite: favoriteChannelIds.has(channel.url) }))] *)
Definition channelsWithFavorites (existing filteredChannels : list Channel)
    : list Channel :=
  let favoriteChannelIds := favoriteChannelIds existing in
  (fun channel =>
     set_isFavorite (bool_decide (Channel.url channel ∈ favoriteChannelIds))
       channel) <$> filteredChannels.

(** ** Dynamic values

    The authentication reply is read as untyped JSON.  Arrays do not occur
    among the fields the adapter reads and are left out. *)

Inductive JsVal :=
| JUndefined
| JNull
| JBool (b : bool)
| JNum (n : Js.num)
| JStr (s : string)
| JObj (fields : list (string * JsVal)).

Module Dyn.
(** [v.key] *)
Definition get (v : JsVal) (key : string) : Exc JsVal :=
  match v with
  | JUndefined | JNull =>
      Throw (TypeError ("Cannot read properties of null or undefined (reading '"
                          +:+ key +:+ "')"))
  | JObj fields =>
      Ok (match find (fun kv => String.eqb kv.1 key) fields with
          | Some kv => kv.2
          | None => JUndefined
          end)
  | _ => Ok JUndefined
  end.

Definition truthy (v : JsVal) : bool :=
  match v with
  | JUndefined | JNull => false
  | JBool b => b
  | JNum n => Js.num_truthy n
  | JStr s => negb (String.eqb s EmptyString)
  | JObj _ => true
  end.

(** [v === z] for an integer literal. *)
Definition is_int (v : JsVal) (z : Z) : bool :=
  match v with
  | JNum (Js.Int z') => z' =? z
  | _ => false
  end.

(** [v === s] for a string literal. *)
Definition is_str (v : JsVal) (s : string) : bool :=
  match v with
  | JStr s' => String.eqb s' s
  | _ => false
  end.

Definition num_str (n : Js.num) : string :=
  match n with
  | Js.NaN => "NaN"
  | Js.Int z => pretty z
  end.

(** [String(v)] *)
Definition toString (v : JsVal) : string :=
  match v with
  | JUndefined => "undefined"
  | JNull => "null"
  | JBool true => "true"
  | JBool false => "false"
  | JNum n => num_str n
  | JStr s => s
  | JObj _ => "[object Object]"
  end.

(** [Number(v)], for integer texts; an object counts as NaN. *)
Definition toNumber (v : JsVal) : Js.num :=
  match v with
  | JUndefined => Js.NaN
  | JNull => Js.Int 0
  | JBool b => Js.Int (if b then 1 else 0)
  | JNum n => n
  | JStr s =>
      let t := Js.trim s in
      if String.eqb t EmptyString then Js.Int 0
      else if forallb Js.is_digit
                (match list_ascii_of_string t with
                 | "-"%char :: d :: l => d :: l
                 | "+"%char :: d :: l => d :: l
                 | l => l
                 end)
           then Js.parseInt10 t
           else Js.NaN
  | JObj _ => Js.NaN
  end.

(** [a >= b]: two strings compare as strings, anything else as numbers. *)
Definition ge (a b : JsVal) : bool :=
  match a, b with
  | JStr x, JStr y => String.leb y x
  | _, _ =>
      match toNumber a, toNumber b with
      | Js.Int x, Js.Int y => y <=? x
      | _, _ => false
      end
  end.
End Dyn.

(** ** Xtream adapter (lib/m3uParser.ts) *)

Definition hex_digit (n : N) : ascii :=
  if (n <? 10)%N then ascii_of_N (48 + n) else ascii_of_N (55 + n).

Definition uri_unreserved (a : ascii) : bool :=
  Js.is_upper a || Js.is_lower a || Js.is_digit a
  || existsb (Ascii.eqb a) ["-"; "_"; "."; "!"; "~"; "*"; "'"; "("; ")"]%char.

Fixpoint encode_bytes (l : list ascii) : list ascii :=
  match l with
  | [] => []
  | a :: t =>
      if uri_unreserved a then a :: encode_bytes t
      else "%"%char :: hex_digit (Js.code a / 16) :: hex_digit (Js.code a mod 16)
             :: encode_bytes t
  end.

Definition encodeURIComponent (s : string) : string :=
  string_of_list_ascii (encode_bytes (list_ascii_of_string s)).

(** [process.env.NEXT_PUBLIC_STREAM_PROXY_URL || '/api/proxy/stream'] *)
Definition STREAM_PROXY_URL (env : option string) : string :=
  Js.or_str env "/api/proxy/stream".

(** [/\/$/] *)
Definition re_trailing_slash : Re.regex := Re.Cat (Re.lit "/") Re.Eol.

Module Xtream.

Record credentials := mkCredentials {
  url : string;
  username : string;
  password : string
}.

(** The arguments of one [fetchFromXtreamProxy] call. *)
Record request := mkRequest {
  r_url : string;
  r_username : string;
  r_password : string;
  r_action : option string;
  r_seriesId : option string
}.

Record category := mkCategory {
  category_id : string;
  category_name : string
}.

Record stream := mkStream {
  stream_id : Z;
  stream_name : string;
  stream_icon : string;
  stream_category_id : string
}.

Record vod := mkVod {
  vod_stream_id : Z;
  vod_name : string;
  vod_stream_icon : string;
  vod_category_id : string;
  vod_rating : option string;
  vod_plot : option string;
  vod_releaseDate : option string;
  vod_container_extension : option string
}.

Record show := mkShow {
  series_id : Z;
  show_name : string;
  cover : string;
  show_category_id : string;
  show_rating : option string;
  show_plot : option string
}.

(** What [fetchFromXtreamProxy] settles to, by the kind of request: the
    authentication document untyped, the lists as their interfaces
    declare them ([None] for a null reply). *)
Record server := mkServer {
  auth : request -> Exc JsVal;
  categories : request -> Exc (option (list category));
  live_streams : request -> Exc (option (list stream));
  vod_streams : request -> Exc (option (list vod));
  series_list : request -> Exc (option (list show))
}.

(** What the adapter does that the outside can see. *)
Inductive event :=
| Request (r : request)
| Progress (status : string).

(** A computation that logs its events and may throw. *)
Record M (A : Type) := mkM {
  log : list event;
  outcome : Exc A
}.
Arguments mkM {A} log outcome.
Arguments log {A} m.
Arguments outcome {A} m.

Global Instance M_ret : MRet M := fun A a => mkM [] (Ok a).

Global Instance M_bind : MBind M := fun A B f m =>
  match outcome m with
  | Ok a => mkM (log m ++ log (f a)) (outcome (f a))
  | Throw e => mkM (log m) (Throw e)
  end.

Definition throw {A : Type} (e : thrown) : M A := mkM [] (Throw e).

Definition lift {A : Type} (x : Exc A) : M A := mkM [] x.

(** [fetchFromXtreamProxy(...)], awaited. *)
Definition call {A : Type} (reply : request -> Exc A) (r : request) : M A :=
  mkM [Request r] (reply r).

Definition onProgress (status : string) : M unit :=
  mkM [Progress status] (Ok tt).

(** [await Promise.all([a, b])]: both requests are issued; the first
    rejection, in the order of the array, is the one thrown. *)
Definition all2 {A B : Type} (a : M A) (b : M B) : M (A * B) :=
  mkM (log a ++ log b)
    (match outcome a, outcome b with
     | Ok x, Ok y => Ok (x, y)
     | Throw e, _ => Throw e
     | Ok _, Throw e => Throw e
     end).

(** [try { m } catch (error) { h error }] *)
Definition catch {A : Type} (m : M A) (h : thrown -> M A) : M A :=
  match outcome m with
  | Ok a => m
  | Throw e => mkM (log m ++ log (h e)) (outcome (h e))
  end.

(** [new Map(pairs)]: a later pair replaces an earlier one. *)
Definition catMap (cats : option (list category)) : gmap string string :=
  foldl (fun m c => <[category_id c := category_name c]> m) ∅
    (default [] cats).

Definition group_of (m : gmap string string) (id fallback : string) : string :=
  Js.or_str (m !! id) fallback.

Section Adapter.
Variable srv : server.
Variable uuid : nat -> string.
Variable proxyEnv : option string.

Definition createStreamUrl (originalUrl : string) : string :=
  STREAM_PROXY_URL proxyEnv +:+ "?url=" +:+ encodeURIComponent originalUrl.

Definition liveChannel (baseUrl : string) (creds : credentials)
    (cats : gmap string string) (n : nat) (s : stream) : Channel :=
  let originalUrl :=
    baseUrl +:+ "/live/" +:+ username creds +:+ "/" +:+ password creds
      +:+ "/" +:+ pretty (stream_id s) +:+ ".m3u8" in
  {| Channel.id := uuid n;
     Channel.name := stream_name s;
     Channel.url := createStreamUrl originalUrl;
     Channel.originalUrl := Some originalUrl;
     Channel.logo := Some (stream_icon s);
     Channel.group := Some (group_of cats (stream_category_id s) "Live TV");
     Channel.tvgId := Some (pretty (stream_id s));
     Channel.tvgName := None;
     Channel.isFavorite := None;
     Channel.contentType := live;
     Channel.year := None;
     Channel.rating := None;
     Channel.duration := None;
     Channel.plot := None;
     Channel.seriesId := None;
     Channel.seriesName := None;
     Channel.seasonNum := None;
     Channel.episodeNum := None |}.

Definition vodChannel (baseUrl : string) (creds : credentials)
    (cats : gmap string string) (n : nat) (v : vod) : Channel :=
  let ext := Js.or_str (vod_container_extension v) "mp4" in
  let originalUrl :=
    baseUrl +:+ "/movie/" +:+ username creds +:+ "/" +:+ password creds
      +:+ "/" +:+ pretty (vod_stream_id v) +:+ "." +:+ ext in
  {| Channel.id := uuid n;
     Channel.name := vod_name v;
     Channel.url := createStreamUrl originalUrl;
     Channel.originalUrl := Some originalUrl;
     Channel.logo := Some (vod_stream_icon v);
     Channel.group := Some (group_of cats (vod_category_id v) "Movies");
     Channel.tvgId := Some (pretty (vod_stream_id v));
     Channel.tvgName := None;
     Channel.isFavorite := None;
     Channel.contentType := movie;
     Channel.year := Js.substring_to 4 <$> vod_releaseDate v;
     Channel.rating := vod_rating v;
     Channel.duration := None;
     Channel.plot := vod_plot v;
     Channel.seriesId := None;
     Channel.seriesName := None;
     Channel.seasonNum := None;
     Channel.episodeNum := None |}.

Definition showChannel (cats : gmap string string) (n : nat) (s : show)
    : Channel :=
  {| Channel.id := uuid n;
     Channel.name := show_name s;
     Channel.url := EmptyString;
     Channel.originalUrl := None;
     Channel.logo := Some (cover s);
     Channel.group := Some (group_of cats (show_category_id s) "Series");
     Channel.tvgId := Some (pretty (series_id s));
     Channel.tvgName := None;
     Channel.isFavorite := None;
     Channel.contentType := series;
     Channel.year := None;
     Channel.rating := show_rating s;
     Channel.duration := None;
     Channel.plot := show_plot s;
     Channel.seriesId := Some (pretty (series_id s));
     Channel.seriesName := None;
     Channel.seasonNum := None;
     Channel.episodeNum := None |}.

(** The checks on the authentication document. *)
Definition checkAccount (authData : JsVal) : Exc unit :=
  userInfo ← Dyn.get authData "user_info";
  _ ← (if Dyn.truthy userInfo then
         auth ← Dyn.get userInfo "auth";
         if Dyn.is_int auth 0 then
           Throw (Error "Authentication failed: Invalid username or password")
         else
           status ← Dyn.get userInfo "status";
           if Dyn.is_str status "Expired" then
             Throw (Error "Account expired. Please renew your subscription.")
           else if Dyn.is_str status "Banned" then
             Throw (Error "Account has been banned.")
           else if Dyn.is_str status "Disabled" then
             Throw (Error "Account is disabled.")
           else
             max_connections ← Dyn.get userInfo "max_connections";
             active_cons ← Dyn.get userInfo "active_cons";
             if Dyn.truthy max_connections
                && Dyn.ge active_cons max_connections then
               Throw (Error ("Max connections reached ("
                               +:+ Dyn.toString active_cons +:+ "/"
                               +:+ Dyn.toString max_connections
                               +:+ "). Close other streams and try again."))
             else Ok tt
       else Ok tt);
  error ← Dyn.get authData "error";
  message ← Dyn.get authData "message";
  if Dyn.truthy error || Dyn.truthy message then
    Throw (Error (Dyn.toString (if Dyn.truthy error then error else message)))
  else Ok tt.

(** The body of the [try]: the account check, then the three families. *)
Definition fetchFamilies (baseUrl : string) (creds : credentials)
    : M (list Channel) :=
  let req action :=
    mkRequest baseUrl (username creds) (password creds) action None in
  authData ← call (auth srv) (req None);
  _ ← lift (checkAccount authData);
  _ ← onProgress "Fetching live channels...";
  '(liveCategories, liveStreams) ←
    all2 (call (categories srv) (req (Some "get_live_categories")))
         (call (live_streams srv) (req (Some "get_live_streams")));
  let allChannels :=
    imap (liveChannel baseUrl creds (catMap liveCategories))
      (default [] liveStreams) in
  _ ← onProgress ("Found " +:+ pretty (length allChannels)
                    +:+ " live channels. Fetching movies...");
  '(vodCategories, vodStreams) ←
    all2 (call (categories srv) (req (Some "get_vod_categories")))
         (call (vod_streams srv) (req (Some "get_vod_streams")));
  let allChannels :=
    (allChannels ++
     imap (fun j => vodChannel baseUrl creds (catMap vodCategories)
                      (length allChannels + j))
       (default [] vodStreams))%list in
  _ ← onProgress ("Found " +:+ pretty (length allChannels)
                    +:+ " channels. Fetching series...");
  '(seriesCategories, seriesList) ←
    all2 (call (categories srv) (req (Some "get_series_categories")))
         (call (series_list srv) (req (Some "get_series")));
  mret (allChannels ++
        imap (fun j => showChannel (catMap seriesCategories)
                         (length allChannels + j))
          (default [] seriesList))%list.

(** The [catch] of [fetchXtreamChannels]. *)
Definition rethrow (error : thrown) : M (list Channel) :=
  match error with
  | ErrorObj name message =>
      if Js.includes message "quota" || String.eqb name "QuotaExceededError"
      then throw (Error "Browser storage is full. Try clearing site data or using a different browser.")
      else throw error
  | OtherThrown =>
      throw (Error "Failed to connect to Xtream server. Check URL and credentials.")
  end.

Definition fetchXtreamChannels (creds : credentials) : M (list Channel) :=
  let baseUrl := Re.replace_first re_trailing_slash EmptyString (url creds) in
  allChannels ← catch (fetchFamilies baseUrl creds) rethrow;
  if (length allChannels =? 0)%nat then
    throw (Error "No channels found. The account may have no active subscriptions.")
  else mret allChannels.
End Adapter.

(** [XtreamEpisode] and [XtreamSeriesInfo], as their interfaces declare
    them.  The seasons of [episodes] come in the order in which
    [Object.entries] lists the keys of the object. *)
Record episode_info := mkEpisodeInfo {
  info_plot : option string;
  info_duration : option string;
  info_rating : option string;
  info_releaseDate : option string
}.

Record episode := mkEpisode {
  ep_id : Z;
  ep_title : string;
  ep_container_extension : option string;
  ep_season : option Js.num;
  ep_episode_num : option Js.num;
  ep_info : option episode_info
}.

Record series_info := mkSeriesInfo {
  si_cover : string;
  si_plot : option string;
  si_rating : option string;
  si_releaseDate : option string;
  si_episodes : option (list (string * list episode))
}.

Section Episodes.
Variable uuid : nat -> string.
Variable proxyEnv : option string.
(** The reply to get_series_info; [None] for a null document. *)
Variable get_series_info : request -> Exc (option series_info).

(** The body of the inner loop: the channel pushed for one episode,
    [n] episodes having been pushed before. *)
Definition episodeChannel (baseUrl : string) (creds : credentials)
    (seriesId seriesName : string) (seriesInfo : series_info)
    (seasonNum : string) (n : nat) (ep : episode) : Channel :=
  let ext := Js.or_str (ep_container_extension ep) "mp4" in
  let episodeNum := Js.or_num (ep_episode_num ep) (Js.Int 0) in
  let season := Js.or_num (ep_season ep) (Js.parseInt10 seasonNum) in
  let title :=
    if negb (String.eqb (ep_title ep) EmptyString)
       && negb (String.eqb (ep_title ep) seriesName)
    then ep_title ep else seriesName in
  let originalUrl :=
    baseUrl +:+ "/series/" +:+ username creds +:+ "/" +:+ password creds
      +:+ "/" +:+ pretty (ep_id ep) +:+ "." +:+ ext in
  let info (field : episode_info -> option string) : option string :=
    match ep_info ep with
    | Some i => field i
    | None => None
    end in
  {| Channel.id := uuid n;
     Channel.name := title;
     Channel.url := createStreamUrl proxyEnv originalUrl;
     Channel.originalUrl := Some originalUrl;
     Channel.logo := Some (si_cover seriesInfo);
     Channel.group :=
       Some (seriesName +:+ " - Season " +:+ Dyn.num_str season);
     Channel.tvgId := Some (pretty (ep_id ep));
     Channel.tvgName := None;
     Channel.isFavorite := None;
     Channel.contentType := series;
     Channel.year :=
       Js.or_ostr (Js.substring_to 4 <$> info info_releaseDate)
         (Js.substring_to 4 <$> si_releaseDate seriesInfo);
     Channel.rating := Js.or_ostr (info info_rating) (si_rating seriesInfo);
     Channel.duration := info info_duration;
     Channel.plot := Js.or_ostr (info info_plot) (si_plot seriesInfo);
     Channel.seriesId := Some seriesId;
     Channel.seriesName := None;
     Channel.seasonNum := Some season;
     Channel.episodeNum := Some episodeNum |}.

(** The two nested loops over the seasons and their episodes. *)
Definition seasonsChannels (baseUrl : string) (creds : credentials)
    (seriesId seriesName : string) (seriesInfo : series_info)
    : list Channel :=
  foldl (fun episodes '(seasonNum, seasonEpisodes) =>
           foldl (fun episodes ep =>
                    episodes ++
                    [episodeChannel baseUrl creds seriesId seriesName
                       seriesInfo seasonNum (length episodes) ep])%list
             episodes seasonEpisodes)
    [] (default [] (si_episodes seriesInfo)).

Definition fetchXtreamSeriesEpisodes (creds : credentials)
    (seriesId seriesName : string) : M (list Channel) :=
  let baseUrl := Re.replace_first re_trailing_slash EmptyString (url creds) in
  catch
    (_ ← onProgress ("Fetching episodes for " +:+ seriesName +:+ "...");
     reply ←
       call get_series_info
         (mkRequest baseUrl (username creds) (password creds)
            (Some "get_series_info") (Some seriesId));
     seriesInfo ← lift (deref reply);
     mret (seasonsChannels baseUrl creds seriesId seriesName seriesInfo))
    (fun error => throw error).
End Episodes.
End Xtream.

(** ** Import handlers (components/ImportModal.tsx) *)

Module ImportModal.

(** The persistent store and the in-memory store together. *)
Record world := mkWorld {
  db : DB.t;
  app : App.state
}.

(** What the modal shows when a handler returns. *)
Record outcome := mkOutcome {
  after : world;
  error : option string;
  success : bool;
  network : list Xtream.event
}.

Section Handlers.
Variable uuid : nat -> string.
(** [Date.now()], by the rank of the reading. *)
Variable clock : nat -> Z.
Variable importOption : ImportOption.
(** [playlistToUpdate] of the application store. *)
Variable playlistToUpdate : option string.

Definition existingPlaylist (w : world) : option Playlist :=
  match playlistToUpdate with
  | Some id => App.find_playlist id (app w)
  | None => None
  end.

Definition isUpdateMode : bool := Js.str_truthy playlistToUpdate.

(** From the first emptiness check to [refreshPlaylists], the part the
    M3U and the Xtream handler share.  [fresh] is the playlist of
    create mode, [drawn] the number of identifiers drawn so far. *)
Definition commit (emptyMessage : string) (fresh : Playlist)
    (channels : list Channel) (drawn : nat) (w : world) : Exc world :=
  if (length channels =? 0)%nat then Throw (Error emptyMessage)
  else
    let filteredChannels := filterChannelsByOption importOption channels in
    if (length filteredChannels =? 0)%nat then
      Throw (Error "No channels match the selected import option")
    else
      let w' :=
        match (if isUpdateMode then existingPlaylist w else None) with
        | Some existing =>
            let channelsWithFavorites :=
              channelsWithFavorites (Playlist.channels existing)
                filteredChannels in
            mkWorld
              (DB.savePlaylist
                 (Playlist.set_channels channelsWithFavorites (clock 0)
                    existing)
                 true (db w))
              (App.updatePlaylistChannels (Playlist.id existing)
                 channelsWithFavorites (clock 1) (app w))
        | None =>
            let playlist :=
              Playlist.mk (uuid drawn) (Playlist.name fresh)
                (Playlist.type fresh) (Playlist.url fresh)
                (Playlist.xtreamUrl fresh) (Playlist.xtreamUser fresh)
                (Playlist.xtreamPass fresh) filteredChannels (clock 0) in
            mkWorld
              (DB.savePlaylist playlist false (db w))
              (App.addPlaylist (uuid (S drawn)) (clock 1)
                 (Playlist.set_channels [] 0 playlist) (app w))
        end in
      Ok (mkWorld (db w')
            (App.refreshPlaylists (Ok (DB.getPlaylists (db w'))) (app w'))).

Definition xtreamErrorMessage (e : thrown) : string :=
  match e with
  | ErrorObj _ message =>
      if Js.includes message "Failed to fetch"
         || Js.includes message "NetworkError"
      then "Cannot connect to server. Check if the URL is correct and the server is online."
      else message
  | OtherThrown => "Failed to connect to Xtream server"
  end.

Definition handleImportXtream (srv : Xtream.server)
    (proxyEnv : option string)
    (playlistName xtreamUrl xtreamUser xtreamPass : string)
    (w : world) : outcome :=
  if String.eqb xtreamUrl EmptyString || String.eqb xtreamUser EmptyString
     || String.eqb xtreamPass EmptyString
  then mkOutcome w (Some "Please fill all fields") false []
  else
    let fetched :=
      Xtream.fetchXtreamChannels srv uuid proxyEnv
        (Xtream.mkCredentials xtreamUrl xtreamUser xtreamPass) in
    let saved :=
      channels ← Xtream.outcome fetched;
      commit "No channels found"
        (Playlist.mk EmptyString
           (Js.or_str (Some playlistName) "Xtream Playlist") xtream None
           (Some xtreamUrl) (Some xtreamUser) (Some xtreamPass) [] 0)
        channels (length channels) w in
    match saved with
    | Ok w' => mkOutcome w' None true (Xtream.log fetched)
    | Throw e =>
        mkOutcome w (Some (xtreamErrorMessage e)) false (Xtream.log fetched)
    end.


End Handlers.
End ImportModal.

(** ** Stream proxy (app/api/proxy/stream/route.ts, cloudflare-worker)

    The body of a fetched resource is its text: a manifest is taken to be
    valid UTF-8 without a byte order mark. *)

Module Proxy.

(** What [fetch(streamUrl)] resolves to. *)
Record fetched := mkFetched {
  ok : bool;
  status : nat;
  contentTypeHeader : option string;
  body : string
}.

(** What the route answers. *)
Record reply := mkReply {
  r_status : nat;
  r_headers : list (string * string);
  r_body : string
}.

(** [text.split('\n')] *)
Fixpoint split_lf_go (cur l : list ascii) : list string :=
  match l with
  | [] => [string_of_list_ascii (rev cur)]
  | a :: t =>
      if Ascii.eqb a LF
      then string_of_list_ascii (rev cur) :: split_lf_go [] t
      else split_lf_go (a :: cur) t
  end.

Definition split_lf (text : string) : list string :=
  split_lf_go [] (list_ascii_of_string text).

(** [lines.join('\n')] *)
Fixpoint join_lf (lines : list string) : string :=
  match lines with
  | [] => EmptyString
  | [l] => l
  | l :: rest => l +:+ String LF (join_lf rest)
  end.

(** [s.lastIndexOf('/')], [None] standing for -1. *)
Definition lastIndexOf_slash (s : string) : option nat :=
  let l := list_ascii_of_string s in
  match list_find (fun a => a = "/"%char) (rev l) with
  | Some (i, _) => Some (length l - 1 - i)%nat
  | None => None
  end.

Definition baseUrl_of (originalUrl : URL) : string :=
  URL.protocol originalUrl +:+ "//" +:+ URL.host originalUrl
    +:+ Js.substring_to (default 0%nat (lastIndexOf_slash (URL.pathname originalUrl)))
          (URL.pathname originalUrl).

(** The function mapped over the lines of a manifest; [endpoint] is the
    text put before the encoded URL. *)
Definition rewriteLine (endpoint : string) (originalUrl : URL) (line : string)
    : string :=
  let trimmed := Js.trim line in
  if String.eqb trimmed EmptyString || Js.startsWith trimmed "#" then line
  else if Js.startsWith trimmed "http://" || Js.startsWith trimmed "https://"
  then endpoint +:+ encodeURIComponent trimmed
  else if Js.includes trimmed ".m3u8" || Js.includes trimmed ".ts" then
    let absoluteUrl :=
      if Js.startsWith trimmed "/"
      then URL.protocol originalUrl +:+ "//" +:+ URL.host originalUrl +:+ trimmed
      else baseUrl_of originalUrl +:+ "/" +:+ trimmed in
    endpoint +:+ encodeURIComponent absoluteUrl
  else line.

Definition rewriteManifest (endpoint : string) (originalUrl : URL)
    (textContent : string) : string :=
  join_lf (rewriteLine endpoint originalUrl <$> split_lf textContent).

Definition cors : list (string * string) :=
  [("Access-Control-Allow-Origin", "*");
   ("Access-Control-Allow-Methods", "GET, OPTIONS");
   ("Cache-Control", "no-cache, no-store, must-revalidate")].

Section Route.
Variable newURL : string -> option URL.
Variable fetch : string -> Exc fetched.


(** The route handler that only relays the stream. *)
Definition GET_relay (url : option string) : reply :=
  match url with
  | None => mkReply 400 [] "Missing stream URL"
  | Some streamUrl =>
      if String.eqb streamUrl EmptyString
      then mkReply 400 [] "Missing stream URL"
      else
        match newURL streamUrl with
        | None => mkReply 500 [] "Failed to fetch stream"
        | Some _ =>
            match fetch streamUrl with
            | Throw _ => mkReply 500 [] "Failed to fetch stream"
            | Ok response =>
                if negb (ok response) then
                  mkReply (status response) []
                    ("Stream error: " +:+ pretty (status response))
                else
                  mkReply 200
                    (("Content-Type",
                      Js.or_str (contentTypeHeader response)
                        "application/octet-stream") :: cors)
                    (body response)
            end
        end
  end.

(** The Cloudflare worker, for a GET request. *)
Definition worker (url : option string) : reply :=
  match url with
  | None => mkReply 400 [] "Missing stream URL"
  | Some streamUrl =>
      if String.eqb streamUrl EmptyString
      then mkReply 400 [] "Missing stream URL"
      else
        match newURL streamUrl with
        | None => mkReply 500 [] "Error: Invalid URL"
        | Some originalUrl =>
            match fetch streamUrl with
            | Throw e =>
                mkReply 500 []
                  ("Error: " +:+ match e with
                                 | ErrorObj _ message => message
                                 | OtherThrown => "undefined"
                                 end)
            | Ok response =>
                if negb (ok response) then
                  mkReply (status response) []
                    ("Stream error: " +:+ pretty (status response))
                else
                  let contentType :=
                    Js.or_str (contentTypeHeader response)
                      "application/octet-stream" in
                  if Js.includes contentType "mpegurl"
                     || Js.includes contentType "m3u8"
                     || Js.includes streamUrl ".m3u8"
                  then
                    mkReply 200
                      [("Content-Type", "application/vnd.apple.mpegurl");
                       ("Access-Control-Allow-Origin", "*");
                       ("Cache-Control", "max-age=5")]
                      (rewriteManifest "?url=" originalUrl (body response))
                  else
                    mkReply 200
                      [("Content-Type", contentType);
                       ("Access-Control-Allow-Origin", "*");
                       ("Cache-Control", "max-age=3600, public")]
                      (body response)
            end
        end
  end.
End Route.
End Proxy.

(** ** Series drawer (components/SeriesDrawer.tsx) *)

(** [/s\d+e\d+/i] *)
Definition re_SE : Re.regex :=
  Re.cat [Re.lit_i "s"; Re.plus Re.digit; Re.lit_i "e"; Re.plus Re.digit].

Module Season.
Record t := mk {
  seasonNum : Js.num;
  episodes : list Channel
}.
End Season.
Abbreviation Season := Season.t.

Module SeriesDrawer.

(** The filter that picks the episodes of the series among the cached
    channels. *)
Definition isEpisodeOf (seriesId seriesName : string) (ep : Channel) : bool :=
  if String.eqb (Channel.url ep) EmptyString then false
  else
    match Channel.episodeNum ep with
    | None => false
    | Some _ =>
        if bool_decide (Channel.seriesId ep = Some seriesId) then true
        else if Js.str_truthy (Channel.seriesName ep)
                && String.eqb
                     (Js.toLowerCase (default EmptyString (Channel.seriesName ep)))
                     (Js.toLowerCase seriesName)
        then true
        else Js.includes (Js.toLowerCase (Channel.name ep))
               (Js.toLowerCase seriesName)
             && Re.test re_SE (Channel.name ep)
    end.

(** [ep.seasonNum || 1] *)
Definition season_of (ep : Channel) : Js.num :=
  Js.or_num (Channel.seasonNum ep) (Js.Int 1).

(** [ep.episodeNum || 0] *)
Definition episode_of (ep : Channel) : Js.num :=
  Js.or_num (Channel.episodeNum ep) (Js.Int 0).

(** The [Map] from season to episodes, in insertion order:
    [if (!m.has(season)) m.set(season, []); m.get(season).push(ep)]. *)
Fixpoint seasonMap_push (season : Js.num) (ep : Channel)
    (m : list (Js.num * list Channel)) : list (Js.num * list Channel) :=
  match m with
  | [] => [(season, [ep])]
  | (s, eps) :: rest =>
      if Js.num_eqb s season then (s, (eps ++ [ep])%list) :: rest
      else (s, eps) :: seasonMap_push season ep rest
  end.

Definition seasonMap (episodes : list Channel)
    : list (Js.num * list Channel) :=
  foldl (fun m ep => seasonMap_push (season_of ep) ep m) [] episodes.

(** The seasons [processEpisodes] hands to [setSeasons]. *)
Definition processEpisodes (episodes : list Channel) : list Season :=
  Js.sort (fun a b => Js.num_compare (Season.seasonNum a) (Season.seasonNum b))
    ((fun '(seasonNum, episodes) =>
        Season.mk seasonNum
          (Js.sort (fun a b => Js.num_compare (episode_of a) (episode_of b))
             episodes))
       <$> seasonMap episodes).

(** The state of the drawer, the store and the requests made, once the
    effect that opens the drawer has run. *)
Record opened := mkOpened {
  seasons : list Season;
  selectedSeason : option Js.num;
  store : DB.t;
  network : list Xtream.event
}.

(** [processEpisodes]: the seasons are set, and the first of them, when
    there is one, is selected. *)
Definition show (selected : option Js.num) (db : DB.t)
    (log : list Xtream.event) (episodes : list Channel) : opened :=
  let seasonArray := processEpisodes episodes in
  mkOpened seasonArray
    (match seasonArray with
     | first :: _ => Some (Season.seasonNum first)
     | [] => selected
     end)
    db log.

Section Effect.
Variable uuid : nat -> string.
Variable proxyEnv : option string.
Variable get_series_info : Xtream.request -> Exc (option Xtream.series_info).

(** [fetchEpisodes] of the effect, for an active playlist; [selected]
    is the season selected before. *)
Definition fetchEpisodes (activePlaylist : Playlist)
    (seriesId seriesName : string) (selected : option Js.num) (db : DB.t)
    : opened :=
  let cachedEpisodes :=
    DB.getChannels db
      (DB.Query.mk (Playlist.id activePlaylist) None None None
         (Some "series") None None) in
  let seriesEpisodes :=
    List.filter (isEpisodeOf seriesId seriesName) cachedEpisodes in
  if (0 <? length seriesEpisodes)%nat then show selected db [] seriesEpisodes
  else
    match Playlist.type activePlaylist, Playlist.xtreamUrl activePlaylist,
          Playlist.xtreamUser activePlaylist,
          Playlist.xtreamPass activePlaylist with
    | xtream, Some xtreamUrl, Some xtreamUser, Some xtreamPass =>
        if negb (String.eqb xtreamUrl EmptyString)
           && negb (String.eqb xtreamUser EmptyString)
           && negb (String.eqb xtreamPass EmptyString)
        then
          let fetched :=
            Xtream.fetchXtreamSeriesEpisodes uuid proxyEnv get_series_info
              (Xtream.mkCredentials xtreamUrl xtreamUser xtreamPass)
              seriesId seriesName in
          match Xtream.outcome fetched with
          | Ok fetchedEpisodes =>
              show selected
                (DB.saveChannels (Playlist.id activePlaylist)
                   fetchedEpisodes db)
                (Xtream.log fetched) fetchedEpisodes
          | Throw _ => mkOpened [] selected db (Xtream.log fetched)
          end
        else mkOpened [] selected db []
    | _, _, _, _ => mkOpened [] selected db []
    end.
End Effect.
End SeriesDrawer.

(** ** Category menu (hooks/useGroupsFromDB.ts) *)

(** [/ - Season \d+$/i] *)
Definition re_season_group : Re.regex :=
  Re.cat [Re.word_i " - Season "; Re.plus Re.digit; Re.Eol].

(** [/ - Temporada \d+$/i] *)
Definition re_temporada_group : Re.regex :=
  Re.cat [Re.word_i " - Temporada "; Re.plus Re.digit; Re.Eol].

Section Groups.
(** [a.localeCompare(b, 'pt-BR', { sensitivity: 'base' })], by its
    sign. *)
Variable localeCompare : string -> string -> comparison.

Definition filterAndSortGroups (groups : list string) : list string :=
  Js.sort localeCompare
    (List.filter
       (fun group =>
          if Re.test re_season_group group then false
          else if Re.test re_temporada_group group then false
          else if Re.test re_SE group then false
          else true)
       groups).

(** The groups the hook settles on; [read] is what [getGroups]
    resolves to. *)
Definition useGroupsFromDB (read : string -> option string -> Exc (list string))
    (activePlaylist : option Playlist) (contentFilter : ContentFilter)
    : list string :=
  match activePlaylist with
  | None => []
  | Some pl =>
      let contentType :=
        match contentFilter with
        | FilterAll => None
        | FilterType t => Some (ContentType_str t)
        end in
      match read (Playlist.id pl) contentType with
      | Ok fetchedGroups => filterAndSortGroups fetchedGroups
      | Throw _ => []
      end
  end.
End Groups.


(** ** Selectors on the playlists in memory (store/useStore.ts) *)

Module Selectors.

(** [playlists.find((p) => p.id === activeId) || null] *)
Definition useActivePlaylist (st : App.state) : option Playlist :=
  match App.activePlaylistId st with
  | Some activeId => App.find_playlist activeId st
  | None => None
  end.

Definition useFilteredChannels (playlist : option Playlist) (search : string)
    (group : option string) (contentFilter : ContentFilter) : list Channel :=
  match playlist with
  | None => []
  | Some playlist =>
      let channels := Playlist.channels playlist in
      let channels :=
        match contentFilter with
        | FilterAll => channels
        | FilterType t =>
            List.filter (fun c => ContentType_eqb (Channel.contentType c) t)
              channels
        end in
      let channels :=
        if negb (String.eqb search EmptyString) then
          let q := Js.toLowerCase search in
          List.filter
            (fun c => Js.includes (Js.toLowerCase (Channel.name c)) q)
            channels
        else channels in
      let channels :=
        match group with
        | Some g =>
            if negb (String.eqb g EmptyString) && negb (String.eqb g "all")
               && negb (String.eqb g "favorites")
            then List.filter (fun c => bool_decide (Channel.group c = Some g))
                   channels
            else channels
        | None => channels
        end in
      match group with
      | Some g =>
          if String.eqb g "favorites" then List.filter is_favorite channels
          else channels
      | None => channels
      end
  end.

Definition useChannelGroups (playlist : option Playlist)
    (contentFilter : ContentFilter) : list string :=
  match playlist with
  | None => []
  | Some playlist =>
      merge_sort String.le
        (DB.collect_groups
           (List.filter
              (fun c =>
                 match contentFilter with
                 | FilterAll => true
                 | FilterType t => ContentType_eqb (Channel.contentType c) t
                 end)
              (Playlist.channels playlist)))
  end.

Definition useContentCounts (playlist : option Playlist) : Counts.t :=
  match playlist with
  | None => Counts.mk 0 0 0
  | Some playlist =>
      foldl (fun counts c => DB.count c counts) (Counts.mk 0 0 0)
        (Playlist.channels playlist)
  end.
End Selectors.

(** * What the properties speak of

    Predicates and functions used to state the properties below, and the
    sample data on which the code is run. *)

Local Open Scope list_scope.

(** ** Matches of regular expressions *)

Module ReSpec.
Import Re.

(** Group [i] has a value among the captures [c]. *)
Definition has (i : nat) (c : caps) : Prop :=
  is_Some (find (fun p => (fst p =? i)%nat) c).

(** Group [i] lies on every path through [r]. *)
Fixpoint defines (i : nat) (r : regex) : bool :=
  match r with
  | Capture j r' => (i =? j)%nat || defines i r'
  | Cat r1 r2 => defines i r1 || defines i r2
  | Or r1 r2 => defines i r1 && defines i r2
  | _ => false
  end.

(** What a continuation-passing matcher owes: a success is a success
    of the continuation, reached with more captures. *)
Definition passes {R : Type}
    (m : list ascii -> caps -> (list ascii -> caps -> option R) -> option R)
    (must : nat -> bool) : Prop :=
  forall s c k x, m s c k = Some x ->
    exists s' c', k s' c' = Some x
      /\ (forall i, has i c -> has i c')
      /\ (forall i, must i = true -> has i c').

End ReSpec.

(** ** Parser *)


(** A line with which a record ends: not blank, no comment, a valid URL. *)
Definition url_line (newURL : string -> option URL) (line : string) : Prop :=
  Js.trim line <> EmptyString
  /\ Js.startsWith (Js.trim line) "#" = false
  /\ isValidUrl newURL (Js.trim line) = true.

(** ** Local store *)

(** The invariant of the object store 'channels': a record sits under
    its own id, the key path of the store. *)
Definition keyed_by_id (ch : gmap string Stored.t) : Prop :=
  forall k r, ch !! k = Some r -> Channel.id (Stored.channel r) = k.

(** The ids of the channel records stored for a playlist. *)
Definition stored_ids (db : DB.t) (pid : string) : gset string :=
  dom (filter (fun kr => Stored.playlistId kr.2 = pid) (DB.channels db)).

(** ** Xtream adapter *)

(** The authentication request of [fetchXtreamChannels]. *)
Definition authRequest (creds : Xtream.credentials) : Xtream.request :=
  Xtream.mkRequest
    (Re.replace_first re_trailing_slash EmptyString (Xtream.url creds))
    (Xtream.username creds) (Xtream.password creds) None None.

(** The reply carries [user_info.auth = 0]. *)
Definition auth_refused (authData : JsVal) : Prop :=
  exists userInfo,
    Dyn.get authData "user_info" = Ok userInfo
    /\ Dyn.get userInfo "auth" = Ok (JNum (Js.Int 0)).

(** The error of a refused account. *)
Definition auth_error : thrown :=
  Error "Authentication failed: Invalid username or password".

(** ** Manifests *)

(** The text holds no line feed. *)
Definition no_lf (s : string) : Prop :=
  Forall (fun a => a <> LF) (list_ascii_of_string s).




(** ** Query and pagination layer *)



(** ** Sample data *)

(** The EXTINF line [#EXTINF:-1 tvg-season=Q0Q tvg-episode=Q0Q,Show S02E05],
    Q being the double quote. *)
Definition season_zero_line : string :=
  "#EXTINF:-1 tvg-season=" +:+ Sample.q +:+ "0" +:+ Sample.q
    +:+ " tvg-episode=" +:+ Sample.q +:+ "0" +:+ Sample.q +:+ ",Show S02E05".

(** The EXTINF line
    [#EXTINF:-1 tvg-series-id=QQ tvg-serie=QlostQ group-title=QSeriesQ,Lost],
    Q being the double quote. *)
Definition empty_series_id_line : string :=
  "#EXTINF:-1 tvg-series-id=" +:+ Sample.q +:+ Sample.q
    +:+ " tvg-serie=" +:+ Sample.q +:+ "lost" +:+ Sample.q
    +:+ " group-title=" +:+ Sample.q +:+ "Series" +:+ Sample.q +:+ ",Lost".

(** The metadata of a playlist as the persistent store holds it. *)
Definition sample_meta : Meta.t :=
  Meta.mk "p1" "Home" m3u (Some "http://x/list.m3u") None None None 7 2.

(** A playlist the in-memory store holds after an update-mode import and
    before the refresh that follows it. *)
Definition updated_playlist : Playlist :=
  Playlist.mk "p1" "Home" m3u (Some "http://x/list.m3u") None None None
    [set_isFavorite true (Sample.item "c1" "CNN" "X" "News" live)] 7.

(** A server whose account check answers [user_info.auth = 0], and that
    would list one live channel if it were asked. *)
Definition refusing_server : Xtream.server :=
  Xtream.mkServer
    (fun _ => Ok (JObj [("user_info",
                         JObj [("username", JStr "u");
                               ("auth", JNum (Js.Int 0));
                               ("status", JStr "Active")])]))
    (fun _ => Ok (Some [Xtream.mkCategory "1" "News"]))
    (fun _ => Ok (Some [Xtream.mkStream 7 "CNN" "cnn.png" "1"]))
    (fun _ => Ok None)
    (fun _ => Ok None).

(** The same server once it accepts the account: the adapter asks for the
    six lists, in the order live, movies, series. *)
Definition accepting_server : Xtream.server :=
  Xtream.mkServer
    (fun _ => Ok (JObj [("user_info",
                         JObj [("auth", JNum (Js.Int 1));
                               ("status", JStr "Active");
                               ("max_connections", JStr "2");
                               ("active_cons", JStr "0")])]))
    (fun _ => Ok (Some [Xtream.mkCategory "1" "News"]))
    (fun _ => Ok (Some [Xtream.mkStream 7 "CNN" "cnn.png" "1"]))
    (fun _ => Ok (Some [Xtream.mkVod 9 "Heat" "heat.png" "5" None None
                          (Some "1995-12-15") None]))
    (fun _ => Ok None).



(** A playlist of three live channels. *)
Definition sample_playlist : Playlist :=
  Playlist.mk "p" "Home" m3u None None None None
    [Sample.item "k1" "beta" "http://x/1" "News" live;
     Sample.item "k2" "Alpha" "http://x/2" "News" live;
     Sample.item "k3" "Gamma" "http://x/3" "News" live] 5.

(** The store after that playlist has been saved. *)
Definition sample_db : DB.t := DB.savePlaylist sample_playlist true DB.empty.






(** ** More of the local store *)

Global Instance ContentType_eq_dec : EqDecision ContentType.
Proof. solve_decision. Defined.

(** The query for all channels of a playlist, without filter. *)
Definition all_of (pid : string) : DB.Query.t :=
  DB.Query.mk pid None None None None None None.

(** The query behind a content-type tab. *)
Definition of_tab (pid : string) (t : ContentType) : DB.Query.t :=
  DB.Query.mk pid None None None (Some (ContentType_str t)) None None.

(** The query behind the favorites entry of the category menu. *)
Definition favorites_of (pid : string) : DB.Query.t :=
  DB.Query.mk pid None None (Some true) None None None.

(** A query restricted to the window of [limit] items at [offset]. *)
Definition window (offset limit : nat) (o : DB.Query.t) : DB.Query.t :=
  DB.Query.mk (DB.Query.playlistId o) (DB.Query.searchQuery o)
    (DB.Query.group o) (DB.Query.isFavorite o) (DB.Query.contentType o)
    (Some offset) (Some limit).

(** The invariant of the object store 'playlists': a record sits under
    its own id. *)
Definition metas_keyed_by_id (ps : gmap string Meta.t) : Prop :=
  forall k p, ps !! k = Some p -> Meta.id p = k.

(** ** Playback history *)

(** One call of [setCurrentChannel]: the time, the active playlist and
    the channel, [None] for [null]. *)
Definition play : Type := Z * option string * option Channel.

(** The playback state after a sequence of calls. *)
Definition played (plays : list play) : Playback.state :=
  foldl (fun st '(now, active, channel) =>
           Playback.setCurrentChannel now active channel st)
    Playback.init plays.

(** ** Series episodes *)

(** The one request of [fetchXtreamSeriesEpisodes]. *)
Definition seriesInfoRequest (creds : Xtream.credentials) (seriesId : string)
    : Xtream.request :=
  Xtream.mkRequest
    (Re.replace_first re_trailing_slash EmptyString (Xtream.url creds))
    (Xtream.username creds) (Xtream.password creds)
    (Some "get_series_info") (Some seriesId).

(** The episodes of a reply, each with the key of its season, in the
    order of the reply. *)
Definition listed_episodes (seriesInfo : Xtream.series_info)
    : list (string * Xtream.episode) :=
  concat ((fun season : string * list Xtream.episode =>
             (fun ep => (season.1, ep)) <$> season.2)
            <$> default [] (Xtream.si_episodes seriesInfo)).

Global Instance num_eq_dec : EqDecision Js.num.
Proof. solve_decision. Defined.

(** Order on numbers; NaN is not comparable. *)
Definition num_lt (a b : Js.num) : Prop :=
  match a, b with
  | Js.Int x, Js.Int y => x < y
  | _, _ => False
  end.

Definition num_le (a b : Js.num) : Prop :=
  match a, b with
  | Js.Int x, Js.Int y => x <= y
  | _, _ => False
  end.

(** ** Series drawer *)

(** What the map from season to episodes holds once the episodes
    [episodes] have been pushed: a season once, every episode in the
    list of its season, no list empty. *)
Definition seasonMap_holds (m : list (Js.num * list Channel))
    (episodes : list Channel) : Prop :=
  NoDup m.*1
  /\ concat m.*2 ≡ₚ episodes
  /\ Forall (fun kl =>
               kl.2 <> []
               /\ Forall (fun ep => SeriesDrawer.season_of ep = kl.1) kl.2
               /\ exists z, kl.1 = Js.Int z)
       m.

(** The integer a number stands for, zero for NaN. *)
Definition num_z (n : Js.num) : Z :=
  match n with
  | Js.Int z => z
  | Js.NaN => 0
  end.

(** The cached channels the drawer takes for episodes of the series. *)
Definition cached_episodes (db : DB.t) (pl : Playlist)
    (seriesId seriesName : string) : list Channel :=
  List.filter (SeriesDrawer.isEpisodeOf seriesId seriesName)
    (DB.getChannels db (of_tab (Playlist.id pl) series)).

(** ** More of the parser *)



(** ** Percent-encoding *)

(** The value of a hexadecimal digit as [encodeURIComponent] writes it. *)
Definition hex_val (a : ascii) : N :=
  if Js.is_digit a then Js.code a - 48 else Js.code a - 55.

(** ** More sample data *)



(** ** Imports *)




(** ** Account states *)

(** The reply describes an account that is known to the server
    ([user_info.auth] is not the number 0) and is in the state
    [status]. *)
Definition account_state (authData : JsVal) (status : string) : Prop :=
  exists userInfo auth,
    Dyn.get authData "user_info" = Ok userInfo
    /\ Dyn.truthy userInfo = true
    /\ Dyn.get userInfo "auth" = Ok auth
    /\ Dyn.is_int auth 0 = false
    /\ Dyn.get userInfo "status" = Ok (JStr status).

(** The message for a state in which the account cannot be used. *)
Definition state_message (status : string) : option string :=
  if String.eqb status "Expired"
  then Some "Account expired. Please renew your subscription."
  else if String.eqb status "Banned" then Some "Account has been banned."
  else if String.eqb status "Disabled" then Some "Account is disabled."
  else None.

(** A server on which the account has expired, and that would list one
    live channel if it were asked. *)
Definition expired_server : Xtream.server :=
  Xtream.mkServer
    (fun _ => Ok (JObj [("user_info",
                         JObj [("auth", JNum (Js.Int 1));
                               ("status", JStr "Expired")])]))
    (fun _ => Ok (Some [Xtream.mkCategory "1" "News"]))
    (fun _ => Ok (Some [Xtream.mkStream 7 "CNN" "cnn.png" "1"]))
    (fun _ => Ok None)
    (fun _ => Ok None).

(** ** Filters of a query *)

(** The channel passes the filters of the query: a content type, a group
    and a search text count only when they are given and not empty, the
    words "all" for a type or a group standing for no filter; the
    favorite flag, when asked for, must be present and equal. *)
Definition passes_filters (o : DB.Query.t) (c : Channel) : Prop :=
  match DB.Query.contentType o with
  | Some ct =>
      ct = EmptyString \/ ct = "all"
      \/ ContentType_str (Channel.contentType c) = ct
  | None => True
  end
  /\ match DB.Query.group o with
     | Some g => g = EmptyString \/ g = "all" \/ Channel.group c = Some g
     | None => True
     end
  /\ match DB.Query.isFavorite o with
     | Some b => Channel.isFavorite c = Some b
     | None => True
     end
  /\ match DB.Query.searchQuery o with
     | Some sq =>
         sq = EmptyString
         \/ Js.includes (Js.toLowerCase (Channel.name c)) (Js.toLowerCase sq)
            = true
     | None => True
     end.

(** ** Line ends *)

(** The lines joined with carriage return and line feed. *)
Fixpoint join_crlf (lines : list string) : string :=
  match lines with
  | [] => EmptyString
  | [l] => l
  | l :: rest => l +:+ String CR (String LF (join_crlf rest))
  end.

(** Two lines that the parser cannot tell apart. *)
Definition same_trim (a b : string) : Prop := Js.trim a = Js.trim b.

(** The lines with a carriage return at the end of each but the last:
    what is found between the line feeds of [join_crlf]. *)
Fixpoint add_cr (lines : list string) : list string :=
  match lines with
  | [] => []
  | [l] => [l]
  | l :: rest => (l +:+ String CR EmptyString) :: add_cr rest
  end.

(** ** Selectors *)

(** The content type the hooks hand to the store for a filter. *)
Definition type_of_filter (f : ContentFilter) : option string :=
  match f with
  | FilterAll => None
  | FilterType t => Some (ContentType_str t)
  end.

(** * Properties *)


(** ** Regular expressions: what a successful match went through *)

Module ReFacts.
Import Re.
Import ReSpec.

Lemma has_cons i j l c : has i c -> has i ((j, l) :: c).
Proof.
  unfold has. simpl. intros H. destruct (j =? i)%nat; [by eexists | done].
Qed.

Lemma has_here i l c : has i ((i, l) :: c).
Proof. unfold has. simpl. rewrite Nat.eqb_refl. by eexists. Qed.

Section Sound.
Context {R : Type}.

Lemma repeat_loop_passes body g lo hi k fuel :
  passes (R:=R) body (fun _ => false) ->
  forall cnt s c x,
    repeat_loop body g lo hi k fuel cnt s c = Some x ->
    exists s' c', k s' c' = Some x /\ (forall i, has i c -> has i c').
Proof.
  intros Hbody. induction fuel as [|fuel IH]; intros cnt s c x.
  - simpl. destruct g.
    + destruct (lo <=? cnt)%nat; [|done]. intros Hk. by exists s, c.
    + destruct (lo <=? cnt)%nat; [|done].
      destruct (k s c) eqn:Hk; [|done]. intros [= <-]. by exists s, c.
  - simpl.
    assert (Hmore : forall y,
      (if below hi cnt
       then body s c (fun s' c' =>
              if (length s' <? length s)%nat || (cnt <? lo)%nat
              then repeat_loop body g lo hi k fuel (S cnt) s' c'
              else None)
       else None) = Some y ->
      exists s' c', k s' c' = Some y /\ (forall i, has i c -> has i c')).
    { intros y. destruct (below hi cnt); [|done]. intros Hb.
      apply Hbody in Hb as (s1 & c1 & Hb & Hmono & _).
      destruct ((length s1 <? length s)%nat || (cnt <? lo)%nat); [|done].
      apply IH in Hb as (s2 & c2 & Hk & Hmono2).
      exists s2, c2. split; [done|]. intros i Hi. by apply Hmono2, Hmono. }
    assert (Hstop : forall y,
      (if (lo <=? cnt)%nat then k s c else None) = Some y ->
      exists s' c', k s' c' = Some y /\ (forall i, has i c -> has i c')).
    { intros y. destruct (lo <=? cnt)%nat; [|done]. intros Hk.
      by exists s, c. }
    destruct g.
    + destruct (if below hi cnt then _ else None) as [y|] eqn:Hm.
      * intros [= <-]. by apply Hmore.
      * apply Hstop.
    + destruct (if (lo <=? cnt)%nat then _ else None) as [y|] eqn:Hs.
      * intros [= <-]. by apply Hstop.
      * apply Hmore.
Qed.

Lemma rmatch_passes r n :
  passes (fun s c k => rmatch (R:=R) r n s c k) (fun i => defines i r).
Proof.
  induction r as [|p|r1 IH1 r2 IH2|r1 IH1 r2 IH2|g lo hi r IH|j r IH| |];
    intros s c k x; simpl.
  - intros Hk. exists s, c. by repeat split.
  - destruct s as [|a s]; [done|]. destruct (p a); [|done].
    intros Hk. exists s, c. by repeat split.
  - intros H. apply IH1 in H as (s1 & c1 & H & Hm1 & Hd1).
    apply IH2 in H as (s2 & c2 & H & Hm2 & Hd2).
    exists s2, c2. split; [done|]. split.
    + intros i Hi. by apply Hm2, Hm1.
    + intros i [Hi|Hi]%orb_true_iff; [by apply Hm2, Hd1 | by apply Hd2].
  - destruct (rmatch r1 n s c k) as [y|] eqn:H1.
    + intros [= <-]. apply IH1 in H1 as (s1 & c1 & H & Hm1 & Hd1).
      exists s1, c1. split; [done|]. split; [done|].
      intros i [Hi _]%andb_true_iff. by apply Hd1.
    + intros H. apply IH2 in H as (s2 & c2 & H & Hm2 & Hd2).
      exists s2, c2. split; [done|]. split; [done|].
      intros i [_ Hi]%andb_true_iff. by apply Hd2.
  - intros H. eapply repeat_loop_passes in H as (s1 & c1 & H & Hm).
    + exists s1, c1. by repeat split.
    + intros s0 c0 k0 x0 H0. apply IH in H0 as (s1 & c1 & H0 & Hm & _).
      exists s1, c1. by repeat split.
  - intros H. apply IH in H as (s1 & c1 & H & Hm & Hd).
    eexists _, _. split; [exact H|]. split.
    + intros i Hi. by apply has_cons, Hm.
    + intros i [Hi|Hi]%orb_true_iff.
      * apply Nat.eqb_eq in Hi as ->. apply has_here.
      * by apply has_cons, Hd.
  - destruct (length s =? n)%nat; [|done].
    intros Hk. exists s, c. by repeat split.
  - destruct s; [|done]. intros Hk. exists [], c. by repeat split.
Qed.
End Sound.

Lemma search_defines r n s m i :
  search r n s = Some m -> defines i r = true -> has i (captures m).
Proof.
  intros Hs Hd. induction s as [|a s IH]; simpl in Hs.
  - destruct (match_at r n []) as [m'|] eqn:Hm; [|done].
    injection Hs as ->. unfold match_at in Hm.
    apply rmatch_passes in Hm as (s' & c' & [= <-] & _ & Hc). by apply Hc.
  - destruct (match_at r n (a :: s)) as [m'|] eqn:Hm; [|by apply IH].
    injection Hs as ->. unfold match_at in Hm.
    apply rmatch_passes in Hm as (s' & c' & [= <-] & _ & Hc). by apply Hc.
Qed.

(** A group that lies on every path of the pattern is defined in every
    match: reading it never yields [undefined]. *)
Lemma group_defined r s m i :
  exec r s = Some m -> defines i r = true -> is_Some (group m i).
Proof.
  unfold exec, group. intros Hs Hd.
  destruct (search_defines _ _ _ _ i Hs Hd) as [[j l] ->]. by eexists.
Qed.
End ReFacts.

(** ** The M3U parser never throws *)

Lemma parseExtInf_total (line : string) : exists c, parseExtInf line = Ok c.
Proof.
  unfold parseExtInf. destruct (Re.exec re_name line) as [m|] eqn:Hm.
  - destruct (ReFacts.group_defined _ _ _ 1 Hm eq_refl) as [s Hs].
    rewrite Hs. simpl. by eexists.
  - simpl. by eexists.
Qed.

Lemma parseSeriesInfo_total (name : string) :
  exists i, parseSeriesInfo name = Ok i.
Proof.
  unfold parseSeriesInfo.
  destruct (match Re.exec re_SxxEyy_groups name with
            | Some m => Some m
            | None => Re.exec re_NxM_groups name
            end) as [m|]; [|by eexists].
  destruct (Re.exec re_seriesName name) as [sm|] eqn:Hs.
  - destruct (ReFacts.group_defined _ _ _ 1 Hs eq_refl) as [s ->].
    simpl. by eexists.
  - simpl. by eexists.
Qed.

Section ParserFacts.
Variable newURL : string -> option URL.
Variable extinf : string -> Exc PartialChannel.

Lemma emit_total uuid n cur trimmed :
  exists item, emit uuid n cur trimmed = Ok item
    /\ Channel.name item = Js.or_str (Partial.name cur) "Unknown Channel"
    /\ Channel.url item = trimmed.
Proof.
  unfold emit.
  destruct (ContentType_eqb _ series).
  - destruct (parseSeriesInfo_total (Js.or_str (Partial.name cur) "Unknown Channel"))
      as [i ->].
    simpl. by eexists.
  - simpl. by eexists.
Qed.

Lemma step_total uuid st line :
  exists st', step newURL uuid extinf st line = Ok st'.
Proof.
  unfold step. repeat case_match; try by eexists.
  match goal with
  | |- context [emit ?u ?n ?c ?t] =>
      destruct (emit_total u n c t) as (item & -> & _)
  end.
  simpl. by eexists.
Qed.

Lemma run_total uuid lines : forall st,
  exists st', run newURL uuid extinf st lines = Ok st'.
Proof.
  induction lines as [|line lines IH]; intros st; simpl.
  - by eexists.
  - destruct (step_total uuid st line) as [st' ->]. simpl. apply IH.
Qed.








End ParserFacts.

(** With [parseExtInf] for the EXTINF parser, no step adds an error. *)
Lemma step_no_error newURL uuid st line st' :
  step newURL uuid parseExtInf st line = Ok st' ->
  M3U.st_errors st' = M3U.st_errors st.
Proof.
  unfold step. intros H.
  destruct (parseExtInf_total (Js.trim line)) as [c Hc]. rewrite Hc in H.
  repeat case_match; simplify_eq/=; try done.
  destruct (emit _ _ _ _); by simplify_eq/=.
Qed.

Lemma run_no_error newURL uuid lines : forall st st',
  run newURL uuid parseExtInf st lines = Ok st' ->
  M3U.st_errors st' = M3U.st_errors st.
Proof.
  induction lines as [|line lines IH]; intros st st'; simpl.
  - by intros [= <-].
  - destruct (step newURL uuid parseExtInf st line) as [st1|e] eqn:Hs; [|done].
    simpl. intros H. apply IH in H. apply step_no_error in Hs. congruence.
Qed.

(** A line that is an EXTINF line is neither blank nor the header, and a
    line that does not start with a hash is no EXTINF, EXTGRP or
    EXTVLCOPT line. *)
Lemma startsWith_hash t p :
  Js.startsWith t (String "#" p) = true -> Js.startsWith t "#" = true.
Proof.
  unfold Js.startsWith. destruct t as [|a t]; [done|].
  cbn [String.prefix]. destruct (ascii_dec "#" a); [|done].
  intros _. by destruct t.
Qed.

Lemma extinf_line_not_blank t :
  Js.startsWith t "#EXTINF:" = true ->
  String.eqb t EmptyString || String.eqb t "#EXTM3U" = false.
Proof.
  intros H. apply orb_false_iff. split.
  - destruct (String.eqb_spec t EmptyString) as [->|]; [done|done].
  - destruct (String.eqb_spec t "#EXTM3U") as [->|]; [done|done].
Qed.

(** What the step does on a URL line when an entry is pending. *)
Lemma step_url_line newURL uuid extinf st c line :
  M3U.currentChannel st = Some c ->
  Js.trim line <> EmptyString ->
  Js.startsWith (Js.trim line) "#" = false ->
  isValidUrl newURL (Js.trim line) = true ->
  exists item,
    step newURL uuid extinf st line =
      Ok (M3U.mkState (M3U.st_channels st ++ [item]) (M3U.st_errors st) None
            (S (M3U.lineNumber st)))
    /\ emit uuid (length (M3U.st_channels st)) c (Js.trim line) = Ok item.
Proof.
  intros Hc Hne Hhash Hurl. unfold step.
  destruct (String.eqb_spec (Js.trim line) EmptyString) as [|_]; [done|].
  destruct (String.eqb_spec (Js.trim line) "#EXTM3U") as [E|_].
  { rewrite E in Hhash. done. }
  simpl.
  destruct (Js.startsWith (Js.trim line) "#EXTINF:") eqn:E1.
  { apply startsWith_hash in E1. congruence. }
  destruct (Js.startsWith (Js.trim line) "#EXTVLCOPT:") eqn:E2.
  { apply startsWith_hash in E2. congruence. }
  destruct (Js.startsWith (Js.trim line) "#EXTGRP:") eqn:E3.
  { apply startsWith_hash in E3. congruence. }
  simpl. rewrite Hhash, Hc, Hurl. simpl.
  destruct (emit_total uuid (length (M3U.st_channels st)) c (Js.trim line))
    as (item & E & _).
  rewrite E. simpl. by exists item.
Qed.

(** ** C9 *)

(** C9. For every input text [parseM3U] returns, and its error list is
    empty: [parseExtInf] returns for every line, so the catch branch that
    records a failed EXTINF line is never taken.  An EXTINF line from
    which no name is extracted, followed by a valid URL line, yields one
    item named "Unknown Channel". *)
Theorem C9_error_list_always_empty
    (newURL : string -> option URL) (uuid : nat -> string) :
  (forall content, exists r,
      parseM3U newURL uuid content = Ok r /\ M3U.errors r = [])
  /\ (forall line, exists c, parseExtInf line = Ok c)
  /\ (forall info url c,
        Js.startsWith (Js.trim info) "#EXTINF:" = true ->
        parseExtInf (Js.trim info) = Ok c ->
        Partial.name c = None ->
        url_line newURL url ->
        exists item,
          parseLines newURL uuid parseExtInf [info; url]
            = Ok (M3U.mkResult [item] [])
          /\ Channel.name item = "Unknown Channel"
          /\ Channel.url item = Js.trim url).
Proof.
  split; [|split].
  - intros content. unfold parseM3U, parseM3U_with, parseLines.
    destruct (run_total newURL parseExtInf uuid (split_lines content) M3U.init)
      as [st Hst].
    rewrite Hst. simpl. eexists. split; [done|].
    by apply run_no_error in Hst.
  - apply parseExtInf_total.
  - intros info url c Hinfo Hc Hname (Hne & Hhash & Hvalid).
    unfold parseLines. simpl.
    unfold step at 2. rewrite (extinf_line_not_blank _ Hinfo), Hinfo, Hc.
    simpl.
    edestruct (step_url_line newURL uuid parseExtInf
                 (M3U.mkState [] [] (Some c) 1) c url)
      as (item & -> & Hemit); [done..|].
    simpl. exists item. split; [done|].
    destruct (emit_total uuid 0 c (Js.trim url)) as (item' & E & Hn & Hu).
    simpl in Hemit. rewrite E in Hemit. injection Hemit as <-.
    by rewrite Hn, Hname.
Qed.

Lemma C9_error_list_always_empty_witness :
  exists item,
    parseLines Sample.simpleURL Sample.counterId parseExtInf
      ["#EXTINF:-1"; "http://x/a.ts"] = Ok (M3U.mkResult [item] [])
    /\ Channel.name item = "Unknown Channel"
    /\ Channel.url item = "http://x/a.ts".
Proof.
  destruct (C9_error_list_always_empty Sample.simpleURL Sample.counterId)
    as (_ & _ & H).
  apply (H "#EXTINF:-1" "http://x/a.ts"
           (Partial.mk None None None None None None None None)).
  - vm_compute. reflexivity.
  - vm_compute. reflexivity.
  - reflexivity.
  - repeat split; [by vm_compute | vm_compute; reflexivity..].
Defined.

(** ** C5 *)



(** ** C4 *)

(** C4. For the name "Breaking Bad S01E03" the classifier answers series
    whatever the group and the URL are, and the series information read
    from the name is: series name "Breaking Bad", season 1, episode 3,
    series id "breaking-bad", the id being the name in lower case with
    each run of characters other than a-z and 0-9 replaced by one hyphen
    and the hyphens at both ends removed. *)
Theorem C4_breaking_bad (group url : string) :
  detectContentType "Breaking Bad S01E03" group url = series
  /\ parseSeriesInfo "Breaking Bad S01E03" =
       Ok (SeriesInfo.mk (Some "breaking-bad") (Some "Breaking Bad")
             (Some (Js.Int 1)) (Some (Js.Int 3)))
  /\ normalizeSeriesId "Breaking Bad" = "breaking-bad"
  /\ Re.replace_all re_non_alnum "-" (Js.toLowerCase "Breaking Bad")
       = "breaking-bad".
Proof.
  split; [|split; [|split]]; [|vm_compute; reflexivity..].
  unfold detectContentType.
  replace (Re.test re_SxxEyy "Breaking Bad S01E03") with true
    by (vm_compute; reflexivity).
  reflexivity.
Qed.

(** The same through the parser: an EXTINF line that carries the name and
    no series tag. *)
Example parse_breaking_bad :
  parseM3U Sample.simpleURL Sample.counterId
    (Sample.lines ["#EXTINF:-1,Breaking Bad S01E03"; "http://x/bb.mkv"]) =
  Ok (M3U.mkResult
        [{| Channel.id := "id-0"; Channel.name := "Breaking Bad S01E03";
            Channel.url := "http://x/bb.mkv";
            Channel.originalUrl := None; Channel.logo := None;
            Channel.group := Some "Uncategorized"; Channel.tvgId := None;
            Channel.tvgName := None; Channel.isFavorite := None;
            Channel.contentType := series; Channel.year := None;
            Channel.rating := None; Channel.duration := None;
            Channel.plot := None; Channel.seriesId := Some "breaking-bad";
            Channel.seriesName := Some "Breaking Bad";
            Channel.seasonNum := Some (Js.Int 1);
            Channel.episodeNum := Some (Js.Int 3) |}]
        []).
Proof. vm_compute. reflexivity. Qed.

(** ** C6 *)

(** C6, on the code.  The tags of the first line are read as season 0 and
    episode 0, yet the item carries season 2 and episode 5, the numbers
    in its name: the parser joins tag and name with [||], for which 0
    counts as absent.  In the same way the empty series-id tag of the
    second line hides the series-name tag. *)
Theorem C6_zero_tag_loses_to_name :
  (exists c,
     parseExtInf season_zero_line = Ok c
     /\ Partial.seasonNum c = Some (Js.Int 0)
     /\ Partial.episodeNum c = Some (Js.Int 0))
  /\ (exists item,
        parseM3U Sample.simpleURL Sample.counterId
          (Sample.lines [season_zero_line; "http://x/s02e05.mkv"])
          = Ok (M3U.mkResult [item] [])
        /\ Channel.contentType item = series
        /\ Channel.seasonNum item = Some (Js.Int 2)
        /\ Channel.episodeNum item = Some (Js.Int 5))
  /\ (exists item,
        parseM3U Sample.simpleURL Sample.counterId
          (Sample.lines [empty_series_id_line; "http://x/lost.mkv"])
          = Ok (M3U.mkResult [item] [])
        /\ Channel.contentType item = series
        /\ Channel.seriesId item = None).
Proof.
  split; [|split].
  - eexists. split; [vm_compute; reflexivity|]. split; reflexivity.
  - eexists. split; [vm_compute; reflexivity|]. repeat split.
  - eexists. split; [vm_compute; reflexivity|]. repeat split.
Qed.

(** Where the tags are taken: a tag that is neither 0 nor NaN, and a
    series id that is not empty, win over the name. *)
Lemma emit_prefers_truthy_tags uuid n cur trimmed item z :
  emit uuid n cur trimmed = Ok item ->
  Partial.seasonNum cur = Some (Js.Int z) -> z <> 0%Z ->
  Channel.seasonNum item = Some (Js.Int z).
Proof.
  unfold emit. intros H Hs Hz.
  destruct (if ContentType_eqb _ series then _ else _) as [i|e];
    simplify_eq/=.
  rewrite Hs. simpl. by destruct (Z.eqb_spec z 0).
Qed.

(** ** Favorites-preserving merge *)

Lemma is_favorite_true (c : Channel) :
  is_favorite c = true <-> Channel.isFavorite c = Some true.
Proof.
  unfold is_favorite. destruct (Channel.isFavorite c) as [[]|]; naive_solver.
Qed.

(** The set holds the playback URLs of the favorited existing items. *)
Lemma elem_of_favoriteChannelIds (existing : list Channel) (u : string) :
  u ∈ favoriteChannelIds existing <->
  exists e, e ∈ existing /\ Channel.isFavorite e = Some true /\ Channel.url e = u.
Proof.
  unfold favoriteChannelIds.
  rewrite elem_of_list_to_set, list_elem_of_fmap. split.
  - intros (e & -> & He). apply list_elem_of_In, filter_In in He as [He Hf].
    exists e. split; [by apply list_elem_of_In|]. split; [|done].
    by apply is_favorite_true.
  - intros (e & He & Hf & <-). exists e. split; [done|].
    apply list_elem_of_In, filter_In. split; [by apply list_elem_of_In|].
    by apply is_favorite_true.
Qed.

Lemma favoriteChannelIds_Permutation (E E' : list Channel) :
  E ≡ₚ E' -> favoriteChannelIds E = favoriteChannelIds E'.
Proof.
  intros HE. apply set_eq. intros u. rewrite !elem_of_favoriteChannelIds.
  by setoid_rewrite HE.
Qed.

(** C3. The merge is keyed by playback URL.  The merged list is the fresh
    list, item for item, with only the favorite flag set anew: the flag of
    a merged item is true exactly when some favorited existing item has
    its playback URL.  So a fresh item whose URL is the URL of a
    favorited existing item comes out favorited, whatever else the lists
    hold, and reordering either list reorders the result at most. *)
Theorem C3_favorites_merge_url_keyed (E F : list Channel) :
  length (channelsWithFavorites E F) = length F
  /\ (forall i f, F !! i = Some f ->
        exists m,
          channelsWithFavorites E F !! i = Some m
          /\ m = set_isFavorite (is_favorite m) f
          /\ (Channel.isFavorite m = Some true <->
              exists e, e ∈ E /\ Channel.isFavorite e = Some true
                        /\ Channel.url e = Channel.url f))
  /\ (forall e f, e ∈ E -> Channel.isFavorite e = Some true ->
        f ∈ F -> Channel.url f = Channel.url e ->
        set_isFavorite true f ∈ channelsWithFavorites E F)
  /\ (forall E' F', E ≡ₚ E' -> F ≡ₚ F' ->
        channelsWithFavorites E F ≡ₚ channelsWithFavorites E' F').
Proof.
  unfold channelsWithFavorites. split; [|split; [|split]].
  - by rewrite length_fmap.
  - intros i f Hf. rewrite list_lookup_fmap, Hf. simpl. eexists.
    split; [done|]. split; [done|]. simpl.
    rewrite <- elem_of_favoriteChannelIds. case_bool_decide; naive_solver.
  - intros e f He Hfav Hf Hu. apply list_elem_of_fmap. exists f.
    split; [|done]. rewrite bool_decide_eq_true_2; [done|].
    apply elem_of_favoriteChannelIds. by exists e.
  - intros E' F' HE HF. rewrite (favoriteChannelIds_Permutation _ _ HE).
    by apply fmap_Permutation.
Qed.

Lemma C3_favorites_merge_url_keyed_witness :
  let e := set_isFavorite true (Sample.item "old" "CNN" "X" "News" live) in
  let other := Sample.item "o2" "BBC" "Y" "News" live in
  let f := Sample.item "new" "CNN HD" "X" "News" live in
  set_isFavorite true f ∈ channelsWithFavorites [other; e] [other; f].
Proof.
  intros e other f.
  destruct (C3_favorites_merge_url_keyed [other; e] [other; f])
    as (_ & _ & H & _).
  apply (H e f).
  - apply elem_of_cons. right. apply elem_of_cons. by left.
  - reflexivity.
  - apply elem_of_cons. right. apply elem_of_cons. by left.
  - reflexivity.
Defined.

(** With nothing to merge from, nothing is a favorite. *)
Lemma channelsWithFavorites_nil (F : list Channel) :
  Forall (fun c => Channel.isFavorite c = Some false) (channelsWithFavorites [] F).
Proof.
  unfold channelsWithFavorites. apply Forall_fmap, Forall_forall.
  intros f _. simpl. by rewrite bool_decide_eq_false_2.
Qed.

(** ** C10 *)

Lemma refreshPlaylists_ok_channels (metas : list Meta.t) (st : App.state) :
  Forall (fun p => Playlist.channels p = [])
    (App.playlists (App.refreshPlaylists (Ok metas) st)).
Proof. simpl. apply Forall_fmap, Forall_forall. by intros p _. Qed.

(** C10, as the code has it.  When [refreshPlaylists] has read the
    playlists from the persistent store, every playlist of the in-memory
    store has an empty channel list; an update-mode import that takes its
    existing playlist from such a store therefore builds its set of
    favorited URLs from the empty list, and none of the channels it saves
    is a favorite. *)
Theorem C10_refreshed_playlists_have_no_channels
    (metas : list Meta.t) (st : App.state) :
  let st' := App.refreshPlaylists (Ok metas) st in
  Forall (fun p => Playlist.channels p = []) (App.playlists st')
  /\ (forall playlistToUpdate db existing fresh,
        ImportModal.existingPlaylist playlistToUpdate
          (ImportModal.mkWorld db st') = Some existing ->
        favoriteChannelIds (Playlist.channels existing) = ∅
        /\ Forall (fun c => Channel.isFavorite c = Some false)
             (channelsWithFavorites (Playlist.channels existing) fresh)).
Proof.
  intros st'. split; [apply refreshPlaylists_ok_channels|].
  intros playlistToUpdate db existing fresh Hex.
  assert (Hnil : Playlist.channels existing = []).
  { unfold ImportModal.existingPlaylist in Hex.
    destruct playlistToUpdate as [id|]; [|done].
    unfold App.find_playlist in Hex. apply find_some in Hex as [Hin _].
    pose proof (refreshPlaylists_ok_channels metas st) as Hall.
    rewrite Forall_forall in Hall. apply Hall. by apply list_elem_of_In. }
  rewrite Hnil. split; [done|]. apply channelsWithFavorites_nil.
Qed.

Lemma C10_refreshed_playlists_have_no_channels_witness :
  let st' := App.refreshPlaylists (Ok [sample_meta]) (App.mkState [] None) in
  Forall (fun c => Channel.isFavorite c = Some false)
    (channelsWithFavorites
       (Playlist.channels (App.playlist_of_meta sample_meta))
       [Sample.item "n" "CNN" "X" "News" live]).
Proof.
  intros st'.
  destruct (C10_refreshed_playlists_have_no_channels [sample_meta]
              (App.mkState [] None)) as [_ H].
  apply (H (Some "p1") DB.empty (App.playlist_of_meta sample_meta)
           [Sample.item "n" "CNN" "X" "News" live]).
  reflexivity.
Defined.

(** C10 as stated fails when the read of the persistent store fails:
    [refreshPlaylists] then returns as well, having logged the error, and
    the playlists of the in-memory store keep their channels, from which
    a later update-mode import does mark a fresh channel as favorite. *)
Lemma C10_counterexample_failed_read :
  let st := App.mkState [updated_playlist] (Some "p1") in
  let st' := App.refreshPlaylists (Throw (Error "The database is blocked")) st in
  ~ Forall (fun p => Playlist.channels p = []) (App.playlists st')
  /\ ImportModal.existingPlaylist (Some "p1") (ImportModal.mkWorld DB.empty st')
       = Some updated_playlist
  /\ Channel.isFavorite <$>
       channelsWithFavorites (Playlist.channels updated_playlist)
         [Sample.item "n" "CNN HD" "X" "News" live]
     = [Some true].
Proof.
  intros st st'. split; [|split].
  - intros H. by apply Forall_cons_1 in H as [H _].
  - reflexivity.
  - vm_compute. reflexivity.
Qed.

(** ** Local store *)

Section StoreFacts.
Context {A : Type}.

Lemma entries_Permutation (m : gmap string A) : DB.entries m ≡ₚ map_to_list m.
Proof. unfold DB.entries. apply merge_sort_Permutation. Qed.

Lemma elem_of_entries (m : gmap string A) (k : string) (x : A) :
  (k, x) ∈ DB.entries m <-> m !! k = Some x.
Proof. rewrite entries_Permutation. apply elem_of_map_to_list. Qed.

Lemma NoDup_entries_keys (m : gmap string A) : NoDup (DB.entries m).*1.
Proof. rewrite entries_Permutation. apply NoDup_fst_map_to_list. Qed.

Lemma key_le_total : Total (@DB.key_le A).
Proof. intros p q. unfold DB.key_le. apply (total String.le). Qed.

(** An index lists the records in the order of their keys. *)
Lemma entries_sorted (m : gmap string A) : Sorted DB.key_le (DB.entries m).
Proof. unfold DB.entries. apply Sorted_merge_sort, key_le_total. Qed.


Lemma foldl_delete_lookup (l : list (string * A)) : forall (m : gmap string A) k,
  foldl (fun m kr => delete kr.1 m) m l !! k =
  if decide (k ∈ l.*1) then None else m !! k.
Proof.
  induction l as [|[k' x] l IH]; intros m k.
  - done.
  - rewrite fmap_cons. cbn [foldl fst]. rewrite IH.
    destruct (decide (k = k')) as [->|Hne].
    + rewrite (decide_True (P := k' ∈ k' :: l.*1)) by (by apply elem_of_cons; left).
      destruct (decide (k' ∈ l.*1)); [done|]. apply lookup_delete_eq.
    + rewrite lookup_delete_ne by done.
      destruct (decide (k ∈ l.*1)) as [H|H].
      * rewrite decide_True; [done|by apply elem_of_cons; right].
      * rewrite decide_False; [done|]. by intros [?|?]%elem_of_cons.
Qed.
End StoreFacts.

Lemma elem_of_by_playlist (ch : gmap string Stored.t) pid k r :
  (k, r) ∈ DB.by_playlist ch pid <->
  ch !! k = Some r /\ Stored.playlistId r = pid.
Proof.
  unfold DB.by_playlist. rewrite list_elem_of_filter, elem_of_entries.
  simpl. tauto.
Qed.

Lemma elem_of_by_playlist_type (ch : gmap string Stored.t) pid ct k r :
  (k, r) ∈ DB.by_playlist_type ch pid ct <->
  ch !! k = Some r /\ Stored.playlistId r = pid
  /\ ContentType_str (Channel.contentType (Stored.channel r)) = ct.
Proof.
  unfold DB.by_playlist_type. rewrite list_elem_of_filter, elem_of_entries.
  simpl. tauto.
Qed.

(** After the cursor loop, the store holds the records of the other
    playlists and nothing else. *)
Lemma delete_playlist_channels_lookup pid (ch : gmap string Stored.t) k :
  DB.delete_playlist_channels pid ch !! k =
  match ch !! k with
  | Some r => if decide (Stored.playlistId r = pid) then None else Some r
  | None => None
  end.
Proof.
  unfold DB.delete_playlist_channels. rewrite foldl_delete_lookup.
  case_decide as Hin.
  - apply list_elem_of_fmap in Hin as ([k' r] & -> & Hin).
    apply elem_of_by_playlist in Hin as [Hk Hp]. simpl.
    rewrite Hk. by rewrite decide_True.
  - destruct (ch !! k) as [r|] eqn:Hk; [|done].
    case_decide as Hp; [|done]. exfalso. apply Hin.
    apply list_elem_of_fmap. exists (k, r). split; [done|].
    by apply elem_of_by_playlist.
Qed.

Lemma put_batch_lookup_other pid cs : forall ch k,
  k ∉ Channel.id <$> cs -> DB.put_batch pid cs ch !! k = ch !! k.
Proof.
  unfold DB.put_batch.
  induction cs as [|c cs IH]; intros ch k Hk; simpl; [done|].
  rewrite IH by set_solver. unfold DB.put. simpl.
  apply lookup_insert_ne. set_solver.
Qed.

Lemma put_batch_lookup_new pid cs : forall ch k,
  k ∈ Channel.id <$> cs ->
  exists c, c ∈ cs /\ Channel.id c = k
            /\ DB.put_batch pid cs ch !! k = Some (Stored.mk c pid).
Proof.
  induction cs as [|c cs IH]; intros ch k Hk; [by apply elem_of_nil in Hk|].
  destruct (decide (k ∈ Channel.id <$> cs)) as [Hin|Hout].
  - destruct (IH (DB.put (Stored.mk c pid) ch) k Hin) as (c' & Hc' & Hid & Hl).
    exists c'. split; [set_solver|]. by split.
  - assert (Channel.id c = k) as Hid by set_solver.
    exists c. split; [set_solver|]. split; [done|].
    change (DB.put_batch pid (c :: cs) ch)
      with (DB.put_batch pid cs (DB.put (Stored.mk c pid) ch)).
    rewrite put_batch_lookup_other by done.
    unfold DB.put. simpl. rewrite Hid. apply lookup_insert_eq.
Qed.

Lemma BATCH_SIZE_pos : (0 < DB.BATCH_SIZE)%nat.
Proof. unfold DB.BATCH_SIZE. lia. Qed.

(** The batches together are the whole list, written in order. *)
Lemma put_batches_all pid cs : forall fuel i ch,
  (length cs <= i + fuel)%nat ->
  DB.put_batches fuel i pid cs ch = DB.put_batch pid (drop i cs) ch.
Proof.
  pose proof BATCH_SIZE_pos as HB.
  induction fuel as [|fuel IH]; intros i ch Hlen; cbn [DB.put_batches].
  - rewrite drop_ge by lia. done.
  - destruct (Nat.ltb_spec i (length cs)) as [Hi|Hi].
    + rewrite IH by lia. unfold DB.put_batch.
      rewrite <- foldl_app. f_equal.
      rewrite <- (take_drop DB.BATCH_SIZE (drop i cs)) at 2.
      by rewrite drop_drop.
    + rewrite drop_ge by lia. done.
Qed.

Lemma savePlaylist_channels (p : Playlist) (replace : bool) (db : DB.t) :
  DB.channels (DB.savePlaylist p replace db) =
  DB.put_batch (Playlist.id p) (Playlist.channels p)
    (if replace
     then DB.delete_playlist_channels (Playlist.id p) (DB.channels db)
     else DB.channels db).
Proof.
  unfold DB.savePlaylist. simpl. rewrite put_batches_all by lia. done.
Qed.

Lemma keyed_by_id_empty : keyed_by_id ∅.
Proof. intros k r H. by rewrite lookup_empty in H. Qed.

Lemma keyed_by_id_savePlaylist p replace db :
  keyed_by_id (DB.channels db) ->
  keyed_by_id (DB.channels (DB.savePlaylist p replace db)).
Proof.
  intros Hwf k r. rewrite savePlaylist_channels.
  destruct (decide (k ∈ Channel.id <$> Playlist.channels p)) as [Hin|Hout].
  - set (base := if replace then _ else _).
    destruct (put_batch_lookup_new (Playlist.id p) _ base k Hin)
      as (c & _ & Hid & ->).
    by intros [= <-].
  - rewrite put_batch_lookup_other by done. destruct replace.
    + rewrite delete_playlist_channels_lookup.
      destruct (DB.channels db !! k) as [r'|] eqn:Hk; [|done].
      case_decide; [done|]. intros [= <-]. by apply Hwf.
    + apply Hwf.
Qed.

(** What a query can return: channels of records of its playlist. *)
Lemma elem_of_candidates db o c :
  c ∈ DB.candidates db o ->
  exists k r, DB.channels db !! k = Some r
              /\ Stored.playlistId r = DB.Query.playlistId o
              /\ Stored.channel r = c.
Proof.
  unfold DB.candidates. intros H.
  assert (Hall : forall l : list Channel, c ∈ l ->
    l = Stored.channel <$> (DB.by_playlist (DB.channels db) (DB.Query.playlistId o)).*2
    \/ (exists ct, l = Stored.channel <$>
          (DB.by_playlist_type (DB.channels db) (DB.Query.playlistId o) ct).*2) ->
    exists k r, DB.channels db !! k = Some r
                /\ Stored.playlistId r = DB.Query.playlistId o
                /\ Stored.channel r = c).
  { intros l Hc [->|[ct ->]].
    - apply list_elem_of_fmap in Hc as (r & -> & Hr).
      apply list_elem_of_fmap in Hr as ([k r'] & -> & Hr).
      apply elem_of_by_playlist in Hr as [Hk Hp]. by exists k, r'.
    - apply list_elem_of_fmap in Hc as (r & -> & Hr).
      apply list_elem_of_fmap in Hr as ([k r'] & -> & Hr).
      apply elem_of_by_playlist_type in Hr as (Hk & Hp & _). by exists k, r'. }
  repeat match type of H with
  | _ ∈ (match ?x with _ => _ end) => destruct x
  | _ ∈ (if ?x then _ else _) => destruct x
  | _ ∈ filter _ _ => apply list_elem_of_filter in H as [_ H]
  end; eapply Hall; eauto.
Qed.

Lemma elem_of_slice {A : Type} (from count : nat) (l : list A) (x : A) :
  x ∈ DB.slice from count l -> x ∈ l.
Proof.
  unfold DB.slice. intros H. apply elem_of_take in H as (i & H & _).
  rewrite lookup_drop in H. by eapply list_elem_of_lookup_2.
Qed.

(** ** C2 *)

(** C2. In a replacing save the index of the playlist is empty once the
    cursor loop is done, before any record is written.  After the save,
    the ids of the records stored for the playlist are exactly the ids of
    [p.channels]; each such record is one of [p.channels], tagged with the
    playlist; and every channel a [getChannels] query for the playlist
    returns is one of [p.channels], never a record stored earlier. *)
Theorem C2_replace_save (p : Playlist) (db : DB.t) :
  let db' := DB.savePlaylist p true db in
  let pid := Playlist.id p in
  DB.by_playlist (DB.delete_playlist_channels pid (DB.channels db)) pid = []
  /\ stored_ids db' pid = list_to_set (Channel.id <$> Playlist.channels p)
  /\ (forall k r, DB.channels db' !! k = Some r -> Stored.playlistId r = pid ->
        Stored.channel r ∈ Playlist.channels p
        /\ Channel.id (Stored.channel r) = k)
  /\ (forall o c, DB.Query.playlistId o = pid ->
        c ∈ DB.getChannels db' o -> c ∈ Playlist.channels p)
  /\ list_to_set (C:=gset string)
       (Channel.id <$> DB.candidates db'
          (DB.Query.mk pid None None None None None None))
     = list_to_set (Channel.id <$> Playlist.channels p).
Proof.
  intros db' pid.
  assert (Hnew : forall k r, DB.channels db' !! k = Some r ->
    Stored.playlistId r = pid ->
    Stored.channel r ∈ Playlist.channels p /\ Channel.id (Stored.channel r) = k).
  { intros k r. unfold db'. rewrite savePlaylist_channels.
    destruct (decide (k ∈ Channel.id <$> Playlist.channels p)) as [Hin|Hout].
    - destruct (put_batch_lookup_new (Playlist.id p) _
        (DB.delete_playlist_channels (Playlist.id p) (DB.channels db)) k Hin)
        as (c & Hc & Hid & ->).
      by intros [= <-] _.
    - rewrite put_batch_lookup_other by done.
      rewrite delete_playlist_channels_lookup.
      destruct (DB.channels db !! k) as [r'|]; [|done].
      case_decide; [done|]. by intros [= <-] ?. }
  assert (Hids : stored_ids db' pid =
                 list_to_set (Channel.id <$> Playlist.channels p)).
  { apply set_eq. intros k. unfold stored_ids.
    rewrite elem_of_dom, elem_of_list_to_set. split.
    - intros [r Hr]. apply map_lookup_filter_Some in Hr as [Hk Hp].
      destruct (Hnew k r Hk Hp) as [Hc <-]. by apply list_elem_of_fmap_2.
    - intros Hin. unfold db'.
      destruct (put_batch_lookup_new (Playlist.id p) _
        (DB.delete_playlist_channels (Playlist.id p) (DB.channels db)) k Hin)
        as (c & Hc & Hid & Hl).
      exists (Stored.mk c pid). apply map_lookup_filter_Some.
      by rewrite savePlaylist_channels. }
  split; [|split; [done|split; [done|split]]].
  - apply elem_of_nil_inv. intros [k r] H.
    apply elem_of_by_playlist in H as [Hk Hp].
    rewrite delete_playlist_channels_lookup in Hk.
    destruct (DB.channels db !! k) as [r'|]; [|done].
    case_decide; [done|]. by simplify_eq.
  - intros o c Ho Hc. apply elem_of_slice, elem_of_candidates in Hc
      as (k & r & Hk & Hp & <-).
    rewrite Ho in Hp. by apply Hnew in Hk as [? _].
  - rewrite <- Hids. apply set_eq. intros k. unfold stored_ids.
    rewrite elem_of_dom, elem_of_list_to_set. unfold DB.candidates. simpl.
    rewrite list_elem_of_fmap. split.
    + intros (c & -> & Hc). apply list_elem_of_fmap in Hc as (r & -> & Hr).
      apply list_elem_of_fmap in Hr as ([k r'] & -> & Hr).
      apply elem_of_by_playlist in Hr as [Hk Hp]. simpl.
      destruct (Hnew k r' Hk Hp) as [_ ->].
      exists r'. by apply map_lookup_filter_Some.
    + intros [r Hr]. apply map_lookup_filter_Some in Hr as [Hk Hp].
      exists (Stored.channel r). split; [by destruct (Hnew k r Hk Hp)|].
      apply list_elem_of_fmap. exists r. split; [done|].
      apply list_elem_of_fmap. exists (k, r). split; [done|].
      by apply elem_of_by_playlist.
Qed.

(** ** C7 *)

Lemma checkAccount_refused (authData : JsVal) :
  auth_refused authData ->
  Xtream.checkAccount authData =
    Throw (Error "Authentication failed: Invalid username or password").
Proof.
  intros (userInfo & Hu & Ha). unfold Xtream.checkAccount.
  rewrite Hu. simpl.
  assert (Dyn.truthy userInfo = true) as ->.
  { destruct userInfo; simpl in Ha; by simplify_eq. }
  rewrite Ha. reflexivity.
Qed.

(** C7. When the reply to the authentication request carries
    [user_info.auth = 0], [fetchXtreamChannels] throws the error
    "Authentication failed: Invalid username or password" and the
    authentication request is the only thing it has done: no category or
    stream list of any of the three families is requested and no progress
    is reported.  The import handler then shows that message and leaves
    the persistent and the in-memory store as they were. *)
Theorem C7_auth_failure_stops_import
    (srv : Xtream.server) (uuid : nat -> string) (proxyEnv : option string)
    (creds : Xtream.credentials) (authData : JsVal) :
  Xtream.auth srv (authRequest creds) = Ok authData ->
  auth_refused authData ->
  Xtream.fetchXtreamChannels srv uuid proxyEnv creds =
    Xtream.mkM [Xtream.Request (authRequest creds)] (Throw auth_error)
  /\ (forall clock importOption playlistToUpdate playlistName w,
        Xtream.url creds <> EmptyString ->
        Xtream.username creds <> EmptyString ->
        Xtream.password creds <> EmptyString ->
        ImportModal.handleImportXtream uuid clock importOption playlistToUpdate
          srv proxyEnv playlistName (Xtream.url creds) (Xtream.username creds)
          (Xtream.password creds) w =
        ImportModal.mkOutcome w
          (Some "Authentication failed: Invalid username or password") false
          [Xtream.Request (authRequest creds)]).
Proof.
  intros Hauth Hrefused.
  assert (Hfetch : Xtream.fetchXtreamChannels srv uuid proxyEnv creds =
    Xtream.mkM [Xtream.Request (authRequest creds)] (Throw auth_error)).
  { unfold Xtream.fetchXtreamChannels, Xtream.fetchFamilies, Xtream.call.
    fold (authRequest creds). rewrite Hauth.
    unfold mbind, Xtream.M_bind. cbn [Xtream.outcome Xtream.log].
    unfold Xtream.lift. rewrite (checkAccount_refused _ Hrefused).
    reflexivity. }
  split; [exact Hfetch|].
  intros clock importOption playlistToUpdate playlistName w Hu Hn Hp.
  unfold ImportModal.handleImportXtream.
  destruct (String.eqb_spec (Xtream.url creds) EmptyString); [done|].
  destruct (String.eqb_spec (Xtream.username creds) EmptyString); [done|].
  destruct (String.eqb_spec (Xtream.password creds) EmptyString); [done|].
  simpl.
  replace (Xtream.mkCredentials (Xtream.url creds) (Xtream.username creds)
             (Xtream.password creds)) with creds by (by destruct creds).
  rewrite Hfetch. reflexivity.
Qed.

Lemma C7_auth_failure_stops_import_witness :
  let creds := Xtream.mkCredentials "http://tv.example:8080/" "u" "p" in
  Xtream.fetchXtreamChannels refusing_server Sample.counterId None creds =
    Xtream.mkM
      [Xtream.Request (Xtream.mkRequest "http://tv.example:8080" "u" "p" None None)]
      (Throw auth_error).
Proof.
  intros creds.
  refine (proj1 (C7_auth_failure_stops_import refusing_server Sample.counterId
                   None creds _ _ _)).
  - reflexivity.
  - eexists. split; reflexivity.
Defined.

Example fetch_accepting :
  let m := Xtream.fetchXtreamChannels accepting_server Sample.counterId None
             (Xtream.mkCredentials "http://tv.example:8080/" "u" "p") in
  (fun e => match e with
            | Xtream.Request r => default "auth" (Xtream.r_action r)
            | Xtream.Progress s => s
            end) <$> Xtream.log m =
    ["auth"; "Fetching live channels..."; "get_live_categories";
     "get_live_streams"; "Found 1 live channels. Fetching movies...";
     "get_vod_categories"; "get_vod_streams";
     "Found 2 channels. Fetching series..."; "get_series_categories";
     "get_series"]
  /\ (fun c => (Channel.id c, Channel.name c, Channel.url c, Channel.group c,
                Channel.year c)) <$> default [] (match Xtream.outcome m with
                                                 | Ok l => Some l
                                                 | Throw _ => None
                                                 end) =
     [("id-0", "CNN",
       "/api/proxy/stream?url=http%3A%2F%2Ftv.example%3A8080%2Flive%2Fu%2Fp%2F7.m3u8",
       Some "News", None);
      ("id-1", "Heat",
       "/api/proxy/stream?url=http%3A%2F%2Ftv.example%3A8080%2Fmovie%2Fu%2Fp%2F9.mp4",
       Some "Movies", Some "1995")].
Proof. vm_compute. split; reflexivity. Qed.

(** ** Manifest rewriting *)

Lemma list_ascii_of_string_app (a b : string) :
  list_ascii_of_string (a +:+ b) =
  list_ascii_of_string a ++ list_ascii_of_string b.
Proof. induction a as [|c a IH]; simpl; [done|]. by rewrite <- IH. Qed.

Lemma no_lf_app (a b : string) : no_lf a -> no_lf b -> no_lf (a +:+ b).
Proof.
  unfold no_lf. rewrite list_ascii_of_string_app. apply Forall_app_2.
Qed.


Lemma split_lf_go_no_lf (l : list ascii) : forall cur,
  Forall (fun a => a <> LF) l ->
  Proxy.split_lf_go cur l = [string_of_list_ascii (rev cur ++ l)].
Proof.
  induction l as [|a l IH]; intros cur Hl; simpl.
  - by rewrite app_nil_r.
  - apply Forall_cons_1 in Hl as [Ha Hl].
    destruct (Ascii.eqb_spec a LF); [done|].
    rewrite IH by done. simpl. by rewrite <- app_assoc.
Qed.

Lemma split_lf_go_app (l rest : list ascii) : forall cur,
  Forall (fun a => a <> LF) l ->
  Proxy.split_lf_go cur (l ++ LF :: rest) =
  string_of_list_ascii (rev cur ++ l) :: Proxy.split_lf_go [] rest.
Proof.
  induction l as [|a l IH]; intros cur Hl; simpl.
  - by rewrite app_nil_r.
  - apply Forall_cons_1 in Hl as [Ha Hl].
    destruct (Ascii.eqb_spec a LF); [done|].
    rewrite IH by done. simpl. by rewrite <- app_assoc.
Qed.

(** Joining lines that hold no line feed and splitting again gives the
    lines back. *)
Lemma split_lf_join_lf (ls : list string) :
  ls <> [] -> Forall no_lf ls -> Proxy.split_lf (Proxy.join_lf ls) = ls.
Proof.
  induction ls as [|l ls IH]; [done|]. intros _ Hall.
  apply Forall_cons_1 in Hall as [Hl Hall].
  destruct ls as [|l2 ls].
  - simpl. unfold Proxy.split_lf. rewrite split_lf_go_no_lf by done.
    simpl. by rewrite string_of_list_ascii_of_string.
  - change (Proxy.join_lf (l :: l2 :: ls))
      with (l +:+ String LF (Proxy.join_lf (l2 :: ls))).
    unfold Proxy.split_lf. rewrite list_ascii_of_string_app. simpl.
    rewrite split_lf_go_app by done. simpl.
    rewrite string_of_list_ascii_of_string. f_equal. by apply IH.
Qed.







(** ** C8 *)



(** The variant of the route that only relays never rewrites: whatever
    it fetches with success, it hands on as it is. *)
Lemma GET_relay_body
    (newURL : string -> option URL) (fetch : string -> Exc Proxy.fetched)
    (streamUrl : string) (originalUrl : URL) (response : Proxy.fetched) :
  streamUrl <> EmptyString ->
  newURL streamUrl = Some originalUrl ->
  fetch streamUrl = Ok response ->
  Proxy.ok response = true ->
  Proxy.r_body (Proxy.GET_relay newURL fetch (Some streamUrl))
  = Proxy.body response.
Proof.
  intros Hne Hurl Hfetch Hok. unfold Proxy.GET_relay.
  destruct (String.eqb_spec streamUrl EmptyString); [done|].
  by rewrite Hurl, Hfetch, Hok.
Qed.

(** The worker rewrites with the same function, its endpoint being
    relative to itself. *)
Lemma worker_body
    (newURL : string -> option URL) (fetch : string -> Exc Proxy.fetched)
    (streamUrl : string) (originalUrl : URL) (response : Proxy.fetched) :
  streamUrl <> EmptyString ->
  newURL streamUrl = Some originalUrl ->
  fetch streamUrl = Ok response ->
  Proxy.ok response = true ->
  Js.includes streamUrl ".m3u8" = true ->
  Proxy.r_body (Proxy.worker newURL fetch (Some streamUrl))
  = Proxy.rewriteManifest "?url=" originalUrl (Proxy.body response).
Proof.
  intros Hne Hurl Hfetch Hok Hm. unfold Proxy.worker.
  destruct (String.eqb_spec streamUrl EmptyString); [done|].
  rewrite Hurl, Hfetch, Hok, Hm. simpl. by rewrite !orb_true_r.
Qed.



(** ** Alphabetical sorting *)

Section Sorting.
Variable localeCompare : string -> string -> comparison.



(** The comparator is a total preorder, as a collation is. *)
Hypothesis localeCompare_total :
  forall a b, localeCompare a b = Gt -> localeCompare b a <> Gt.
Hypothesis localeCompare_trans :
  forall a b c, localeCompare a b <> Gt -> localeCompare b c <> Gt ->
                localeCompare a c <> Gt.


End Sorting.

(** ** Grouping into series *)








(** ** Pagination *)


Section Pagination.
Variable localeCompare : string -> string -> comparison.
Variable db : DB.t.
Variable e : Hook.env.
Variable pl : Playlist.
Hypothesis active : Hook.activePlaylist e = Some pl.




End Pagination.

(** ** What a query returns *)

Lemma ids_of_records (l : list (string * Stored.t)) :
  (forall k r, (k, r) ∈ l -> Channel.id (Stored.channel r) = k) ->
  Channel.id <$> (Stored.channel <$> l.*2) = l.*1.
Proof.
  induction l as [|[k r] l IH]; intros H; [done|].
  rewrite !fmap_cons. cbn [fst snd]. rewrite IH.
  - f_equal. apply H, elem_of_cons. by left.
  - intros k' r' Hin. apply H, elem_of_cons. by right.
Qed.





Lemma representative_id c : Channel.id (Hook.representative c) = Channel.id c.
Proof. reflexivity. Qed.

Lemma representative_seriesId c :
  Channel.seriesId (Hook.representative c) = Some (Hook.seriesKey c).
Proof. reflexivity. Qed.





(** ** C1 *)






(** ** The cap of the fetch *)







(** * More of the local store (lib/db.ts) *)

Lemma candidates_all_of db pid :
  DB.candidates db (all_of pid) =
  Stored.channel <$> (DB.by_playlist (DB.channels db) pid).*2.
Proof. reflexivity. Qed.

Lemma candidates_of_tab db pid t :
  DB.candidates db (of_tab pid t) =
  Stored.channel <$>
    (DB.by_playlist_type (DB.channels db) pid (ContentType_str t)).*2.
Proof. by destruct t. Qed.

(** The index of a playlist has as many entries as the playlist has
    records. *)
Lemma length_by_playlist db pid :
  length (DB.by_playlist (DB.channels db) pid) = size (stored_ids db pid).
Proof.
  unfold stored_ids, DB.by_playlist. rewrite size_dom, map_filter_alt.
  rewrite map_size_list_to_map.
  - apply Permutation_length. by rewrite entries_Permutation.
  - eapply sublist_NoDup; [apply (NoDup_fst_map_to_list (DB.channels db))|].
    apply fmap_sublist, sublist_filter.
Qed.




Lemma saveChannels_channels pid cs db :
  DB.channels (DB.saveChannels pid cs db) =
  DB.put_batch pid cs (DB.channels db).
Proof.
  unfold DB.saveChannels.
  destruct (DB.playlists db !! pid); cbn [DB.channels];
    by rewrite put_batches_all by lia.
Qed.

(** X2. [saveChannels] writes the given channels under the playlist and
    touches no record with another id.  When the store knows the
    playlist, the count it then stores for it is the number of records
    the store holds for the playlist, old and new together, and the rest
    of its metadata is kept; when the store does not know the playlist,
    the records are written all the same and no metadata is created. *)
Theorem saveChannels_keeps_the_count_exact
    (pid : string) (cs : list Channel) (db : DB.t) :
  let db' := DB.saveChannels pid cs db in
  (forall k, k ∉ Channel.id <$> cs ->
     DB.channels db' !! k = DB.channels db !! k)
  /\ (forall k, k ∈ Channel.id <$> cs ->
        exists c, c ∈ cs /\ Channel.id c = k
                  /\ DB.channels db' !! k = Some (Stored.mk c pid))
  /\ match DB.playlists db !! pid with
     | Some p =>
         DB.playlists db' =
         <[Meta.id p := Meta.set_channelCount (size (stored_ids db' pid)) p]>
           (DB.playlists db)
     | None => DB.playlists db' = DB.playlists db
     end.
Proof.
  intros db'. split; [|split].
  - intros k Hk. unfold db'. rewrite saveChannels_channels.
    by apply put_batch_lookup_other.
  - intros k Hk. unfold db'. rewrite saveChannels_channels.
    by apply put_batch_lookup_new.
  - unfold db', DB.saveChannels.
    destruct (DB.playlists db !! pid) as [p|]; cbn [DB.playlists]; [|done].
    by rewrite <- length_by_playlist.
Qed.

Lemma ContentType_str_inj (a b : ContentType) :
  ContentType_str a = ContentType_str b -> a = b.
Proof. by destruct a, b. Qed.

(** The counting loop, from any start. *)
Lemma count_foldl (l : list (string * Stored.t)) : forall n0 t,
  let n := foldl (fun counts kr => DB.count (Stored.channel kr.2) counts) n0 l in
  let cnt t' :=
    length (filter (fun kr => Channel.contentType (Stored.channel kr.2) = t') l) in
  match t with
  | live => Counts.live n = (Counts.live n0 + cnt live)%nat
  | movie => Counts.movie n = (Counts.movie n0 + cnt movie)%nat
  | series => Counts.series n = (Counts.series n0 + cnt series)%nat
  end.
Proof.
  induction l as [|[k r] l IH]; intros n0 t; cbn zeta.
  - destruct t; simpl; lia.
  - cbn [foldl snd]. specialize (IH (DB.count (Stored.channel r) n0) t).
    cbn zeta in IH. rewrite !filter_cons. cbn [snd].
    unfold DB.count in *.
    destruct t, (Channel.contentType (Stored.channel r)) eqn:Hr;
      repeat case_decide; try congruence; cbn [length] in *;
      cbn [Counts.live Counts.movie Counts.series] in *; lia.
Qed.

Lemma by_playlist_type_filter ch pid t :
  DB.by_playlist_type ch pid (ContentType_str t) =
  filter (fun kr => Channel.contentType (Stored.channel kr.2) = t)
    (DB.by_playlist ch pid).
Proof.
  unfold DB.by_playlist_type, DB.by_playlist.
  rewrite list_filter_filter. apply list_filter_iff.
  intros [k r]. cbn [snd]. split.
  - intros [? ?%ContentType_str_inj]. done.
  - intros [-> ?]. done.
Qed.

(** X3. The counts of [getContentCounts] are the numbers of channels the
    content-type tabs list for the playlist (before any cap): each count
    is the length of the unfiltered query for its type, and the three
    add up to the number of records stored for the playlist. *)
Theorem getContentCounts_are_the_tab_sizes (db : DB.t) (pid : string) :
  let n := DB.getContentCounts db pid in
  Counts.live n = length (DB.candidates db (of_tab pid live))
  /\ Counts.movie n = length (DB.candidates db (of_tab pid movie))
  /\ Counts.series n = length (DB.candidates db (of_tab pid series))
  /\ (Counts.live n + Counts.movie n + Counts.series n)%nat
     = size (stored_ids db pid).
Proof.
  intros n.
  pose proof (count_foldl (DB.by_playlist (DB.channels db) pid)
                (Counts.mk 0 0 0)) as H.
  pose proof (H live) as Hl. pose proof (H movie) as Hm.
  pose proof (H series) as Hs. clear H. cbn zeta in Hl, Hm, Hs.
  fold (DB.getContentCounts db pid) in Hl, Hm, Hs. fold n in Hl, Hm, Hs.
  rewrite !candidates_of_tab, !length_fmap, !by_playlist_type_filter.
  cbn [Counts.live Counts.movie Counts.series] in Hl, Hm, Hs.
  split; [lia|]. split; [lia|]. split; [lia|].
  rewrite <- length_by_playlist, Hl, Hm, Hs. cbn [Nat.add].
  generalize (DB.by_playlist (DB.channels db) pid). intros l.
  induction l as [|[k r] l IH]; [done|].
  rewrite !filter_cons. cbn [snd length].
  destruct (Channel.contentType (Stored.channel r));
    repeat case_decide; try congruence; cbn [length]; lia.
Qed.

(** The loop that fills the set of groups, from any start. *)
Lemma collect_groups_foldl (cs : list Channel) : forall acc,
  let f groups c :=
    match Channel.group c with
    | Some g => if String.eqb g EmptyString then groups
                else DB.set_add g groups
    | None => groups
    end in
  NoDup acc ->
  NoDup (foldl f acc cs)
  /\ forall g, g ∈ foldl f acc cs <->
       g ∈ acc \/ (g <> EmptyString
                   /\ exists c, c ∈ cs /\ Channel.group c = Some g).
Proof.
  induction cs as [|c cs IH]; intros acc f Hacc.
  - split; [done|]. intros g. split; [by left|].
    intros [?|(_ & c & Hc & _)]; [done|]. by apply elem_of_nil in Hc.
  - cbn [foldl].
    assert (Hstep : NoDup (f acc c)
      /\ forall g, g ∈ f acc c <->
           g ∈ acc \/ (g <> EmptyString /\ Channel.group c = Some g)).
    { unfold f, DB.set_add. destruct (Channel.group c) as [g0|].
      - destruct (String.eqb_spec g0 EmptyString) as [->|Hne].
        + split; [done|]. intros g. split; [by left|].
          intros [?|[? [= <-]]]; done.
        + case_bool_decide as Hin.
          * split; [done|]. intros g. split; [by left|].
            intros [?|[_ [= <-]]]; done.
          * split.
            { apply NoDup_app. split; [done|]. split; [|apply NoDup_singleton].
              intros x Hx ->%list_elem_of_singleton. done. }
            intros g. rewrite elem_of_app, list_elem_of_singleton. split.
            { intros [?| ->]; [by left|]. by right. }
            { intros [?|[_ [= <-]]]; [by left|by right]. }
      - split; [done|]. intros g. split; [by left|].
        intros [?|[_ ?]]; done. }
    destruct Hstep as [Hnd Hmem].
    destruct (IH (f acc c) Hnd) as [IH1 IH2]. split; [exact IH1|].
    intros g. etrans; [apply (IH2 g)|]. rewrite (Hmem g). split.
    + intros [[?|[Hne Hg]]|(Hne & c' & Hc' & Hg)].
      * by left.
      * right. split; [done|]. exists c. split; [apply elem_of_cons; by left|done].
      * right. split; [done|]. exists c'.
        split; [apply elem_of_cons; by right|done].
    + intros [?|(Hne & c' & [->|Hc']%elem_of_cons & Hg)].
      * left. by left.
      * left. by right.
      * right. split; [done|]. by exists c'.
Qed.

Lemma of_type_candidates db pid ct :
  DB.of_type db pid ct =
  DB.candidates db (DB.Query.mk pid None None None ct None None).
Proof. reflexivity. Qed.

(** X4. [getGroups] lists, in ascending order and without repetition,
    exactly the non-empty group names borne by the channels the store
    holds for the playlist and the content type asked for: every group
    listed has a channel, and no group of a channel is missing. *)
Theorem getGroups_lists_each_group_once
    (db : DB.t) (pid : string) (ct : option string) :
  let groups := DB.getGroups db pid ct in
  StronglySorted String.le groups
  /\ NoDup groups
  /\ forall g, g ∈ groups <->
       g <> EmptyString
       /\ exists c,
            c ∈ DB.candidates db (DB.Query.mk pid None None None ct None None)
            /\ Channel.group c = Some g.
Proof.
  intros groups. unfold groups, DB.getGroups.
  destruct (collect_groups_foldl (DB.of_type db pid ct) [] (NoDup_nil_2 (A:=string)))
    as [Hnd Hmem].
  split; [apply StronglySorted_merge_sort; apply _|].
  split.
  - rewrite merge_sort_Permutation. exact Hnd.
  - intros g. rewrite merge_sort_Permutation. unfold DB.collect_groups.
    rewrite (Hmem g), of_type_candidates. split.
    + intros [H|H]; [by apply elem_of_nil in H|done].
    + by right.
Qed.

Lemma elem_of_candidates_all_of db pid c :
  c ∈ DB.candidates db (all_of pid) <->
  exists k r, DB.channels db !! k = Some r /\ Stored.playlistId r = pid
              /\ Stored.channel r = c.
Proof.
  rewrite candidates_all_of. split.
  - intros (r & -> & Hr)%list_elem_of_fmap.
    apply list_elem_of_fmap in Hr as ([k r'] & -> & Hr).
    apply elem_of_by_playlist in Hr as [Hk Hp]. by exists k, r'.
  - intros (k & r & Hk & Hp & <-). apply list_elem_of_fmap.
    exists r. split; [done|]. apply list_elem_of_fmap. exists (k, r).
    split; [done|]. by apply elem_of_by_playlist.
Qed.

Lemma elem_of_candidates_favorites db pid c :
  c ∈ DB.candidates db (favorites_of pid) <->
  c ∈ DB.candidates db (all_of pid) /\ Channel.isFavorite c = Some true.
Proof.
  unfold DB.candidates, favorites_of, all_of. cbn.
  rewrite list_elem_of_filter. tauto.
Qed.

Lemma flip_isFavorite_set (c : Channel) :
  Channel.flip_isFavorite c = set_isFavorite (negb (is_favorite c)) c.
Proof. reflexivity. Qed.

(** X5. [toggleChannelFavorite] on an id the store does not hold changes
    nothing and returns false.  On a stored channel it returns the
    negation of the flag (an absent flag counting as false), rewrites
    that one record with the new flag and nothing else, and the channel
    is listed by the favorites query of its playlist afterwards exactly
    when true was returned. *)
Theorem toggleChannelFavorite_flips_one_record (id : string) (db : DB.t) :
  keyed_by_id (DB.channels db) ->
  let db' := (DB.toggleChannelFavorite id db).1 in
  let now := (DB.toggleChannelFavorite id db).2 in
  match DB.channels db !! id with
  | None => db' = db /\ now = false
  | Some r =>
      let c := Stored.channel r in
      now = negb (is_favorite c)
      /\ DB.channels db' !! id =
         Some (Stored.mk (set_isFavorite now c) (Stored.playlistId r))
      /\ (forall k, k <> id -> DB.channels db' !! k = DB.channels db !! k)
      /\ DB.playlists db' = DB.playlists db
      /\ keyed_by_id (DB.channels db')
      /\ (set_isFavorite now c
            ∈ DB.candidates db' (favorites_of (Stored.playlistId r))
          <-> now = true)
  end.
Proof.
  intros Hwf db' now. unfold db', now, DB.toggleChannelFavorite. clear db' now.
  destruct (DB.channels db !! id) as [r|] eqn:Hr; [|done].
  cbn [fst snd Stored.channel Stored.playlistId DB.channels DB.playlists].
  pose proof (Hwf _ _ Hr) as Hid.
  rewrite flip_isFavorite_set.
  change (default false (Channel.isFavorite
            (set_isFavorite (negb (is_favorite (Stored.channel r)))
               (Stored.channel r))))
    with (negb (is_favorite (Stored.channel r))).
  set (b := negb (is_favorite (Stored.channel r))).
  assert (Hput : DB.put (Stored.mk (set_isFavorite b (Stored.channel r))
                           (Stored.playlistId r)) (DB.channels db)
                 = <[id := Stored.mk (set_isFavorite b (Stored.channel r))
                             (Stored.playlistId r)]> (DB.channels db)).
  { unfold DB.put. cbn. by rewrite Hid. }
  rewrite Hput.
  assert (Hwf' : keyed_by_id
    (<[id := Stored.mk (set_isFavorite b (Stored.channel r))
               (Stored.playlistId r)]> (DB.channels db))).
  { intros k r'. destruct (decide (k = id)) as [->|Hne].
    - rewrite lookup_insert_eq. by intros [= <-].
    - rewrite lookup_insert_ne by done. apply Hwf. }
  split; [done|]. split; [apply lookup_insert_eq|].
  split; [intros k Hk; by apply lookup_insert_ne|].
  split; [done|]. split; [done|].
  rewrite elem_of_candidates_favorites. split.
  - intros [_ H]. cbn in H. by injection H.
  - intros Hb. split; [|cbn; by rewrite Hb].
    apply elem_of_candidates_all_of. eexists id, _. cbn [DB.channels].
    rewrite lookup_insert_eq. done.
Qed.

Lemma toggleChannelFavorite_flips_one_record_witness :
  let db' := (DB.toggleChannelFavorite "k2" sample_db).1 in
  (DB.toggleChannelFavorite "k2" sample_db).2 = true
  /\ Channel.id <$> DB.getChannels db' (favorites_of "p") = ["k2"].
Proof.
  intros db'.
  pose proof (toggleChannelFavorite_flips_one_record "k2" sample_db
                (keyed_by_id_savePlaylist sample_playlist true DB.empty
                   keyed_by_id_empty)) as H.
  cbv zeta in H. split; [|vm_compute; reflexivity].
  destruct (DB.channels sample_db !! "k2") as [r|] eqn:E;
    [|vm_compute in E; discriminate].
  destruct H as [-> _]. vm_compute in E. injection E as <-. reflexivity.
Defined.

(** X6. [savePlaylist] keeps its hands off the rest of the store: the
    metadata of every other playlist is untouched, and so is every
    record whose id is not the id of a channel being saved, unless the
    save replaces and the record belongs to the playlist saved.  Without
    [replace] no record is ever deleted. *)
Theorem savePlaylist_leaves_the_rest
    (p : Playlist) (replace : bool) (db : DB.t) :
  let db' := DB.savePlaylist p replace db in
  (forall q, q <> Playlist.id p ->
     DB.playlists db' !! q = DB.playlists db !! q)
  /\ DB.playlists db' !! Playlist.id p = Some (DB.meta_of p)
  /\ (forall k r, DB.channels db !! k = Some r ->
        k ∉ Channel.id <$> Playlist.channels p ->
        replace = false \/ Stored.playlistId r <> Playlist.id p ->
        DB.channels db' !! k = Some r)
  /\ (replace = false -> dom (DB.channels db) ⊆ dom (DB.channels db')).
Proof.
  intros db'. split; [|split; [|split]].
  - intros q Hq. unfold db', DB.savePlaylist. cbn [DB.playlists].
    by apply lookup_insert_ne.
  - unfold db', DB.savePlaylist. cbn [DB.playlists]. apply lookup_insert_eq.
  - intros k r Hk Hnew Hkeep. unfold db'. rewrite savePlaylist_channels.
    rewrite put_batch_lookup_other by done.
    destruct replace; [|done].
    rewrite delete_playlist_channels_lookup, Hk.
    destruct Hkeep as [?|?]; [done|]. by rewrite decide_False.
  - intros -> k. rewrite !elem_of_dom. intros [r Hk].
    unfold db'. rewrite savePlaylist_channels.
    destruct (decide (k ∈ Channel.id <$> Playlist.channels p)) as [Hin|Hout].
    + destruct (put_batch_lookup_new (Playlist.id p) _ (DB.channels db) k Hin)
        as (c & _ & _ & ->). done.
    + rewrite put_batch_lookup_other by done. by exists r.
Qed.

(** After a replacing save the records of the playlist are the channels
    saved, each under its id. *)
Lemma savePlaylist_replace_records (p : Playlist) (db : DB.t) k r :
  DB.channels (DB.savePlaylist p true db) !! k = Some r ->
  Stored.playlistId r = Playlist.id p ->
  Stored.channel r ∈ Playlist.channels p /\ Channel.id (Stored.channel r) = k.
Proof.
  rewrite savePlaylist_channels.
  destruct (decide (k ∈ Channel.id <$> Playlist.channels p)) as [Hin|Hout].
  - destruct (put_batch_lookup_new (Playlist.id p) _
      (DB.delete_playlist_channels (Playlist.id p) (DB.channels db)) k Hin)
      as (c & Hc & Hid & ->).
    by intros [= <-] _.
  - rewrite put_batch_lookup_other by done.
    rewrite delete_playlist_channels_lookup.
    destruct (DB.channels db !! k) as [r'|]; [|done].
    case_decide; [done|]. by intros [= <-] ?.
Qed.

Lemma NoDup_fmap_inv {A B : Type} (f : A -> B) (l : list A) :
  NoDup (f <$> l) -> NoDup l.
Proof. apply NoDup_fmap_1. Qed.

Lemma savePlaylist_replace_get (p : Playlist) (db : DB.t) c :
  NoDup (Channel.id <$> Playlist.channels p) ->
  c ∈ Playlist.channels p ->
  DB.channels (DB.savePlaylist p true db) !! Channel.id c
  = Some (Stored.mk c (Playlist.id p)).
Proof.
  intros Hnd Hc. rewrite savePlaylist_channels.
  set (base := DB.delete_playlist_channels _ _).
  destruct (put_batch_lookup_new (Playlist.id p) (Playlist.channels p)
              base (Channel.id c)) as (c' & Hc' & Hid & ->).
  { by apply list_elem_of_fmap_2. }
  f_equal. f_equal.
  apply list_elem_of_lookup in Hc as [i Hi].
  apply list_elem_of_lookup in Hc' as [j Hj].
  assert (i = j) as ->.
  { eapply NoDup_lookup; [exact Hnd|..].
    - by rewrite list_lookup_fmap, Hi.
    - by rewrite list_lookup_fmap, Hj, <- Hid. }
  congruence.
Qed.

(** What the store holds for a playlist after a replacing save of
    channels with distinct ids: these channels. *)
Lemma savePlaylist_replace_Permutation (p : Playlist) (db : DB.t) :
  NoDup (Channel.id <$> Playlist.channels p) ->
  DB.candidates (DB.savePlaylist p true db) (all_of (Playlist.id p))
  ≡ₚ Playlist.channels p.
Proof.
  intros Hnd. apply NoDup_Permutation.
  - apply (NoDup_fmap_inv Channel.id).
    rewrite candidates_all_of, ids_of_records.
    + eapply sublist_NoDup;
        [apply (NoDup_entries_keys (DB.channels (DB.savePlaylist p true db)))|].
      unfold DB.by_playlist. apply fmap_sublist, sublist_filter.
    + intros k r [Hk Hp]%elem_of_by_playlist.
      by destruct (savePlaylist_replace_records p db k r Hk Hp).
  - by apply (NoDup_fmap_inv Channel.id).
  - intros c. rewrite elem_of_candidates_all_of. split.
    + intros (k & r & Hk & Hp & <-).
      by destruct (savePlaylist_replace_records p db k r Hk Hp).
    + intros Hc. eexists _, _.
      split; [by apply savePlaylist_replace_get|done].
Qed.

(** X7. A replacing save followed by reads gives back what was saved:
    when the channels saved have pairwise distinct ids, the unfiltered
    query for the playlist lists exactly these channels, each once,
    [getChannel] finds each of them under its id, and the count stored
    with the playlist is their number. *)
Theorem savePlaylist_then_read_back (p : Playlist) (db : DB.t) :
  NoDup (Channel.id <$> Playlist.channels p) ->
  let db' := DB.savePlaylist p true db in
  DB.candidates db' (all_of (Playlist.id p)) ≡ₚ Playlist.channels p
  /\ (forall c, c ∈ Playlist.channels p ->
        DB.getChannel db' (Channel.id c) = Some c)
  /\ Meta.channelCount <$> DB.playlists db' !! Playlist.id p
     = Some (length (DB.candidates db' (all_of (Playlist.id p)))).
Proof.
  intros Hnd db'.
  pose proof (savePlaylist_replace_Permutation p db Hnd) as Hperm.
  split; [exact Hperm|]. split.
  - intros c Hc. unfold DB.getChannel, db'.
    by rewrite savePlaylist_replace_get.
  - unfold db'. rewrite Hperm. unfold DB.savePlaylist. cbn [DB.playlists].
    by rewrite lookup_insert_eq.
Qed.

Lemma savePlaylist_then_read_back_witness :
  DB.candidates sample_db (all_of "p") ≡ₚ Playlist.channels sample_playlist
  /\ Channel.name <$> DB.getChannel sample_db "k2" = Some "Alpha".
Proof.
  destruct (savePlaylist_then_read_back sample_playlist DB.empty)
    as (Hperm & _ & _).
  - vm_compute. repeat constructor; set_solver.
  - split; [exact Hperm|]. vm_compute. reflexivity.
Defined.

Lemma candidates_window db off lim o :
  DB.candidates db (window off lim o) = DB.candidates db o.
Proof. reflexivity. Qed.

Lemma concat_slices {A : Type} (lim : nat) (l : list A) (k : nat) :
  concat ((fun j => DB.slice (j * lim) lim l) <$> seq 0 k) = take (k * lim) l.
Proof.
  induction k as [|k IH]; [done|].
  rewrite seq_S, fmap_app, concat_app, IH. simpl. rewrite app_nil_r.
  unfold DB.slice. rewrite take_take_drop. f_equal. lia.
Qed.

(** X8. What [getChannels] returns is a window of the filtered list of
    the playlist: never more items than the limit (100 when none is
    given), in the order of the filtered list; windows of the same size
    at consecutive offsets, put end to end, give the filtered list from
    its start, without gap or repetition; and a window that starts at or
    past the end is empty. *)
Theorem getChannels_windows_tile_the_result (db : DB.t) (o : DB.Query.t) :
  (length (DB.getChannels db o) <= default 100 (DB.Query.limit o))%nat
  /\ DB.getChannels db o `sublist_of` DB.candidates db o
  /\ (forall lim k,
        concat ((fun j => DB.getChannels db (window (j * lim) lim o))
                  <$> seq 0 k)
        = take (k * lim) (DB.candidates db o))
  /\ (forall off lim, (length (DB.candidates db o) <= off)%nat ->
        DB.getChannels db (window off lim o) = []).
Proof.
  split; [|split; [|split]].
  - unfold DB.getChannels, DB.slice. rewrite length_take. lia.
  - unfold DB.getChannels, DB.slice.
    etrans; [apply sublist_take|apply sublist_drop].
  - intros lim k. rewrite <- concat_slices. reflexivity.
  - intros off lim Hoff. unfold DB.getChannels. rewrite candidates_window.
    cbn. unfold DB.slice. by rewrite drop_ge, take_nil.
Qed.

Lemma candidates_sublist db o :
  DB.candidates db o `sublist_of` DB.candidates db (all_of (DB.Query.playlistId o)).
Proof.
  rewrite candidates_all_of. unfold DB.candidates.
  assert (Hbase : forall ct,
    Stored.channel <$>
      (DB.by_playlist_type (DB.channels db) (DB.Query.playlistId o) ct).*2
    `sublist_of`
    Stored.channel <$>
      (DB.by_playlist (DB.channels db) (DB.Query.playlistId o)).*2).
  { intros ct. apply fmap_sublist, fmap_sublist.
    unfold DB.by_playlist_type, DB.by_playlist.
    induction (DB.entries (DB.channels db)) as [|kr l IH]; [done|].
    rewrite !filter_cons. repeat case_decide; try naive_solver;
      by constructor. }
  repeat match goal with
  | |- (match ?x with _ => _ end) `sublist_of` _ => destruct x
  | |- (if ?x then _ else _) `sublist_of` _ => destruct x
  | |- filter _ _ `sublist_of` _ => etrans; [apply sublist_filter|]
  end; done.
Qed.

(** Membership in the candidates of a query, filter by filter. *)
Lemma elem_of_candidates_iff (db : DB.t) (o : DB.Query.t) c :
  c ∈ DB.candidates db o <->
  exists k r, DB.channels db !! k = Some r
              /\ Stored.playlistId r = DB.Query.playlistId o
              /\ Stored.channel r = c
              /\ passes_filters o c.
Proof.
  unfold DB.candidates, passes_filters.
  assert (Hp : forall c',
    c' ∈ Stored.channel <$>
           (DB.by_playlist (DB.channels db) (DB.Query.playlistId o)).*2 <->
    exists k r, DB.channels db !! k = Some r
                /\ Stored.playlistId r = DB.Query.playlistId o
                /\ Stored.channel r = c').
  { intros c'. rewrite <- candidates_all_of.
    apply elem_of_candidates_all_of. }
  assert (Ht : forall ct c',
    c' ∈ Stored.channel <$>
           (DB.by_playlist_type (DB.channels db) (DB.Query.playlistId o) ct).*2
    <->
    exists k r, DB.channels db !! k = Some r
                /\ Stored.playlistId r = DB.Query.playlistId o
                /\ Stored.channel r = c'
                /\ ContentType_str (Channel.contentType c') = ct).
  { intros ct c'. split.
    - intros (r & -> & Hr)%list_elem_of_fmap.
      apply list_elem_of_fmap in Hr as ([k r'] & -> & Hr).
      apply elem_of_by_playlist_type in Hr as (Hk & Hpl & Hct).
      by exists k, r'.
    - intros (k & r & Hk & Hpl & <- & Hct). apply list_elem_of_fmap.
      exists r. split; [done|]. apply list_elem_of_fmap. exists (k, r).
      split; [done|]. by apply elem_of_by_playlist_type. }
  destruct (DB.Query.contentType o) as [ct|];
    [destruct (String.eqb_spec ct EmptyString) as [Ect|Ect];
     [|destruct (String.eqb_spec ct "all") as [Ea|Ea]]|];
    cbn [negb andb];
    (destruct (DB.Query.group o) as [g|];
     [destruct (String.eqb_spec g EmptyString) as [Eg|Eg];
      [|destruct (String.eqb_spec g "all") as [Eg'|Eg']]|]);
    cbn [negb andb];
    destruct (DB.Query.isFavorite o) as [b|];
    (destruct (DB.Query.searchQuery o) as [sq|];
     [destruct (String.eqb_spec sq EmptyString) as [Es|Es]|]);
    cbn [negb];
    rewrite ?list_elem_of_filter, ?Hp, ?Ht;
    naive_solver.
Qed.


(** * More of the application store (store/useStore.ts) *)

Lemma find_filter_none (id : string) (l : list Playlist) :
  find (fun p => String.eqb (Playlist.id p) id)
    (List.filter (fun p => negb (String.eqb (Playlist.id p) id)) l) = None.
Proof.
  induction l as [|p l IH]; [done|]. cbn [List.filter].
  destruct (String.eqb (Playlist.id p) id) eqn:E; cbn [negb]; [done|].
  cbn [find]. by rewrite E.
Qed.

Lemma list_filter_sublist {A : Type} (f : A -> bool) (l : list A) :
  List.filter f l `sublist_of` l.
Proof.
  induction l as [|x l IH]; [done|]. cbn [List.filter].
  destruct (f x); by constructor.
Qed.

Lemma elem_of_list_filter {A : Type} (f : A -> bool) (l : list A) (x : A) :
  x ∈ List.filter f l <-> x ∈ l /\ f x = true.
Proof. rewrite !list_elem_of_In. apply filter_In. Qed.

(** X9. [removePlaylist] drops every playlist of the given id and keeps
    the others in their order.  An active id that names another playlist
    is kept.  An active id that names the playlist removed is replaced
    by the id of the first playlist of the list as it was before the
    removal: when the playlist removed is itself the first of the list,
    the active id goes on naming it, although the list holds it no
    more. *)
Theorem removePlaylist_may_leave_the_active_id_dangling
    (id : string) (st : App.state) :
  let st' := App.removePlaylist id st in
  App.find_playlist id st' = None
  /\ App.playlists st' `sublist_of` App.playlists st
  /\ (forall p, p ∈ App.playlists st' <->
        p ∈ App.playlists st /\ Playlist.id p <> id)
  /\ (App.activePlaylistId st <> Some id ->
        App.activePlaylistId st' = App.activePlaylistId st)
  /\ (App.activePlaylistId st = Some id ->
        App.activePlaylistId st' =
        match App.playlists st with
        | p :: _ =>
            if String.eqb (Playlist.id p) EmptyString then None
            else Some (Playlist.id p)
        | [] => None
        end)
  /\ (forall p rest, App.playlists st = p :: rest -> Playlist.id p = id ->
        id <> EmptyString -> App.activePlaylistId st = Some id ->
        App.activePlaylistId st' = Some id
        /\ App.find_playlist id st' = None).
Proof.
  intros st'. unfold st', App.removePlaylist, App.find_playlist.
  cbn [App.playlists App.activePlaylistId].
  split; [apply find_filter_none|].
  split; [apply list_filter_sublist|].
  split.
  { intros p. rewrite elem_of_list_filter, negb_true_iff.
    by rewrite String.eqb_neq. }
  split; [intros Hne; by rewrite bool_decide_eq_false_2|].
  split; [intros Heq; by rewrite bool_decide_eq_true_2|].
  intros p rest Hl Hp Hid Hact. split; [|apply find_filter_none].
  rewrite bool_decide_eq_true_2 by done. rewrite Hl, Hp.
  by apply String.eqb_neq in Hid as ->.
Qed.

Lemma flip_isFavorite_twice (c : Channel) :
  is_favorite (Channel.flip_isFavorite (Channel.flip_isFavorite c))
  = is_favorite c.
Proof. unfold is_favorite. cbn. by destruct (Channel.isFavorite c) as [[]|]. Qed.

(** X10. The favorite toggle of the application store works on the
    channels held in memory only.  Once [refreshPlaylists] has read the
    playlists from the persistent store these lists are empty, and the
    toggle changes nothing at all, whatever playlist and channel it is
    given.  On playlists that do hold channels, toggling the same
    channel twice gives every channel its former flag back. *)
Theorem toggleFavorite_is_lost_after_refresh
    (metas : list Meta.t) (st : App.state) (pid cid : string) :
  App.toggleFavorite pid cid (App.refreshPlaylists (Ok metas) st)
  = App.refreshPlaylists (Ok metas) st
  /\ (fun p => is_favorite <$> Playlist.channels p)
       <$> App.playlists (App.toggleFavorite pid cid
                            (App.toggleFavorite pid cid st))
     = (fun p => is_favorite <$> Playlist.channels p) <$> App.playlists st.
Proof.
  split.
  - unfold App.toggleFavorite, App.refreshPlaylists.
    cbn [App.playlists App.activePlaylistId]. f_equal.
    induction metas as [|m metas IH]; [done|].
    rewrite !fmap_cons. f_equal; [|exact IH].
    unfold App.playlist_of_meta. cbn. by destruct (String.eqb _ _).
  - unfold App.toggleFavorite. cbn [App.playlists].
    rewrite <- !list_fmap_compose. apply list_fmap_ext.
    intros _ p _. cbn.
    destruct (String.eqb (Playlist.id p) pid) eqn:E; cbn; rewrite ?E; [|done].
    cbn. rewrite <- !list_fmap_compose. apply list_fmap_ext.
    intros _ c _. cbn.
    destruct (String.eqb (Channel.id c) cid) eqn:E'; cbn; rewrite ?E'; [|done].
    apply flip_isFavorite_twice.
Qed.

(** ** Playback history *)

Lemma addToHistory_history now id name pid logo st :
  Playback.history (Playback.addToHistory now id name pid logo st) =
  take 50 (HistoryItem.mk id name pid now logo
             :: List.filter (fun h => negb (String.eqb (HistoryItem.channelId h) id))
                  (Playback.history st)).
Proof. reflexivity. Qed.

Lemma addToHistory_NoDup now id name pid logo st :
  NoDup (HistoryItem.channelId <$> Playback.history st) ->
  NoDup (HistoryItem.channelId
           <$> Playback.history (Playback.addToHistory now id name pid logo st)).
Proof.
  intros Hnd. rewrite addToHistory_history.
  eapply sublist_NoDup; [|apply fmap_sublist, sublist_take].
  rewrite fmap_cons. cbn [HistoryItem.channelId]. apply NoDup_cons. split.
  - intros (h & Hid & Hh)%list_elem_of_fmap.
    apply elem_of_list_filter in Hh as [_ Hh].
    apply negb_true_iff, String.eqb_neq in Hh. done.
  - eapply sublist_NoDup; [exact Hnd|]. apply fmap_sublist, list_filter_sublist.
Qed.

(** X11. The playback history after any sequence of
    [setCurrentChannel] calls, starting from the empty history: it never
    holds more than 50 entries, never two entries for the same channel,
    and when the last call played a channel, that channel is the current
    one and heads the history with the time and playlist of that call. *)
Theorem history_is_bounded_and_duplicate_free (plays : list play) :
  let st := played plays in
  (length (Playback.history st) <= 50)%nat
  /\ NoDup (HistoryItem.channelId <$> Playback.history st)
  /\ forall before now active c,
       plays = before ++ [(now, active, Some c)] ->
       Playback.currentChannel st = Some c
       /\ head (Playback.history st)
          = Some (HistoryItem.mk (Channel.id c) (Channel.name c)
                    (Js.or_str active EmptyString) now (Channel.logo c)).
Proof.
  intros st. split; [|split].
  - unfold st, played. clear st.
    induction plays as [|[[now active] ch] plays IH] using rev_ind;
      [cbn; lia|].
    rewrite foldl_app. cbn [foldl]. unfold Playback.setCurrentChannel.
    destruct ch as [c|]; [|exact IH].
    rewrite addToHistory_history, length_take. lia.
  - unfold st, played. clear st.
    induction plays as [|[[now active] ch] plays IH] using rev_ind;
      [cbn; constructor|].
    rewrite foldl_app. cbn [foldl]. unfold Playback.setCurrentChannel.
    destruct ch as [c|]; [|exact IH].
    by apply addToHistory_NoDup.
  - intros before now active c ->. unfold st, played.
    rewrite foldl_app. cbn [foldl]. unfold Playback.setCurrentChannel.
    split; [done|]. by rewrite addToHistory_history.
Qed.

(** * Series episodes (lib/m3uParser.ts, components/SeriesDrawer.tsx) *)

Section EpisodeFacts.
Variable uuid : nat -> string.
Variable proxyEnv : option string.

Lemma season_loop baseUrl creds seriesId seriesName seriesInfo seasonNum
    (eps : list Xtream.episode) : forall acc : list Channel,
  foldl (fun episodes ep =>
           episodes ++
           [Xtream.episodeChannel uuid proxyEnv baseUrl creds seriesId
              seriesName seriesInfo seasonNum (length episodes) ep])
    acc eps
  = acc ++ imap (fun j ep =>
                   Xtream.episodeChannel uuid proxyEnv baseUrl creds seriesId
                     seriesName seriesInfo seasonNum (length acc + j) ep) eps.
Proof.
  induction eps as [|ep eps IH]; intros acc; cbn [foldl imap].
  - by rewrite app_nil_r.
  - rewrite IH, <- app_assoc. cbn [app]. f_equal. f_equal.
    + f_equal. lia.
    + apply imap_ext. intros j ep' _. cbn. rewrite length_app. cbn.
      f_equal. lia.
Qed.

Lemma seasons_loop baseUrl creds seriesId seriesName seriesInfo
    (seasons : list (string * list Xtream.episode)) : forall acc : list Channel,
  foldl (fun episodes '(seasonNum, seasonEpisodes) =>
           foldl (fun episodes ep =>
                    episodes ++
                    [Xtream.episodeChannel uuid proxyEnv baseUrl creds seriesId
                       seriesName seriesInfo seasonNum (length episodes) ep])
             episodes seasonEpisodes)
    acc seasons
  = acc ++ imap (fun j '(seasonNum, ep) =>
                   Xtream.episodeChannel uuid proxyEnv baseUrl creds seriesId
                     seriesName seriesInfo seasonNum (length acc + j) ep)
             (concat ((fun season : string * list Xtream.episode =>
                         (fun ep => (season.1, ep)) <$> season.2)
                        <$> seasons)).
Proof.
  induction seasons as [|[k eps] seasons IH]; intros acc; cbn [foldl].
  - cbn. by rewrite app_nil_r.
  - rewrite IH, season_loop. rewrite fmap_cons, concat_cons, imap_app.
    rewrite <- app_assoc. f_equal. f_equal.
    + rewrite imap_fmap. apply imap_ext. by intros j ep _.
    + apply imap_ext. intros j [k' ep] _. cbn.
      rewrite length_app, length_imap, length_fmap. f_equal. lia.
Qed.

(** The channels of a reply: one for each episode listed, in order, the
    n-th with the n-th identifier drawn. *)
Lemma seasonsChannels_imap baseUrl creds seriesId seriesName seriesInfo :
  Xtream.seasonsChannels uuid proxyEnv baseUrl creds seriesId seriesName
    seriesInfo
  = imap (fun n '(seasonNum, ep) =>
            Xtream.episodeChannel uuid proxyEnv baseUrl creds seriesId
              seriesName seriesInfo seasonNum n ep)
      (listed_episodes seriesInfo).
Proof.
  unfold Xtream.seasonsChannels. rewrite seasons_loop. reflexivity.
Qed.

Lemma createStreamUrl_nonempty originalUrl :
  Xtream.createStreamUrl proxyEnv originalUrl <> EmptyString.
Proof.
  unfold Xtream.createStreamUrl, STREAM_PROXY_URL, Js.or_str.
  destruct proxyEnv as [[|a s]|]; cbn; discriminate.
Qed.

Lemma elem_of_seasonsChannels baseUrl creds seriesId seriesName seriesInfo c :
  c ∈ Xtream.seasonsChannels uuid proxyEnv baseUrl creds seriesId seriesName
        seriesInfo ->
  exists n seasonNum ep,
    (seasonNum, ep) ∈ listed_episodes seriesInfo
    /\ c = Xtream.episodeChannel uuid proxyEnv baseUrl creds seriesId
             seriesName seriesInfo seasonNum n ep.
Proof.
  rewrite seasonsChannels_imap. intros Hc.
  apply elem_of_lookup_imap_1 in Hc as (n & [k ep] & -> & Hn).
  exists n, k, ep. split; [|done]. by eapply list_elem_of_lookup_2.
Qed.
End EpisodeFacts.


(** What a successful run of the three families returns: the live
    channels, then the movies, then the series placeholders. *)
Lemma fetchFamilies_Ok srv uuid proxyEnv baseUrl creds channels :
  Xtream.outcome (Xtream.fetchFamilies srv uuid proxyEnv baseUrl creds)
    = Ok channels ->
  exists liveCats lives vodCats vods seriesCats shows,
    channels =
      imap (Xtream.liveChannel uuid proxyEnv baseUrl creds liveCats) lives
      ++ imap (fun j => Xtream.vodChannel uuid proxyEnv baseUrl creds vodCats
                          (length lives + j)) vods
      ++ imap (fun j => Xtream.showChannel uuid seriesCats
                          (length lives + length vods + j)) shows.
Proof.
  unfold Xtream.fetchFamilies.
  unfold mbind, Xtream.M_bind, Xtream.call, Xtream.lift, Xtream.onProgress,
    Xtream.all2, mret, Xtream.M_ret.
  cbn [Xtream.outcome Xtream.log].
  destruct (Xtream.auth srv _) as [authData|]; [|done].
  cbn [Xtream.outcome Xtream.log].
  destruct (Xtream.checkAccount authData); [|done].
  cbn [Xtream.outcome Xtream.log].
  destruct (Xtream.categories srv _) as [liveCategories|]; [|done].
  destruct (Xtream.live_streams srv _) as [liveStreams|]; [|done].
  cbn [Xtream.outcome Xtream.log].
  destruct (Xtream.categories srv _) as [vodCategories|]; [|done].
  destruct (Xtream.vod_streams srv _) as [vodStreams|]; [|done].
  cbn [Xtream.outcome Xtream.log].
  destruct (Xtream.categories srv _) as [seriesCategories|]; [|done].
  destruct (Xtream.series_list srv _) as [seriesList|]; [|done].
  cbn [Xtream.outcome Xtream.log].
  intros [= <-].
  exists (Xtream.catMap liveCategories), (default [] liveStreams),
    (Xtream.catMap vodCategories), (default [] vodStreams),
    (Xtream.catMap seriesCategories), (default [] seriesList).
  rewrite <- app_assoc. f_equal. f_equal.
  - apply imap_ext. intros j v _. cbn. by rewrite length_imap.
  - apply imap_ext. intros j v _. cbn.
    by rewrite length_app, !length_imap.
Qed.

Lemma fetchXtreamChannels_Ok srv uuid proxyEnv creds channels :
  Xtream.outcome (Xtream.fetchXtreamChannels srv uuid proxyEnv creds)
    = Ok channels ->
  channels <> []
  /\ Xtream.outcome
       (Xtream.fetchFamilies srv uuid proxyEnv
          (Re.replace_first re_trailing_slash EmptyString (Xtream.url creds))
          creds) = Ok channels.
Proof.
  unfold Xtream.fetchXtreamChannels.
  set (m := Xtream.fetchFamilies _ _ _ _ _).
  unfold mbind, Xtream.M_bind, Xtream.catch.
  destruct (Xtream.outcome m) as [cs|e] eqn:E.
  - rewrite E. destruct cs as [|c cs]; cbn; [done|].
    intros [= <-]. done.
  - cbn [Xtream.outcome Xtream.log]. unfold Xtream.rethrow.
    destruct e as [name message|]; [|done].
    by destruct (_ || _).
Qed.

(** X13. What a successful [fetchXtreamChannels] returns is never empty:
    the live channels come first, then the movies, then the series, the
    n-th channel bearing the n-th identifier drawn.  Live channels and
    movies have a playback URL through the stream proxy and their
    original URL beside it; a series is a placeholder whose URL is empty
    and which has no episode number. *)
Theorem fetchXtreamChannels_live_movies_series
    (srv : Xtream.server) (uuid : nat -> string) (proxyEnv : option string)
    (creds : Xtream.credentials) (channels : list Channel) :
  Xtream.outcome (Xtream.fetchXtreamChannels srv uuid proxyEnv creds)
    = Ok channels ->
  channels <> []
  /\ Channel.id <$> channels = uuid <$> seq 0 (length channels)
  /\ (exists nl nv ns,
        Channel.contentType <$> channels =
        replicate nl live ++ replicate nv movie ++ replicate ns series)
  /\ Forall (fun c =>
               match Channel.contentType c with
               | series =>
                   Channel.url c = EmptyString
                   /\ Channel.episodeNum c = None
                   /\ is_Some (Channel.seriesId c)
               | _ =>
                   exists originalUrl,
                     Channel.originalUrl c = Some originalUrl
                     /\ Channel.url c
                        = Xtream.createStreamUrl proxyEnv originalUrl
               end)
       channels.
Proof.
  intros H. apply fetchXtreamChannels_Ok in H as [Hne H].
  apply fetchFamilies_Ok in H
    as (liveCats & lives & vodCats & vods & seriesCats & shows & ->).
  split; [done|]. split; [|split].
  - rewrite !fmap_app, !length_app, !length_imap.
    rewrite !seq_app, !fmap_app. cbn [Nat.add]. f_equal; [|f_equal].
    + apply list_eq. intros i. rewrite !list_lookup_fmap, list_lookup_imap.
      destruct (lives !! i) eqn:E; cbn.
      * apply lookup_lt_Some in E. by rewrite lookup_seq_lt by lia.
      * apply lookup_ge_None in E. by rewrite lookup_seq_ge by lia.
    + apply list_eq. intros i. rewrite !list_lookup_fmap, list_lookup_imap.
      destruct (vods !! i) eqn:E; cbn.
      * apply lookup_lt_Some in E. by rewrite lookup_seq_lt by lia.
      * apply lookup_ge_None in E. by rewrite lookup_seq_ge by lia.
    + apply list_eq. intros i. rewrite !list_lookup_fmap, list_lookup_imap.
      destruct (shows !! i) eqn:E; cbn.
      * apply lookup_lt_Some in E. by rewrite lookup_seq_lt by lia.
      * apply lookup_ge_None in E. by rewrite lookup_seq_ge by lia.
  - exists (length lives), (length vods), (length shows).
    rewrite !fmap_app. f_equal; [|f_equal].
    + apply list_eq. intros i. rewrite list_lookup_fmap, list_lookup_imap.
      destruct (lives !! i) eqn:E; cbn.
      * apply lookup_lt_Some in E. by rewrite lookup_replicate_2.
      * apply lookup_ge_None in E. symmetry. apply lookup_ge_None.
        by rewrite length_replicate.
    + apply list_eq. intros i. rewrite list_lookup_fmap, list_lookup_imap.
      destruct (vods !! i) eqn:E; cbn.
      * apply lookup_lt_Some in E. by rewrite lookup_replicate_2.
      * apply lookup_ge_None in E. symmetry. apply lookup_ge_None.
        by rewrite length_replicate.
    + apply list_eq. intros i. rewrite list_lookup_fmap, list_lookup_imap.
      destruct (shows !! i) eqn:E; cbn.
      * apply lookup_lt_Some in E. by rewrite lookup_replicate_2.
      * apply lookup_ge_None in E. symmetry. apply lookup_ge_None.
        by rewrite length_replicate.
  - rewrite !Forall_app. repeat split; apply Forall_forall; intros c Hc;
      apply elem_of_lookup_imap_1 in Hc as (n & x & -> & _); cbn;
      by eauto.
Qed.

Lemma fetchXtreamChannels_live_movies_series_witness :
  let m :=
    Xtream.fetchXtreamChannels accepting_server Sample.counterId None
      (Xtream.mkCredentials "http://tv.example:8080/" "u" "p") in
  exists channels,
    Xtream.outcome m = Ok channels
    /\ channels <> []
    /\ Channel.id <$> channels = Sample.counterId <$> seq 0 (length channels).
Proof.
  intros m. destruct (Xtream.outcome m) as [channels|] eqn:E;
    [|vm_compute in E; discriminate].
  exists channels. split; [done|].
  destruct (fetchXtreamChannels_live_movies_series _ _ _ _ _ E)
    as (H1 & H2 & _).
  done.
Defined.

(** X14. The filter with which the series drawer picks the cached
    episodes of a series accepts every channel that
    [fetchXtreamSeriesEpisodes] builds for that series, and rejects,
    whatever the series, every series placeholder that
    [fetchXtreamChannels] returns: a placeholder never passes for an
    episode. *)
Theorem drawer_takes_episodes_and_never_placeholders
    (uuid : nat -> string) (proxyEnv : option string) :
  (forall baseUrl creds seriesId seriesName seriesInfo c,
     c ∈ Xtream.seasonsChannels uuid proxyEnv baseUrl creds seriesId
           seriesName seriesInfo ->
     SeriesDrawer.isEpisodeOf seriesId seriesName c = true)
  /\ (forall srv creds channels c seriesId seriesName,
        Xtream.outcome (Xtream.fetchXtreamChannels srv uuid proxyEnv creds)
          = Ok channels ->
        c ∈ channels -> Channel.contentType c = series ->
        SeriesDrawer.isEpisodeOf seriesId seriesName c = false).
Proof.
  split.
  - intros baseUrl creds seriesId seriesName seriesInfo c Hc.
    apply elem_of_seasonsChannels in Hc as (n & k & ep & _ & ->).
    unfold SeriesDrawer.isEpisodeOf.
    cbn [Channel.url Channel.episodeNum Channel.seriesId
         Xtream.episodeChannel].
    match goal with
    | |- context [String.eqb (Xtream.createStreamUrl ?e ?u) EmptyString] =>
        destruct (String.eqb_spec (Xtream.createStreamUrl e u) EmptyString)
          as [E|_]
    end.
    + by apply createStreamUrl_nonempty in E.
    + by rewrite bool_decide_eq_true_2.
  - intros srv creds channels c seriesId seriesName H Hc Ht.
    apply fetchXtreamChannels_Ok in H as [_ H].
    apply fetchFamilies_Ok in H
      as (liveCats & lives & vodCats & vods & seriesCats & shows & ->).
    rewrite !elem_of_app in Hc. destruct Hc as [Hc|[Hc|Hc]];
      apply elem_of_lookup_imap_1 in Hc as (n & x & -> & _);
      try discriminate Ht.
    reflexivity.
Qed.

(** * Sorting, as [Array.prototype.sort] does it *)

Section SortFacts.
Context {A : Type}.
Variable cmp : A -> A -> comparison.

Lemma insert_Permutation x l : Js.insert cmp x l ≡ₚ x :: l.
Proof.
  induction l as [|y l IH]; [done|]. cbn [Js.insert].
  destruct (cmp x y); [done|done|].
  rewrite IH. apply Permutation_swap.
Qed.

Lemma sort_Permutation l : Js.sort cmp l ≡ₚ l.
Proof.
  induction l as [|x l IH]; [done|].
  cbn [Js.sort foldr]. rewrite insert_Permutation. by f_equiv.
Qed.

Lemma elem_of_sort x l : x ∈ Js.sort cmp l <-> x ∈ l.
Proof. by rewrite sort_Permutation. Qed.

Lemma length_sort l : length (Js.sort cmp l) = length l.
Proof. by rewrite sort_Permutation. Qed.

(** Sorting by a key in Z, the comparator being the sign of the
    difference of the keys. *)
Variable key : A -> Z.
Hypothesis cmp_key : forall a b, cmp a b = (key a ?= key b).

Lemma insert_sorted_by_key x l :
  StronglySorted (fun a b => key a <= key b) l ->
  StronglySorted (fun a b => key a <= key b) (Js.insert cmp x l).
Proof.
  induction 1 as [|y l Hl IH Hy]; cbn [Js.insert].
  - repeat constructor.
  - rewrite cmp_key. destruct (Z.compare_spec (key x) (key y)) as [E|E|E].
    + constructor; [by constructor|]. constructor; [lia|].
      eapply Forall_impl; [exact Hy|]. cbn. intros; lia.
    + constructor; [by constructor|]. constructor; [lia|].
      eapply Forall_impl; [exact Hy|]. cbn. intros; lia.
    + constructor; [exact IH|].
      rewrite insert_Permutation. constructor; [lia|exact Hy].
Qed.

Lemma sort_sorted_by_key l :
  StronglySorted (fun a b => key a <= key b) (Js.sort cmp l).
Proof.
  induction l as [|x l IH]; [constructor|].
  cbn [Js.sort foldr]. by apply insert_sorted_by_key.
Qed.
End SortFacts.

Lemma insert_ext_in {A : Type} (cmp cmp' : A -> A -> comparison) x (s : list A) :
  (forall y, y ∈ s -> cmp x y = cmp' x y) ->
  Js.insert cmp x s = Js.insert cmp' x s.
Proof.
  induction s as [|y s IH]; intros H; [done|]. cbn [Js.insert].
  rewrite <- (H y) by (apply elem_of_cons; by left).
  destruct (cmp x y); try done. f_equal. apply IH.
  intros z Hz. apply H, elem_of_cons. by right.
Qed.

(** The result depends on the comparator on the elements sorted only. *)
Lemma sort_ext_in {A : Type} (cmp cmp' : A -> A -> comparison) (l : list A) :
  (forall a b, a ∈ l -> b ∈ l -> cmp a b = cmp' a b) ->
  Js.sort cmp l = Js.sort cmp' l.
Proof.
  induction l as [|x l IH]; intros H; [done|].
  cbn [Js.sort foldr]. fold (Js.sort cmp l). fold (Js.sort cmp' l).
  rewrite <- IH by (intros; apply H; by apply elem_of_cons; right).
  apply insert_ext_in. intros y Hy.
  apply H; [apply elem_of_cons; by left|].
  apply elem_of_cons; right. by apply elem_of_sort in Hy.
Qed.

(** * Series drawer (components/SeriesDrawer.tsx) *)

Lemma num_eqb_eq (a b : Js.num) : Js.num_eqb a b = true <-> a = b.
Proof.
  destruct a as [|x], b as [|y]; cbn; try (split; congruence).
  rewrite Z.eqb_eq. split; congruence.
Qed.

Lemma or_num_Int (a : option Js.num) (z : Z) :
  exists z', Js.or_num a (Js.Int z) = Js.Int z'.
Proof.
  destruct a as [[|x]|]; cbn; eauto. destruct (x =? 0); cbn; eauto.
Qed.

Lemma seasonMap_push_cons k e s eps m :
  SeriesDrawer.seasonMap_push k e ((s, eps) :: m) =
  if Js.num_eqb s k then (s, eps ++ [e]) :: m
  else (s, eps) :: SeriesDrawer.seasonMap_push k e m.
Proof. reflexivity. Qed.

Lemma seasonMap_push_keys k e m :
  (SeriesDrawer.seasonMap_push k e m).*1 =
  if bool_decide (k ∈ m.*1) then m.*1 else m.*1 ++ [k].
Proof.
  induction m as [|[s eps] m IH].
  - cbn. by rewrite bool_decide_eq_false_2 by apply not_elem_of_nil.
  - rewrite seasonMap_push_cons. destruct (Js.num_eqb s k) eqn:E.
    + apply num_eqb_eq in E as ->. cbn.
      rewrite bool_decide_eq_true_2; [done|]. apply elem_of_cons. by left.
    + assert (s <> k) as Hne.
      { intros ->. by rewrite (proj2 (num_eqb_eq k k) eq_refl) in E. }
      rewrite !fmap_cons. cbn [fst]. rewrite IH.
      case_bool_decide as Hin.
      * rewrite bool_decide_eq_true_2; [done|]. apply elem_of_cons. by right.
      * rewrite bool_decide_eq_false_2; [done|].
        intros [?|?]%elem_of_cons; congruence.
Qed.

Lemma seasonMap_push_concat k e m :
  concat (SeriesDrawer.seasonMap_push k e m).*2 ≡ₚ concat m.*2 ++ [e].
Proof.
  induction m as [|[s eps] m IH].
  - done.
  - rewrite seasonMap_push_cons. destruct (Js.num_eqb s k).
    + rewrite !fmap_cons. cbn [snd concat].
      rewrite <- !app_assoc. f_equiv. apply Permutation_app_comm.
    + rewrite !fmap_cons. cbn [snd concat]. rewrite IH. by rewrite app_assoc.
Qed.

Lemma seasonMap_push_Forall (P : Js.num * list Channel -> Prop) k e m :
  Forall P m ->
  P (k, [e]) ->
  (forall eps, P (k, eps) -> P (k, eps ++ [e])) ->
  Forall P (SeriesDrawer.seasonMap_push k e m).
Proof.
  intros Hm Hnew Hadd.
  induction Hm as [|[s eps] m Hp Hm IH].
  - by constructor.
  - rewrite seasonMap_push_cons. destruct (Js.num_eqb s k) eqn:E.
    + apply num_eqb_eq in E as ->. constructor; [by apply Hadd|done].
    + by constructor.
Qed.

Lemma seasonMap_holds_all (episodes : list Channel) :
  seasonMap_holds (SeriesDrawer.seasonMap episodes) episodes.
Proof.
  unfold SeriesDrawer.seasonMap.
  induction episodes as [|e episodes IH] using rev_ind.
  - split; [constructor|]. split; [done|constructor].
  - rewrite foldl_app. cbn [foldl].
    destruct IH as (Hk & Hc & Hf). split; [|split].
    + rewrite seasonMap_push_keys. case_bool_decide as Hin; [done|].
      apply NoDup_app. split; [done|]. split; [|apply NoDup_singleton].
      intros x Hx ->%list_elem_of_singleton. done.
    + by rewrite seasonMap_push_concat, Hc.
    + apply seasonMap_push_Forall; [done|..].
      * cbn. split; [done|]. split; [by repeat constructor|].
        apply or_num_Int.
      * intros eps (Hne & Hall & Hz). cbn in *. split; [|split; [|done]].
        { by destruct eps. }
        { apply Forall_app. split; [done|]. by repeat constructor. }
Qed.

Lemma episode_of_Int (ep : Channel) :
  SeriesDrawer.episode_of ep = Js.Int (num_z (SeriesDrawer.episode_of ep)).
Proof.
  unfold SeriesDrawer.episode_of.
  destruct (or_num_Int (Channel.episodeNum ep) 0) as [z ->]. done.
Qed.

Lemma sorted_strict {A : Type} (key : A -> Z) (l : list A) :
  StronglySorted (fun a b => key a <= key b) l ->
  NoDup (key <$> l) ->
  StronglySorted (fun a b => key a < key b) l.
Proof.
  induction 1 as [|x l Hl IH Hx]; intros Hnd; [constructor|].
  rewrite fmap_cons in Hnd. apply NoDup_cons in Hnd as [Hx' Hnd].
  constructor; [by apply IH|].
  apply Forall_forall. intros y Hy.
  rewrite Forall_forall in Hx. specialize (Hx y Hy).
  assert (key x <> key y); [|lia].
  intros E. apply Hx'. rewrite E. by apply list_elem_of_fmap_2.
Qed.

Lemma StronglySorted_impl_in {A : Type} (R R' : A -> A -> Prop) (l : list A) :
  StronglySorted R l ->
  (forall a b, a ∈ l -> b ∈ l -> R a b -> R' a b) ->
  StronglySorted R' l.
Proof.
  induction 1 as [|x l Hl IH Hx]; intros H; [constructor|].
  constructor.
  - apply IH. intros a b Ha Hb. apply H; apply elem_of_cons; by right.
  - apply Forall_forall. intros y Hy. rewrite Forall_forall in Hx.
    apply H; [apply elem_of_cons; by left|apply elem_of_cons; by right|].
    by apply Hx.
Qed.

Lemma concat_sorted_lists (cmp : Channel -> Channel -> comparison)
    (m : list (Js.num * list Channel)) :
  concat (Season.episodes <$>
            ((fun '(seasonNum, episodes) =>
                Season.mk seasonNum (Js.sort cmp episodes)) <$> m))
  ≡ₚ concat m.*2.
Proof.
  induction m as [|[k l] m IH]; [done|].
  rewrite !fmap_cons. cbn [concat snd Season.episodes].
  by rewrite sort_Permutation, IH.
Qed.

(** X15. [processEpisodes] sorts the episodes into seasons: every
    episode is in exactly one season, the one of its season number (1
    when it has none or it is zero); no season is empty; the seasons
    come in strictly ascending order of their numbers, and the episodes
    of a season in ascending order of their episode numbers. *)
Theorem processEpisodes_sorts_into_seasons (episodes : list Channel) :
  let seasons := SeriesDrawer.processEpisodes episodes in
  concat (Season.episodes <$> seasons) ≡ₚ episodes
  /\ StronglySorted
       (fun a b => num_lt (Season.seasonNum a) (Season.seasonNum b)) seasons
  /\ Forall (fun s =>
               Season.episodes s <> []
               /\ Forall (fun ep =>
                            SeriesDrawer.season_of ep = Season.seasonNum s)
                    (Season.episodes s)
               /\ StronglySorted
                    (fun a b => num_le (SeriesDrawer.episode_of a)
                                  (SeriesDrawer.episode_of b))
                    (Season.episodes s))
       seasons.
Proof.
  intros seasons. unfold seasons, SeriesDrawer.processEpisodes. clear seasons.
  destruct (seasonMap_holds_all episodes) as (Hk & Hc & Hf).
  set (m := SeriesDrawer.seasonMap episodes) in *.
  set (cmpE := fun a b : Channel => _).
  set (cmpS := fun a b : Season => _).
  set (mapped := (fun '(seasonNum, eps) => Season.mk seasonNum (Js.sort cmpE eps))
                   <$> m).
  assert (Hkeys : Season.seasonNum <$> mapped = m.*1).
  { unfold mapped. rewrite <- list_fmap_compose. apply list_fmap_ext.
    by intros _ [k l] _. }
  assert (HInt : forall s, s ∈ mapped ->
    Season.seasonNum s = Js.Int (num_z (Season.seasonNum s))).
  { intros s (kl & -> & Hkl)%list_elem_of_fmap. destruct kl as [k l].
    rewrite Forall_forall in Hf. destruct (Hf _ Hkl) as (_ & _ & z & Hz).
    cbn in *. by rewrite Hz. }
  split; [|split].
  - rewrite sort_Permutation. unfold mapped.
    by rewrite concat_sorted_lists.
  - rewrite (sort_ext_in cmpS
      (fun a b => num_z (Season.seasonNum a) ?= num_z (Season.seasonNum b))).
    2:{ intros a b Ha Hb. unfold cmpS.
        rewrite (HInt a Ha), (HInt b Hb). done. }
    eapply StronglySorted_impl_in.
    + apply (sorted_strict (fun s => num_z (Season.seasonNum s))).
      * by apply sort_sorted_by_key.
      * rewrite sort_Permutation.
        rewrite (list_fmap_compose Season.seasonNum num_z).
        apply (NoDup_fmap_2_strong num_z).
        { intros a b (sa & -> & Ha)%list_elem_of_fmap
            (sb & -> & Hb)%list_elem_of_fmap E.
          by rewrite (HInt sa Ha), (HInt sb Hb), E. }
        by rewrite Hkeys.
    + intros a b Ha%elem_of_sort Hb%elem_of_sort Hlt.
      rewrite (HInt a Ha), (HInt b Hb). exact Hlt.
  - apply Forall_forall. intros s Hs%elem_of_sort.
    apply list_elem_of_fmap in Hs as ([k l] & -> & Hkl).
    rewrite Forall_forall in Hf. destruct (Hf _ Hkl) as (Hne & Hall & _).
    cbn [Season.episodes Season.seasonNum fst snd] in *.
    split; [|split].
    + intros E. apply Hne. apply (f_equal length) in E.
      rewrite length_sort in E. by destruct l.
    + apply Forall_forall. intros ep Hep%elem_of_sort.
      rewrite Forall_forall in Hall. by apply Hall.
    + eapply StronglySorted_impl_in.
      * apply (sort_sorted_by_key cmpE
                 (fun ep => num_z (SeriesDrawer.episode_of ep))).
        intros a b. unfold cmpE.
        by rewrite (episode_of_Int a), (episode_of_Int b).
      * intros a b _ _ Hle. cbn in Hle.
        by rewrite (episode_of_Int a), (episode_of_Int b).
Qed.

Lemma processEpisodes_Permutation (episodes : list Channel) :
  concat (Season.episodes <$> SeriesDrawer.processEpisodes episodes)
  ≡ₚ episodes.
Proof.
  unfold SeriesDrawer.processEpisodes.
  destruct (seasonMap_holds_all episodes) as (_ & Hc & _).
  by rewrite sort_Permutation, concat_sorted_lists.
Qed.

Lemma fetchXtreamSeriesEpisodes_log uuid proxyEnv get_series_info creds
    seriesId seriesName :
  Xtream.log (Xtream.fetchXtreamSeriesEpisodes uuid proxyEnv get_series_info
                creds seriesId seriesName)
  = [Xtream.Progress ("Fetching episodes for " +:+ seriesName +:+ "...");
     Xtream.Request (seriesInfoRequest creds seriesId)].
Proof.
  unfold Xtream.fetchXtreamSeriesEpisodes, seriesInfoRequest.
  set (req := Xtream.mkRequest _ _ _ _ _).
  unfold Xtream.catch, mbind, Xtream.M_bind, Xtream.onProgress, Xtream.call,
    Xtream.lift, Xtream.throw, mret, Xtream.M_ret.
  cbn [Xtream.outcome Xtream.log].
  by destruct (get_series_info req) as [[seriesInfo|]|e].
Qed.

Lemma length_list_filter {A : Type} (f : A -> bool) (l : list A) :
  (length (List.filter f l) <= length l)%nat.
Proof.
  induction l as [|x l IH]; [done|]. cbn [List.filter].
  destruct (f x); cbn [length]; lia.
Qed.

(** X16. The series drawer looks in the local store first, and there
    only at the first 100 series records of the playlist, the default
    window of [getChannels].  When it finds an episode of the series
    among them, it shows what it found (never more than 100 episodes),
    makes no request and leaves the store as it is.  A request is made
    only when nothing was found and the playlist is an Xtream playlist;
    for an M3U playlist the drawer never goes to the network and never
    writes to the store. *)
Theorem drawer_reads_the_cache_first
    (uuid : nat -> string) (proxyEnv : option string)
    (get_series_info : Xtream.request -> Exc (option Xtream.series_info))
    (pl : Playlist) (seriesId seriesName : string)
    (selected : option Js.num) (db : DB.t) :
  let o :=
    SeriesDrawer.fetchEpisodes uuid proxyEnv get_series_info pl seriesId
      seriesName selected db in
  let cached := cached_episodes db pl seriesId seriesName in
  (length cached <= 100)%nat
  /\ (cached <> [] ->
        SeriesDrawer.network o = [] /\ SeriesDrawer.store o = db
        /\ concat (Season.episodes <$> SeriesDrawer.seasons o) ≡ₚ cached)
  /\ (SeriesDrawer.network o <> [] ->
        cached = [] /\ Playlist.type pl = xtream)
  /\ (Playlist.type pl = m3u ->
        SeriesDrawer.network o = [] /\ SeriesDrawer.store o = db)
  /\ (SeriesDrawer.store o <> db -> SeriesDrawer.network o <> []).
Proof.
  intros o cached.
  assert (Hlen : (length cached <= 100)%nat).
  { unfold cached, cached_episodes. etrans; [apply length_list_filter|].
    unfold DB.getChannels, DB.slice. cbn. rewrite length_take. lia. }
  split; [exact Hlen|].
  unfold o, SeriesDrawer.fetchEpisodes.
  change (List.filter (SeriesDrawer.isEpisodeOf seriesId seriesName) _)
    with cached.
  clearbody cached. destruct cached as [|c rest].
  - cbn [length Nat.ltb Nat.leb].
    split; [done|].
    destruct (Playlist.type pl) eqn:Et.
    { repeat split; try done; intros H; by cbn in H. }
    destruct (Playlist.xtreamUrl pl) as [xu|];
      [|repeat split; try done; intros H; by cbn in H].
    destruct (Playlist.xtreamUser pl) as [xn|];
      [|repeat split; try done; intros H; by cbn in H].
    destruct (Playlist.xtreamPass pl) as [xp|];
      [|repeat split; try done; intros H; by cbn in H].
    destruct (negb _ && negb _ && negb _);
      [|repeat split; try done; intros H; by cbn in H].
    pose proof (fetchXtreamSeriesEpisodes_log uuid proxyEnv get_series_info
                  (Xtream.mkCredentials xu xn xp) seriesId seriesName) as Hlog.
    destruct (Xtream.outcome _) as [eps|e];
      cbn [SeriesDrawer.network SeriesDrawer.store SeriesDrawer.show];
      rewrite Hlog; repeat split; try done.
  - change (0 <? length (c :: rest))%nat with true. cbv iota.
    cbn [SeriesDrawer.show SeriesDrawer.network SeriesDrawer.store
         SeriesDrawer.seasons].
    split.
    { intros _. split; [done|]. split; [done|].
      apply processEpisodes_Permutation. }
    repeat split; try done.
Qed.

(** * Category menu (hooks/useGroupsFromDB.ts) *)

(** ** Matches at the end of a text *)

Lemma search_app r n (pre suf : list ascii) :
  is_Some (Re.match_at r n suf) -> is_Some (Re.search r n (pre ++ suf)).
Proof.
  intros Hm. induction pre as [|a pre IH].
  - cbn [app]. destruct suf as [|b suf]; cbn [Re.search];
      destruct Hm as [m ->]; by eexists.
  - cbn [app Re.search].
    destruct (Re.match_at r n (a :: pre ++ suf)); [by eexists|exact IH].
Qed.

Lemma test_app r (pre suf : string) :
  (forall n, is_Some (Re.match_at r n (list_ascii_of_string suf))) ->
  Re.test r (pre +:+ suf) = true.
Proof.
  intros Hm. unfold Re.test, Re.exec.
  rewrite list_ascii_of_string_app.
  destruct (search_app r
              (length (list_ascii_of_string pre ++ list_ascii_of_string suf))
              (list_ascii_of_string pre) (list_ascii_of_string suf) (Hm _))
    as [m ->].
  done.
Qed.

(** A greedy run of digits takes all the digits there are, when what
    follows accepts the end of the text. *)
Lemma digits_loop_body {R : Type}
    (body : list ascii -> Re.caps -> (list ascii -> Re.caps -> option R)
            -> option R)
    (k : list ascii -> Re.caps -> option R) (ds : list ascii) :
  (forall a t c k', Js.is_digit a = true -> body (a :: t) c k' = k' t c) ->
  forall fuel cnt c x,
  Forall (fun a => Js.is_digit a = true) ds ->
  (length ds <= fuel)%nat ->
  (ds = [] -> (1 <= cnt)%nat) ->
  k [] c = Some x ->
  is_Some (Re.repeat_loop body true 1 None k fuel cnt ds c).
Proof.
  intros Hbody.
  induction ds as [|a ds IH]; intros fuel cnt c x Hd Hfuel Hcnt Hk.
  - specialize (Hcnt eq_refl).
    assert ((1 <=? cnt)%nat = true) as Hle by (apply Nat.leb_le; lia).
    destruct fuel as [|fuel]; cbn [Re.repeat_loop]; rewrite Hle, Hk.
    + by eexists.
    + by destruct (if Re.below None cnt then _ else _); eexists.
  - destruct fuel as [|fuel]; [cbn in Hfuel; lia|].
    apply Forall_cons in Hd as [Ha Hd].
    cbn [Re.repeat_loop Re.below]. rewrite (Hbody a ds c _ Ha).
    assert ((length ds <? length (a :: ds))%nat = true) as ->.
    { apply Nat.ltb_lt. cbn. lia. }
    cbn [orb].
    destruct (IH fuel (S cnt) c x Hd) as [y ->]; [cbn in Hfuel; lia|lia|done|].
    by eexists.
Qed.

Lemma digits_loop {R : Type} n (k : list ascii -> Re.caps -> option R)
    (ds : list ascii) fuel cnt c x :
  Forall (fun a => Js.is_digit a = true) ds ->
  (length ds <= fuel)%nat ->
  (ds = [] -> (1 <= cnt)%nat) ->
  k [] c = Some x ->
  is_Some (Re.repeat_loop (Re.rmatch Re.digit n) true 1 None k fuel cnt ds c).
Proof.
  apply digits_loop_body. intros a t c' k' Ha. cbn. by rewrite Ha.
Qed.

(** ** The decimal form of a number *)

Lemma pretty_N_char_digit (x : N) : Js.is_digit (pretty_N_char x) = true.
Proof. unfold pretty_N_char. by repeat case_match. Qed.

Lemma pretty_N_go_digits (x : N) : forall s,
  Forall (fun a => Js.is_digit a = true) (list_ascii_of_string s) ->
  Forall (fun a => Js.is_digit a = true)
    (list_ascii_of_string (pretty_N_go x s))
  /\ ((0 < x)%N -> pretty_N_go x s <> EmptyString).
Proof.
  induction (N.lt_wf_0 x) as [x _ IH]. intros s Hs.
  destruct (decide (0 < x)%N) as [Hx|Hx].
  - rewrite pretty_N_go_step by done.
    destruct (IH (x `div` 10)%N) with
      (s := String (pretty_N_char (x `mod` 10)) s) as [H1 H2].
    { by apply N.div_lt. }
    { cbn. constructor; [apply pretty_N_char_digit|done]. }
    split; [done|]. intros _.
    destruct (decide (0 < x `div` 10)%N) as [Hq|Hq]; [by apply H2|].
    apply N.nlt_ge, N.le_0_r in Hq. rewrite Hq. by rewrite pretty_N_go_0.
  - assert (x = 0%N) as -> by lia. rewrite pretty_N_go_0. split; [done|lia].
Qed.

(** The decimal form of a non-negative integer is a non-empty run of
    digits. *)
Lemma pretty_Z_digits (z : Z) :
  0 <= z ->
  list_ascii_of_string (pretty z) <> []
  /\ Forall (fun a => Js.is_digit a = true) (list_ascii_of_string (pretty z)).
Proof.
  intros Hz. destruct z as [|p|p]; [by repeat constructor| |lia].
  unfold pretty, pretty_Z, pretty, pretty_positive, pretty, pretty_N.
  rewrite decide_False by done.
  destruct (pretty_N_go_digits (N.pos p) EmptyString) as [H1 H2];
    [constructor|].
  split; [|done]. intros E. apply H2; [lia|].
  destruct (pretty_N_go (N.pos p) EmptyString); [done|discriminate E].
Qed.

Lemma season_group_matches n (ds : list ascii) :
  ds <> [] -> Forall (fun a => Js.is_digit a = true) ds ->
  is_Some (Re.match_at re_season_group n
             (list_ascii_of_string " - Season " ++ ds)).
Proof.
  intros Hne Hd. unfold Re.match_at, re_season_group.
  cbn -[Re.repeat_loop Re.digit Nat.sub]. rewrite !Ascii.eqb_refl.
  eapply digits_loop; [exact Hd|lia|done|reflexivity].
Qed.

Lemma elem_of_filterAndSortGroups localeCompare groups g :
  g ∈ filterAndSortGroups localeCompare groups <->
  g ∈ groups /\ Re.test re_season_group g = false
  /\ Re.test re_temporada_group g = false /\ Re.test re_SE g = false.
Proof.
  unfold filterAndSortGroups. rewrite elem_of_sort, elem_of_list_filter.
  destruct (Re.test re_season_group g), (Re.test re_temporada_group g),
    (Re.test re_SE g); naive_solver.
Qed.

(** X17. The category menu lists the groups the store reports, less
    those that look like the season of a series (a name that ends in
    " - Season " or " - Temporada " and a number, or that holds an
    episode tag such as S01E02).  In particular the group under which
    [fetchXtreamSeriesEpisodes] files the episodes of a season with a
    non-negative number, the name of the series followed by
    " - Season " and the number, never shows up in the menu, whatever
    the series is called. *)
Theorem season_groups_stay_out_of_the_menu
    (localeCompare : string -> string -> comparison) (groups : list string) :
  filterAndSortGroups localeCompare groups
    ≡ₚ filter (fun g => Re.test re_season_group g = false
                        /\ Re.test re_temporada_group g = false
                        /\ Re.test re_SE g = false) groups
  /\ (forall uuid proxyEnv baseUrl creds seriesId seriesName seriesInfo c z g,
        c ∈ Xtream.seasonsChannels uuid proxyEnv baseUrl creds seriesId
              seriesName seriesInfo ->
        Channel.seasonNum c = Some (Js.Int z) -> 0 <= z ->
        Channel.group c = Some g ->
        g = seriesName +:+ " - Season " +:+ pretty z
        /\ g ∉ filterAndSortGroups localeCompare groups).
Proof.
  split.
  - unfold filterAndSortGroups. rewrite sort_Permutation.
    induction groups as [|g groups IH]; [done|].
    cbn [List.filter]. rewrite filter_cons.
    destruct (Re.test re_season_group g), (Re.test re_temporada_group g),
      (Re.test re_SE g); case_decide; try naive_solver; by f_equiv.
  - intros uuid proxyEnv baseUrl creds seriesId seriesName seriesInfo c z g
      Hc Hs Hz Hg.
    apply elem_of_seasonsChannels in Hc as (n & k & ep & _ & ->).
    cbn [Channel.seasonNum Channel.group Xtream.episodeChannel] in Hs, Hg.
    injection Hs as Hs. rewrite Hs in Hg. cbn in Hg. injection Hg as <-.
    split; [done|].
    intros (_ & Hno & _)%elem_of_filterAndSortGroups.
    rewrite test_app in Hno; [done|].
    intros n'. destruct (pretty_Z_digits z Hz) as [Hne Hd].
    change (" - Season " +:+ pretty z)
      with (" - Season " +:+ pretty z)%string.
    rewrite list_ascii_of_string_app. by apply season_group_matches.
Qed.

(** * More of the M3U parser (lib/m3uParser.ts) *)



Section MoreParserFacts.
Variable newURL : string -> option URL.
Variable uuid : nat -> string.
Variable extinf : string -> Exc PartialChannel.


End MoreParserFacts.


(** * More of the stream proxy and of the playback URLs *)


Lemma join_lf_cons l (ls : list string) :
  ls <> [] -> Proxy.join_lf (l :: ls) = l +:+ String LF (Proxy.join_lf ls).
Proof. by destruct ls. Qed.







(** ** Percent-encoding loses nothing *)

Lemma hex_val_hex_digit (n : N) : (n < 16)%N -> hex_val (hex_digit n) = n.
Proof.
  intros Hn.
  destruct n as [|p]; [done|].
  do 4 (destruct p as [p|p|]; try (by vm_compute)); lia.
Qed.

Lemma code_lt_256 (a : ascii) : (Js.code a < 256)%N.
Proof. apply N_ascii_bounded. Qed.

Lemma code_inj (a b : ascii) : Js.code a = Js.code b -> a = b.
Proof.
  unfold Js.code. intros H.
  by rewrite <- (ascii_N_embedding a), <- (ascii_N_embedding b), H.
Qed.

Lemma hex_digits_inj (a b : ascii) :
  hex_digit (Js.code a / 16) = hex_digit (Js.code b / 16) ->
  hex_digit (Js.code a mod 16) = hex_digit (Js.code b mod 16) ->
  a = b.
Proof.
  intros Hq Hr. apply code_inj.
  pose proof (code_lt_256 a). pose proof (code_lt_256 b).
  apply (f_equal hex_val) in Hq, Hr.
  rewrite !hex_val_hex_digit in Hq, Hr
    by (try apply N.mod_lt; try apply N.Div0.div_lt_upper_bound; lia).
  rewrite (N.div_mod (Js.code a) 16), (N.div_mod (Js.code b) 16) by lia.
  by rewrite Hq, Hr.
Qed.

Lemma encode_bytes_inj (l1 : list ascii) : forall l2,
  encode_bytes l1 = encode_bytes l2 -> l1 = l2.
Proof.
  induction l1 as [|a l1 IH]; intros [|b l2]; cbn [encode_bytes].
  - done.
  - by destruct (uri_unreserved b).
  - by destruct (uri_unreserved a).
  - destruct (uri_unreserved a) eqn:Ea, (uri_unreserved b) eqn:Eb.
    + intros [= -> H]. f_equal. by apply IH.
    + intros [= -> _]. by vm_compute in Ea.
    + intros [= <- _]. by vm_compute in Eb.
    + intros [= Hq Hr H]. f_equal; [by apply hex_digits_inj|by apply IH].
Qed.

Lemma encodeURIComponent_inj (s1 s2 : string) :
  encodeURIComponent s1 = encodeURIComponent s2 -> s1 = s2.
Proof.
  unfold encodeURIComponent. intros H.
  apply (f_equal list_ascii_of_string) in H.
  rewrite !list_ascii_of_string_of_list_ascii in H.
  apply encode_bytes_inj in H.
  by rewrite <- (string_of_list_ascii_of_string s1),
    <- (string_of_list_ascii_of_string s2), H.
Qed.

Lemma string_app_inv_tail (a b t : string) : a +:+ t = b +:+ t -> a = b.
Proof.
  intros H. apply (f_equal list_ascii_of_string) in H.
  rewrite !list_ascii_of_string_app in H. apply app_inv_tail in H.
  by rewrite <- (string_of_list_ascii_of_string a),
    <- (string_of_list_ascii_of_string b), H.
Qed.

(** X20. The playback URL through the stream proxy determines the URL
    it stands for: [encodeURIComponent] maps different texts to
    different texts, so [createStreamUrl] never gives two sources the
    same playback URL.  Hence two live channels of one account have the
    same playback URL, the key under which an update keeps favorites,
    exactly when they are the same stream of the server; and likewise
    two lines that the manifest rewriting takes for absolute URLs are
    rewritten alike only if they are the same URL. *)
Theorem playback_urls_tell_sources_apart (proxyEnv : option string) :
  (forall u1 u2,
     Xtream.createStreamUrl proxyEnv u1 = Xtream.createStreamUrl proxyEnv u2 ->
     u1 = u2)
  /\ (forall uuid baseUrl creds cats1 cats2 n1 n2 s1 s2,
        Channel.url (Xtream.liveChannel uuid proxyEnv baseUrl creds cats1 n1 s1)
        = Channel.url (Xtream.liveChannel uuid proxyEnv baseUrl creds cats2 n2 s2)
        <-> Xtream.stream_id s1 = Xtream.stream_id s2)
  /\ (forall endpoint t1 t2,
        endpoint +:+ encodeURIComponent t1 = endpoint +:+ encodeURIComponent t2 ->
        t1 = t2).
Proof.
  assert (Hinj : forall u1 u2,
    Xtream.createStreamUrl proxyEnv u1 = Xtream.createStreamUrl proxyEnv u2 ->
    u1 = u2).
  { intros u1 u2. unfold Xtream.createStreamUrl. intros H.
    apply (inj (String.app _)) in H. apply (inj (String.app _)) in H.
    by apply encodeURIComponent_inj. }
  split; [exact Hinj|]. split.
  - intros uuid baseUrl creds cats1 cats2 n1 n2 s1 s2.
    cbn [Channel.url Xtream.liveChannel]. split.
    + intros H%Hinj.
      repeat apply (inj (String.app _)) in H.
      apply string_app_inv_tail in H. by apply (inj pretty) in H.
    + by intros ->.
  - intros endpoint t1 t2 H. apply (inj (String.app _)) in H.
    by apply encodeURIComponent_inj.
Qed.

(** * More of the import handlers (components/ImportModal.tsx) *)



Section CommitFacts.
Variable uuid : nat -> string.
Variable clock : nat -> Z.
Variable importOption : ImportOption.
Variable playlistToUpdate : option string.

End CommitFacts.


(** ** Accounts that cannot be used *)

Lemma checkAccount_state authData status message :
  account_state authData status ->
  state_message status = Some message ->
  Xtream.checkAccount authData = Throw (Error message).
Proof.
  intros (userInfo & auth & Hu & Ht & Ha & Hz & Hs) Hm.
  unfold Xtream.checkAccount. rewrite Hu. cbn [mbind Exc_bind].
  rewrite Ht, Ha. cbn [mbind Exc_bind]. rewrite Hz, Hs.
  cbn [mbind Exc_bind Dyn.is_str]. unfold state_message in Hm.
  destruct (String.eqb status "Expired"); [by injection Hm as <-|].
  destruct (String.eqb status "Banned"); [by injection Hm as <-|].
  destruct (String.eqb status "Disabled"); [by injection Hm as <-|done].
Qed.

Lemma state_message_cases status message :
  state_message status = Some message ->
  message = "Account expired. Please renew your subscription."
  \/ message = "Account has been banned."
  \/ message = "Account is disabled.".
Proof.
  unfold state_message.
  destruct (String.eqb status "Expired"); [intros [= <-]; by left|].
  destruct (String.eqb status "Banned"); [intros [= <-]; right; by left|].
  destruct (String.eqb status "Disabled"); [intros [= <-]; right; by right|done].
Qed.

(** X22. An account that has expired, is banned or is disabled stops an
    Xtream import at the first reply: [fetchXtreamChannels] has made the
    authentication request and nothing else, and throws the message of
    that state, which the import handler shows, leaving both stores as
    they were. *)
Theorem unusable_accounts_stop_the_import
    (srv : Xtream.server) (uuid : nat -> string) (proxyEnv : option string)
    (creds : Xtream.credentials) (authData : JsVal)
    (status message : string) :
  Xtream.auth srv (authRequest creds) = Ok authData ->
  account_state authData status ->
  state_message status = Some message ->
  Xtream.fetchXtreamChannels srv uuid proxyEnv creds =
    Xtream.mkM [Xtream.Request (authRequest creds)] (Throw (Error message))
  /\ (forall clock importOption playlistToUpdate playlistName w,
        Xtream.url creds <> EmptyString ->
        Xtream.username creds <> EmptyString ->
        Xtream.password creds <> EmptyString ->
        ImportModal.handleImportXtream uuid clock importOption playlistToUpdate
          srv proxyEnv playlistName (Xtream.url creds) (Xtream.username creds)
          (Xtream.password creds) w =
        ImportModal.mkOutcome w (Some message) false
          [Xtream.Request (authRequest creds)]).
Proof.
  intros Hauth Hstate Hm.
  assert (Hfetch : Xtream.fetchXtreamChannels srv uuid proxyEnv creds =
    Xtream.mkM [Xtream.Request (authRequest creds)] (Throw (Error message))).
  { unfold Xtream.fetchXtreamChannels, Xtream.fetchFamilies, Xtream.call.
    fold (authRequest creds). rewrite Hauth.
    unfold mbind, Xtream.M_bind. cbn [Xtream.outcome Xtream.log].
    unfold Xtream.lift. rewrite (checkAccount_state _ _ _ Hstate Hm).
    cbn [Xtream.outcome Xtream.log Xtream.catch].
    unfold Xtream.catch. cbn [Xtream.outcome Xtream.log].
    assert (Xtream.rethrow (Error message) = Xtream.throw (Error message))
      as ->.
    { destruct (state_message_cases _ _ Hm) as [->|[->| ->]];
        vm_compute; reflexivity. }
    reflexivity. }
  split; [exact Hfetch|].
  intros clock importOption playlistToUpdate playlistName w Hu Hn Hp.
  unfold ImportModal.handleImportXtream.
  destruct (String.eqb_spec (Xtream.url creds) EmptyString); [done|].
  destruct (String.eqb_spec (Xtream.username creds) EmptyString); [done|].
  destruct (String.eqb_spec (Xtream.password creds) EmptyString); [done|].
  cbn [orb].
  replace (Xtream.mkCredentials (Xtream.url creds) (Xtream.username creds)
             (Xtream.password creds)) with creds by (by destruct creds).
  rewrite Hfetch. cbn [Xtream.outcome Xtream.log mbind Exc_bind].
  f_equal. f_equal.
  destruct (state_message_cases _ _ Hm) as [->|[->| ->]];
    vm_compute; reflexivity.
Qed.

Lemma unusable_accounts_stop_the_import_witness :
  let creds := Xtream.mkCredentials "http://tv.example:8080/" "u" "p" in
  Xtream.fetchXtreamChannels expired_server Sample.counterId None creds =
    Xtream.mkM
      [Xtream.Request (Xtream.mkRequest "http://tv.example:8080" "u" "p" None None)]
      (Throw (Error "Account expired. Please renew your subscription.")).
Proof.
  intros creds.
  refine (proj1 (unusable_accounts_stop_the_import expired_server
                   Sample.counterId None creds _ "Expired" _ _ _ _)).
  - reflexivity.
  - eexists _, _. repeat split; reflexivity.
  - reflexivity.
Defined.

(** * Line ends in playlists (lib/m3uParser.ts) *)

Lemma drop_space_app_space (l : list ascii) (a : ascii) :
  Js.is_space a = true ->
  Js.drop_space (l ++ [a]) =
  match Js.drop_space l with
  | [] => []
  | l' => l' ++ [a]
  end.
Proof.
  intros Ha. induction l as [|b l IH]; cbn [app Js.drop_space].
  - by rewrite Ha.
  - destruct (Js.is_space b); [exact IH|done].
Qed.

(** White space at the end of a line does not survive [trim]. *)
Lemma trim_bytes_app_space (l : list ascii) (a : ascii) :
  Js.is_space a = true -> Js.trim_bytes (l ++ [a]) = Js.trim_bytes l.
Proof.
  intros Ha. unfold Js.trim_bytes. rewrite drop_space_app_space by done.
  destruct (Js.drop_space l) as [|b l'] eqn:E; [done|].
  rewrite rev_app_distr. cbn [rev app Js.drop_space]. by rewrite Ha.
Qed.

Lemma same_trim_CR (cur : list ascii) :
  same_trim (string_of_list_ascii (rev cur))
    (string_of_list_ascii (rev (CR :: cur))).
Proof.
  unfold same_trim, Js.trim. rewrite !list_ascii_of_string_of_list_ascii.
  cbn [rev]. by rewrite trim_bytes_app_space.
Qed.

(** Splitting at line feeds alone gives the same lines, up to a carriage
    return at their end. *)
Lemma split_lines_split_lf (l : list ascii) : forall cur,
  Forall2 same_trim (split_lines_go cur l) (Proxy.split_lf_go cur l).
Proof.
  induction l as [|a l IH]; intros cur;
    cbn [split_lines_go Proxy.split_lf_go].
  - by repeat constructor.
  - destruct (Ascii.eqb_spec a LF) as [->|Ha].
    + constructor; [done|apply IH].
    + destruct (Ascii.eqb_spec a CR) as [->|Hc]; [|apply IH].
      destruct l as [|b l]; [apply IH|].
      destruct (Ascii.eqb_spec b LF) as [->|Hb]; [|apply IH].
      specialize (IH (CR :: cur)). cbn [split_lines_go Proxy.split_lf_go] in IH.
      rewrite Ascii.eqb_refl in IH.
      apply Forall2_cons_1 in IH as [_ IH].
      cbn [Proxy.split_lf_go]. rewrite Ascii.eqb_refl.
      constructor; [apply same_trim_CR|exact IH].
Qed.

Section LineEnds.
Variable newURL : string -> option URL.
Variable uuid : nat -> string.
Variable extinf : string -> Exc PartialChannel.

Lemma step_same_trim st a b :
  same_trim a b ->
  step newURL uuid extinf st a = step newURL uuid extinf st b.
Proof. unfold same_trim, step. by intros ->. Qed.

Lemma run_same_trim (l1 l2 : list string) :
  Forall2 same_trim l1 l2 ->
  forall st, run newURL uuid extinf st l1 = run newURL uuid extinf st l2.
Proof.
  induction 1 as [|a b l1 l2 Hab Hl IH]; intros st; [done|].
  cbn [run]. rewrite (step_same_trim st a b Hab).
  destruct (step newURL uuid extinf st b); cbn; [apply IH|done].
Qed.

Lemma parseLines_same_trim (l1 l2 : list string) :
  Forall2 same_trim l1 l2 ->
  parseLines newURL uuid extinf l1 = parseLines newURL uuid extinf l2.
Proof. intros H. unfold parseLines. by rewrite (run_same_trim l1 l2 H). Qed.
End LineEnds.

Lemma join_crlf_add_cr (lines : list string) :
  join_crlf lines = Proxy.join_lf (add_cr lines).
Proof.
  induction lines as [|l [|l2 lines] IH]; [done|done|].
  change (join_crlf (l :: l2 :: lines))
    with (l +:+ String CR (String LF (join_crlf (l2 :: lines)))).
  change (add_cr (l :: l2 :: lines))
    with ((l +:+ String CR EmptyString) :: add_cr (l2 :: lines)).
  rewrite join_lf_cons by (by destruct lines). rewrite IH.
  generalize (Proxy.join_lf (add_cr (l2 :: lines))). intros t.
  induction l as [|a l IHl]; [done|].
  change (String a l +:+ String CR (String LF t))
    with (String a (l +:+ String CR (String LF t))).
  change ((String a l +:+ String CR EmptyString) +:+ String LF t)
    with (String a ((l +:+ String CR EmptyString) +:+ String LF t)).
  by f_equal.
Qed.

Lemma add_cr_same_trim (lines : list string) :
  Forall2 same_trim (add_cr lines) lines.
Proof.
  induction lines as [|l [|l2 lines] IH]; [constructor|by repeat constructor|].
  change (add_cr (l :: l2 :: lines))
    with ((l +:+ String CR EmptyString) :: add_cr (l2 :: lines)).
  constructor; [|exact IH].
  unfold same_trim, Js.trim. rewrite list_ascii_of_string_app. cbn.
  by rewrite trim_bytes_app_space.
Qed.

Lemma add_cr_no_lf (lines : list string) :
  Forall no_lf lines -> Forall no_lf (add_cr lines).
Proof.
  induction lines as [|l [|l2 lines] IH]; intros H; [done|done|].
  apply Forall_cons_1 in H as [Hl H].
  change (add_cr (l :: l2 :: lines))
    with ((l +:+ String CR EmptyString) :: add_cr (l2 :: lines)).
  constructor; [|by apply IH].
  apply no_lf_app; [done|]. by repeat constructor.
Qed.

(** X24. Line ends do not matter to the parser.  Splitting the text at
    line feeds alone gives the same result as splitting it at carriage
    return and line feed: a carriage return before a line feed is white
    space at the end of a line and is trimmed away.  So the same lines
    joined the Windows way or the Unix way parse to the same items and
    errors. *)
Theorem line_ends_do_not_matter
    (newURL : string -> option URL) (uuid : nat -> string)
    (lines : list string) :
  Forall no_lf lines ->
  (forall content,
     parseM3U newURL uuid content
     = parseLines newURL uuid parseExtInf (Proxy.split_lf content))
  /\ parseM3U newURL uuid (join_crlf lines)
     = parseM3U newURL uuid (Proxy.join_lf lines)
  /\ (lines <> [] ->
      parseM3U newURL uuid (join_crlf lines)
      = parseLines newURL uuid parseExtInf lines).
Proof.
  intros Hlines.
  assert (Hsplit : forall content,
     parseM3U newURL uuid content
     = parseLines newURL uuid parseExtInf (Proxy.split_lf content)).
  { intros content. unfold parseM3U, parseM3U_with.
    apply parseLines_same_trim, split_lines_split_lf. }
  assert (Hcr : lines <> [] ->
    parseM3U newURL uuid (join_crlf lines)
    = parseLines newURL uuid parseExtInf lines).
  { intros Hne. rewrite Hsplit, join_crlf_add_cr.
    rewrite split_lf_join_lf.
    - apply parseLines_same_trim, add_cr_same_trim.
    - destruct lines as [|l [|l2 lines]]; done.
    - by apply add_cr_no_lf. }
  split; [exact Hsplit|]. split; [|exact Hcr].
  destruct lines as [|l lines]; [done|].
  rewrite Hcr by done. rewrite Hsplit, split_lf_join_lf by done. done.
Qed.

Lemma line_ends_do_not_matter_witness :
  let lines := ["#EXTM3U"; "#EXTINF:-1,CNN"; "http://x/cnn.m3u8"] in
  parseM3U Sample.simpleURL Sample.counterId (join_crlf lines)
  = parseM3U Sample.simpleURL Sample.counterId (Proxy.join_lf lines).
Proof.
  intros lines.
  destruct (line_ends_do_not_matter Sample.simpleURL Sample.counterId lines)
    as (_ & H & _).
  - repeat constructor; by vm_compute.
  - exact H.
Defined.

(** * The selectors in memory and the readers of the store *)

(** The counting loop on channels, from any start. *)
Lemma count_channels (l : list Channel) : forall n0,
  foldl (fun counts c => DB.count c counts) n0 l
  = Counts.mk
      (Counts.live n0 + length (filter (fun c => Channel.contentType c = live) l))
      (Counts.movie n0 + length (filter (fun c => Channel.contentType c = movie) l))
      (Counts.series n0
       + length (filter (fun c => Channel.contentType c = series) l)).
Proof.
  induction l as [|c l IH]; intros n0.
  - cbn. destruct n0. cbn. f_equal; lia.
  - cbn [foldl]. rewrite IH. rewrite !filter_cons. unfold DB.count.
    destruct (Channel.contentType c); repeat case_decide; try congruence;
      cbn [Counts.live Counts.movie Counts.series length]; f_equal; lia.
Qed.

Lemma count_Permutation (l1 l2 : list Channel) n0 :
  l1 ≡ₚ l2 ->
  foldl (fun counts c => DB.count c counts) n0 l1
  = foldl (fun counts c => DB.count c counts) n0 l2.
Proof. intros H. rewrite !count_channels. by rewrite H. Qed.

Lemma getContentCounts_candidates db pid :
  DB.getContentCounts db pid
  = foldl (fun counts c => DB.count c counts) (Counts.mk 0 0 0)
      (DB.candidates db (all_of pid)).
Proof.
  rewrite candidates_all_of. unfold DB.getContentCounts.
  generalize (Counts.mk 0 0 0).
  induction (DB.by_playlist (DB.channels db) pid) as [|kr l IH]; intros n0;
    [done|].
  rewrite !fmap_cons. cbn [foldl]. apply IH.
Qed.

(** The groups collected depend on the channels only, not on their
    order, once they are sorted. *)
Lemma sorted_groups_Permutation (l1 l2 : list Channel) :
  (forall c, c ∈ l1 <-> c ∈ l2) ->
  merge_sort String.le (DB.collect_groups l1)
  = merge_sort String.le (DB.collect_groups l2).
Proof.
  intros Hmem.
  destruct (collect_groups_foldl l1 [] (NoDup_nil_2 (A:=string))) as [Hn1 Hm1].
  destruct (collect_groups_foldl l2 [] (NoDup_nil_2 (A:=string))) as [Hn2 Hm2].
  apply (StronglySorted_unique String.le).
  - apply StronglySorted_merge_sort; apply _.
  - apply StronglySorted_merge_sort; apply _.
  - rewrite !merge_sort_Permutation. apply NoDup_Permutation; [done|done|].
    intros g. unfold DB.collect_groups. rewrite (Hm1 g), (Hm2 g).
    split; intros [H|(Hne & c & Hc & Hg)]; try (by left);
      right; (split; [done|]); exists c; (split; [|done]); by apply Hmem.
Qed.

(** After a replacing save of channels with distinct ids, the
    candidates of a query for the playlist are the channels saved that
    pass its filters. *)
Lemma elem_of_candidates_saved (p : Playlist) (db : DB.t) (o : DB.Query.t) c :
  NoDup (Channel.id <$> Playlist.channels p) ->
  DB.Query.playlistId o = Playlist.id p ->
  c ∈ DB.candidates (DB.savePlaylist p true db) o <->
  c ∈ Playlist.channels p /\ passes_filters o c.
Proof.
  intros Hnd Ho. rewrite elem_of_candidates_iff.
  rewrite <- (savePlaylist_replace_Permutation p db Hnd).
  rewrite elem_of_candidates_all_of, Ho. naive_solver.
Qed.

Lemma NoDup_list_filter {A : Type} (f : A -> bool) (l : list A) :
  NoDup l -> NoDup (List.filter f l).
Proof. intros H. eapply sublist_NoDup; [exact H|apply list_filter_sublist]. Qed.

Lemma ContentType_eqb_eq (a b : ContentType) :
  ContentType_eqb a b = true <-> a = b.
Proof. destruct a, b; cbn; split; congruence. Qed.

Lemma str_not_all (t : ContentType) :
  ContentType_str t <> EmptyString /\ ContentType_str t <> "all".
Proof. by destruct t. Qed.

(** What the in-memory filter lets through. *)
Lemma elem_of_useFilteredChannels (p : Playlist) search group f c :
  c ∈ Selectors.useFilteredChannels (Some p) search group f <->
  c ∈ Playlist.channels p
  /\ match f with
     | FilterAll => True
     | FilterType t => Channel.contentType c = t
     end
  /\ (search = EmptyString
      \/ Js.includes (Js.toLowerCase (Channel.name c)) (Js.toLowerCase search)
         = true)
  /\ match group with
     | Some g =>
         if String.eqb g "favorites" then Channel.isFavorite c = Some true
         else g = EmptyString \/ g = "all" \/ Channel.group c = Some g
     | None => True
     end.
Proof.
  unfold Selectors.useFilteredChannels.
  set (l1 := match f with
             | FilterAll => Playlist.channels p
             | FilterType t => _
             end).
  assert (H1 : c ∈ l1 <->
    c ∈ Playlist.channels p
    /\ match f with
       | FilterAll => True
       | FilterType t => Channel.contentType c = t
       end).
  { unfold l1. destruct f as [|t]; [tauto|].
    by rewrite elem_of_list_filter, ContentType_eqb_eq. }
  clearbody l1.
  set (l2 := if negb (String.eqb search EmptyString) then _ else l1).
  assert (H2 : c ∈ l2 <->
    c ∈ l1
    /\ (search = EmptyString
        \/ Js.includes (Js.toLowerCase (Channel.name c))
             (Js.toLowerCase search) = true)).
  { unfold l2. destruct (String.eqb_spec search EmptyString) as [Es|Es];
      cbn [negb]; [tauto|].
    rewrite elem_of_list_filter. tauto. }
  clearbody l2.
  destruct group as [g|]; [|rewrite H2, H1; tauto].
  destruct (String.eqb_spec g "favorites") as [->|Ef].
  - cbn [String.eqb Ascii.eqb Bool.eqb negb andb].
    rewrite elem_of_list_filter, is_favorite_true, H2, H1. tauto.
  - rewrite andb_false_r || idtac.
    destruct (String.eqb_spec g EmptyString) as [Eg|Eg]; cbn [negb andb];
      [rewrite H2, H1; tauto|].
    destruct (String.eqb_spec g "all") as [Ea|Ea]; cbn [negb andb];
      [rewrite H2, H1; tauto|].
    rewrite elem_of_list_filter, bool_decide_eq_true, H2, H1. tauto.
Qed.

(** What the query of the hook lets through. *)
Lemma passes_filters_query_of (p : Playlist) search group f pageSize c :
  passes_filters
    (Hook.query_of p (Hook.mkEnv (Some p) search group f pageSize)) c <->
  match f with
  | FilterAll => True
  | FilterType t => Channel.contentType c = t
  end
  /\ (search = EmptyString
      \/ Js.includes (Js.toLowerCase (Channel.name c)) (Js.toLowerCase search)
         = true)
  /\ match group with
     | Some g =>
         if String.eqb g "favorites" then Channel.isFavorite c = Some true
         else g = EmptyString \/ g = "all" \/ Channel.group c = Some g
     | None => True
     end.
Proof.
  unfold passes_filters, Hook.query_of, Hook.nonempty.
  cbn [DB.Query.contentType DB.Query.group DB.Query.isFavorite
       DB.Query.searchQuery Hook.contentFilter Hook.selectedGroup
       Hook.searchQuery].
  assert (Ht : match
      match f with
      | FilterAll => None
      | FilterType series => Some "series"
      | FilterType t => Some (ContentType_str t)
      end
    with
    | Some ct =>
        ct = EmptyString \/ ct = "all"
        \/ ContentType_str (Channel.contentType c) = ct
    | None => True
    end <->
    match f with
    | FilterAll => True
    | FilterType t => Channel.contentType c = t
    end).
  { destruct f as [|t]; [done|].
    destruct t, (Channel.contentType c); cbn; naive_solver. }
  assert (Hs : match
      (if String.eqb search EmptyString then None else Some search)
    with
    | Some sq =>
        sq = EmptyString
        \/ Js.includes (Js.toLowerCase (Channel.name c)) (Js.toLowerCase sq)
           = true
    | None => True
    end <->
    (search = EmptyString
     \/ Js.includes (Js.toLowerCase (Channel.name c)) (Js.toLowerCase search)
        = true)).
  { destruct (String.eqb_spec search EmptyString); naive_solver. }
  rewrite Ht, Hs. clear Ht Hs.
  destruct group as [g|]; [|tauto].
  destruct (String.eqb_spec g "favorites") as [->|Ef]; [tauto|].
  destruct (String.eqb_spec g EmptyString) as [Eg|Eg]; tauto.
Qed.

(** X25. The readers of the persistent store give what the selectors on
    the playlists in memory give.  Once a playlist whose channels have
    pairwise distinct ids has been saved with replacement, the counts
    per content type and the list of groups read from the store are
    those the selectors compute from the channels of the playlist, and
    for every search text, group (the favorites entry included) and
    content filter, the channels the paginated hook queries for are the
    channels the in-memory filter selects, up to their order. *)
Theorem store_readers_agree_with_selectors (p : Playlist) (db : DB.t) :
  NoDup (Channel.id <$> Playlist.channels p) ->
  let db' := DB.savePlaylist p true db in
  Selectors.useContentCounts (Some p) = DB.getContentCounts db' (Playlist.id p)
  /\ (forall f,
        Selectors.useChannelGroups (Some p) f
        = DB.getGroups db' (Playlist.id p) (type_of_filter f))
  /\ (forall search group f pageSize,
        Selectors.useFilteredChannels (Some p) search group f
        ≡ₚ DB.candidates db'
             (Hook.query_of p (Hook.mkEnv (Some p) search group f pageSize))).
Proof.
  intros Hnd db'.
  assert (Hnd' : NoDup (Playlist.channels p))
    by (by apply (NoDup_fmap_inv Channel.id)).
  split; [|split].
  - unfold db'. rewrite getContentCounts_candidates. cbn.
    apply count_Permutation. symmetry.
    by apply savePlaylist_replace_Permutation.
  - intros f. cbn. unfold DB.getGroups. apply sorted_groups_Permutation.
    intros c. rewrite of_type_candidates.
    unfold db'. rewrite elem_of_candidates_saved by done.
    rewrite elem_of_list_filter. unfold passes_filters. cbn.
    destruct f as [|t]; cbn; [naive_solver|].
    rewrite ContentType_eqb_eq. destruct (str_not_all t).
    split; [intros [? ->]; naive_solver|].
    intros [? ([?|[?|?%ContentType_str_inj]] & _)]; done.
  - intros search group f pageSize. apply NoDup_Permutation.
    + eapply sublist_NoDup; [exact Hnd'|].
      unfold Selectors.useFilteredChannels.
      repeat match goal with
      | |- (match ?x with _ => _ end) `sublist_of` _ => destruct x
      | |- (if ?x then _ else _) `sublist_of` _ => destruct x
      | |- List.filter _ _ `sublist_of` _ =>
          etrans; [apply list_filter_sublist|]
      end; done.
    + eapply sublist_NoDup; [|apply candidates_sublist].
      unfold db'. by rewrite savePlaylist_replace_Permutation.
    + intros c. unfold db'. rewrite elem_of_candidates_saved by done.
      rewrite elem_of_useFilteredChannels, passes_filters_query_of. tauto.
Qed.

Lemma store_readers_agree_with_selectors_witness :
  NoDup (Channel.id <$> Playlist.channels sample_playlist)
  /\ Selectors.useContentCounts (Some sample_playlist)
     = DB.getContentCounts sample_db (Playlist.id sample_playlist).
Proof.
  assert (H : NoDup (Channel.id <$> Playlist.channels sample_playlist)).
  { vm_compute. repeat constructor; set_solver. }
  split; [exact H|].
  exact (proj1 (store_readers_agree_with_selectors sample_playlist DB.empty H)).
Defined.



(** ** Running the classifier and the parser *)

Example detect_breaking_bad :
  detectContentType "Breaking Bad S01E03" "Uncategorized" "http://x/1.ts" = series.
Proof. vm_compute. reflexivity. Qed.

Example series_breaking_bad :
  parseSeriesInfo "Breaking Bad S01E03" =
  Ok (SeriesInfo.mk (Some "breaking-bad") (Some "Breaking Bad")
        (Some (Js.Int 1)) (Some (Js.Int 3))).
Proof. vm_compute. reflexivity. Qed.

Example series_misc :
  (parseSeriesInfo "Dark - 2x07 (HD)",
   parseSeriesInfo "Élite_s3 e10",
   normalizeSeriesId "--The  Office (US)!",
   detectContentType "Canal SÉRIES" "Canais" "http://x/1.ts",
   detectContentType "CNN" "News" "http://x/cnn.m3u8",
   Js.parseInt10 " -12ab", Js.parseInt10 "x1") =
  (Ok (SeriesInfo.mk (Some "dark") (Some "Dark")
         (Some (Js.Int 2)) (Some (Js.Int 7))),
   Ok (SeriesInfo.mk (Some "lite") (Some "Élite")
         (Some (Js.Int 3)) (Some (Js.Int 10))),
   "the-office-us", series, live, Js.Int (-12), Js.NaN).
Proof. vm_compute. reflexivity. Qed.

Example parse_cnn :
  parseM3U Sample.simpleURL Sample.counterId
    (Sample.lines
       ["#EXTM3U";
        "#EXTINF:-1 tvg-logo=" +:+ Sample.q +:+ "l.png" +:+ Sample.q
          +:+ " group-title=" +:+ Sample.q +:+ "News" +:+ Sample.q +:+ ",CNN";
        "http://x/cnn.m3u8"]) =
  Ok (M3U.mkResult
        [{| Channel.id := "id-0"; Channel.name := "CNN";
            Channel.url := "http://x/cnn.m3u8";
            Channel.originalUrl := None; Channel.logo := Some "l.png";
            Channel.group := Some "News"; Channel.tvgId := None;
            Channel.tvgName := None; Channel.isFavorite := None;
            Channel.contentType := live; Channel.year := None;
            Channel.rating := None; Channel.duration := None;
            Channel.plot := None; Channel.seriesId := None;
            Channel.seriesName := None; Channel.seasonNum := None;
            Channel.episodeNum := None |}]
        []).
Proof. vm_compute. reflexivity. Qed.

Example parse_unknown_and_bad_url :
  parseM3U Sample.simpleURL Sample.counterId
    (Sample.lines
       ["#EXTINF:-1"; "not a url"; "#EXTINF:-1"; "#EXTGRP: Kids ";
        "rtmp://h/live"; "http://orphan/x"]) =
  Ok (M3U.mkResult
        [Sample.item "id-0" "Unknown Channel" "rtmp://h/live" "Kids" live]
        []).
Proof. vm_compute. reflexivity. Qed.
